(** * ProtectYaNeck: the keyword risk analyzer

    A shallow embedding of the risk-detection and scoring engine (the
    module imported as [./analyzer] by the content scripts) and of the
    static tables of [shared/constants] that it reads, followed by the
    properties of the engine.

    JavaScript strings are sequences of UTF-16 code units, numbers that the
    engine manipulates are integers (indices, ranks, scores), and the two
    services of the host that the code calls, [String.prototype.toLowerCase]
    and [Date.now], are taken as they are: the first as a function of the
    engine, the second as the sequence of its readings. *)

From Stdlib Require Import String Ascii List ZArith Bool Lia.
From Stdlib Require Import Sorted Permutation DecimalString.
Import ListNotations.
Open Scope Z_scope.

(* ================================================================== *)
(** * JavaScript strings                                               *)
(* ================================================================== *)

(** A string value: its UTF-16 code units. *)
Definition jsstring := list Z.

(** A string literal of the source (all of them are Basic Latin). *)
Definition lit (s : string) : jsstring :=
  map (fun a => Z.of_N (N_of_ascii a)) (list_ascii_of_string s).

(** [s.length] *)
Definition len (s : jsstring) : Z := Z.of_nat (length s).

Fixpoint jsstring_eqb (a b : jsstring) : bool :=
  match a, b with
  | [], [] => true
  | x :: a', y :: b' => (x =? y) && jsstring_eqb a' b'
  | _, _ => false
  end.

(** Number::toString on the integers the analyzer prints (counts,
    percentages, millisecond time stamps: all below 10^21, where the
    result is the plain decimal numeral). *)
Definition Number_toString (n : Z) : jsstring :=
  lit (NilZero.string_of_int (Z.to_int n)).

(** WhiteSpace and LineTerminator code points: what [trim] strips and what
    the class [\s] of a regular expression contains. *)
Definition isWhiteSpace (c : Z) : bool :=
  ((9 <=? c) && (c <=? 13)) || (c =? 32) || (c =? 160) || (c =? 5760)
  || ((8192 <=? c) && (c <=? 8202)) || (c =? 8232) || (c =? 8233)
  || (c =? 8239) || (c =? 8287) || (c =? 12288) || (c =? 65279).

Fixpoint trimStart (s : jsstring) : jsstring :=
  match s with
  | c :: s' => if isWhiteSpace c then trimStart s' else s
  | [] => []
  end.

Definition trimEnd (s : jsstring) : jsstring := rev (trimStart (rev s)).

(** [s.trim()] *)
Definition trim (s : jsstring) : jsstring := trimEnd (trimStart s).

(** [s.substring(start, end)]: both bounds are clamped to [0, s.length]
    and swapped when they come in the wrong order. *)
Definition substring (s : jsstring) (start end_ : Z) : jsstring :=
  let finalStart := Z.min (Z.max start 0) (len s) in
  let finalEnd := Z.min (Z.max end_ 0) (len s) in
  let from := Z.min finalStart finalEnd in
  let to := Z.max finalStart finalEnd in
  firstn (Z.to_nat (to - from)) (skipn (Z.to_nat from) s).

(** [searchString] is a prefix of [s]. *)
Fixpoint startsWith (searchString s : jsstring) : bool :=
  match searchString, s with
  | [], _ => true
  | x :: p, y :: s' => (x =? y) && startsWith p s'
  | _ :: _, [] => false
  end.

Fixpoint indexOfFrom (s searchString : jsstring) (k : Z) : Z :=
  if startsWith searchString s then k
  else match s with
       | [] => -1
       | _ :: s' => indexOfFrom s' searchString (k + 1)
       end.

(** [s.indexOf(searchString)]: the smallest index at which [searchString]
    occurs in [s], or -1. *)
Definition indexOf (s searchString : jsstring) : Z :=
  indexOfFrom s searchString 0.

(** The case mapping of the Basic Latin block, on which [toLowerCase] and
    the [i] flag of regular expressions agree with ASCII. *)
Definition asciiLower (c : Z) : Z :=
  if (65 <=? c) && (c <=? 90) then c + 32 else c.

Definition asciiUpper (c : Z) : Z :=
  if (97 <=? c) && (c <=? 122) then c - 32 else c.

(** [toLowerCase] of an engine restricted to Basic Latin letters; on texts
    of the Basic Latin block it is the function every engine computes. It
    instantiates the engine in the examples below. *)
Definition asciiToLowerCase (s : jsstring) : jsstring := map asciiLower s.

(* ================================================================== *)
(** * Regular expressions                                              *)
(* ================================================================== *)

(** The fragment of the pattern language that the analyzer's literals are
    written in, all under the [i] flag and none under [u], [g] or [y]. *)
Inductive regex : Type :=
| Eps                          (* the empty pattern *)
| Chr (c : Z)                  (* a pattern character *)
| WsPlus                       (* \s+ *)
| Cat (r1 r2 : regex)          (* r1r2 *)
| Alt (r1 r2 : regex)          (* r1|r2 *)
| Opt (r : regex).             (* (r)? *)

(** Canonicalize of a code unit under [i] without [u]: the upper case
    mapping, which never sends a code unit outside Basic Latin into it.
    Pattern characters are Basic Latin, so comparing [asciiUpper] of both
    sides is the comparison the engine makes. *)
Definition canonicalize (c : Z) : Z := asciiUpper c.

(** Greedy [\s+] in front of the continuation [k]: take as many white
    space characters as there are, give back one at a time. *)
Fixpoint wsPlus (s : jsstring) (k : jsstring -> option jsstring)
  : option jsstring :=
  match s with
  | c :: s' =>
      if isWhiteSpace c then
        match wsPlus s' k with
        | Some rest => Some rest
        | None => k s'
        end
      else None
  | [] => None
  end.

(** The backtracking matcher: [r] against a prefix of [s], then the
    continuation [k] on what is left; alternatives are tried left to
    right, an optional group first with its body. The result is the input
    left over after the whole match. *)
Fixpoint backtrack (r : regex) (s : jsstring)
  (k : jsstring -> option jsstring) : option jsstring :=
  match r with
  | Eps => k s
  | Chr c =>
      match s with
      | x :: s' => if canonicalize c =? canonicalize x then k s' else None
      | [] => None
      end
  | WsPlus => wsPlus s k
  | Cat r1 r2 => backtrack r1 s (fun s' => backtrack r2 s' k)
  | Alt r1 r2 =>
      match backtrack r1 s k with
      | Some rest => Some rest
      | None => backtrack r2 s k
      end
  | Opt r1 =>
      match backtrack r1 s k with
      | Some rest => Some rest
      | None => k s
      end
  end.

(** RegExpBuiltinExec without [g]/[y]: the start index goes up from 0
    until the matcher succeeds; the result is the matched text. *)
Fixpoint execFrom (r : regex) (s : jsstring) : option jsstring :=
  match backtrack r s Some with
  | Some rest => Some (firstn (length s - length rest) s)
  | None =>
      match s with
      | [] => None
      | _ :: s' => execFrom r s'
      end
  end.

(** [text.match(pattern)], reduced to its element 0 (the matched text),
    [None] standing for [null]. *)
Definition String_match (text : jsstring) (pattern : regex)
  : option jsstring := execFrom pattern text.

(** [pattern.test(text)] *)
Definition RegExp_test (pattern : regex) (text : jsstring) : bool :=
  match execFrom pattern text with Some _ => true | None => false end.

(** The words a pattern denotes, independently of any matching order. *)
Inductive matches : regex -> jsstring -> Prop :=
| M_Eps : matches Eps []
| M_Chr c x : canonicalize c = canonicalize x -> matches (Chr c) [x]
| M_Ws1 x : isWhiteSpace x = true -> matches WsPlus [x]
| M_WsS x s :
    isWhiteSpace x = true -> matches WsPlus s -> matches WsPlus (x :: s)
| M_Cat r1 r2 s1 s2 :
    matches r1 s1 -> matches r2 s2 -> matches (Cat r1 r2) (s1 ++ s2)
| M_AltL r1 r2 s : matches r1 s -> matches (Alt r1 r2) s
| M_AltR r1 r2 s : matches r2 s -> matches (Alt r1 r2) s
| M_OptNone r : matches (Opt r) []
| M_OptSome r s : matches r s -> matches (Opt r) s.

(** Pattern syntax: a run of literal characters, a sequence, a choice. *)
Definition word (s : string) : regex :=
  fold_right (fun c r => Cat (Chr c) r) Eps (lit s).

Definition sequence (rs : list regex) : regex := fold_right Cat Eps rs.

Fixpoint oneOf (rs : list regex) : regex :=
  match rs with
  | [] => Eps
  | [r] => r
  | r :: rs' => Alt r (oneOf rs')
  end.

(* ================================================================== *)
(** * Data model (src/shared/types.ts)                                 *)
(* ================================================================== *)

Inductive RiskSeverity : Type := low | medium | high | critical.

Inductive RiskCategory : Type :=
| data_sharing | auto_renewal | third_party_access | liability_waiver
| arbitration | data_retention | account_termination | jurisdiction.

Definition RiskSeverity_eqb (a b : RiskSeverity) : bool :=
  match a, b with
  | low, low | medium, medium | high, high | critical, critical => true
  | _, _ => false
  end.

Definition RiskCategory_eqb (a b : RiskCategory) : bool :=
  match a, b with
  | data_sharing, data_sharing | auto_renewal, auto_renewal
  | third_party_access, third_party_access
  | liability_waiver, liability_waiver | arbitration, arbitration
  | data_retention, data_retention
  | account_termination, account_termination
  | jurisdiction, jurisdiction => true
  | _, _ => false
  end.

(** The property key a category is written with. *)
Definition categoryKey (c : RiskCategory) : jsstring :=
  match c with
  | data_sharing => lit "data_sharing"
  | auto_renewal => lit "auto_renewal"
  | third_party_access => lit "third_party_access"
  | liability_waiver => lit "liability_waiver"
  | arbitration => lit "arbitration"
  | data_retention => lit "data_retention"
  | account_termination => lit "account_termination"
  | jurisdiction => lit "jurisdiction"
  end.

Record Location : Type := mkLocation { startIndex : Z; endIndex : Z }.

Record RiskItem : Type := mkRiskItem {
  id : jsstring;
  category : RiskCategory;
  severity : RiskSeverity;
  title : jsstring;
  summary : jsstring;
  originalText : jsstring;
  location : Location
}.

(* ================================================================== *)
(** * Static tables (src/shared/constants.ts, analyzer.ts)             *)
(* ================================================================== *)

Record CategoryMeta : Type := mkMeta {
  label : jsstring;
  description : jsstring;
  defaultSeverity : RiskSeverity
}.

(** [RISK_CATEGORIES], read by key (the [icon] field is not read by the
    analyzer). *)
Definition RISK_CATEGORIES (c : RiskCategory) : CategoryMeta :=
  match c with
  | data_sharing =>
      mkMeta (lit "Data Sharing")
             (lit "Your data may be shared with third parties") high
  | auto_renewal =>
      mkMeta (lit "Auto-Renewal")
             (lit "Subscription automatically renews") medium
  | third_party_access =>
      mkMeta (lit "Third-Party Access")
             (lit "External parties can access your information") high
  | liability_waiver =>
      mkMeta (lit "Liability Waiver")
             (lit "Company limits their responsibility") high
  | arbitration =>
      mkMeta (lit "Arbitration Clause")
             (lit "You may waive your right to sue in court") critical
  | data_retention =>
      mkMeta (lit "Data Retention")
             (lit "Your data may be kept indefinitely") medium
  | account_termination =>
      mkMeta (lit "Account Termination")
             (lit "Account can be terminated without notice") medium
  | jurisdiction =>
      mkMeta (lit "Jurisdiction")
             (lit "Legal disputes governed by specific laws") low
  end.

(** [Object.entries(RISK_KEYWORDS)]: the keyword lists in the order in
    which the object literal defines its keys. *)
Definition RISK_KEYWORDS : list (RiskCategory * list jsstring) :=
  [ (data_sharing,
      map lit [ "share with third parties"; "share your information";
                "disclose to partners"; "sell your data";
                "transfer your information"; "share with affiliates";
                "provide to advertisers" ]%string);
    (auto_renewal,
      map lit [ "automatically renew"; "auto-renewal"; "recurring billing";
                "subscription will renew"; "cancel before"; "billing cycle";
                "charged automatically" ]%string);
    (third_party_access,
      map lit [ "service providers"; "third-party services"; "contractors";
                "business partners"; "access your information";
                "share with vendors" ]%string);
    (liability_waiver,
      map lit [ "limitation of liability"; "not responsible for";
                "not liable for"; "no warranty"; "as is";
                "disclaim all warranties"; "use at your own risk" ]%string);
    (arbitration,
      map lit [ "binding arbitration"; "waive right to jury";
                "class action waiver"; "arbitration agreement";
                "dispute resolution";
                "waive your right to participate in class action" ]%string);
    (data_retention,
      map lit [ "retain your data"; "keep your information";
                "store indefinitely"; "retain after termination";
                "data retention period"; "preserve your data" ]%string);
    (account_termination,
      map lit [ "terminate at any time"; "suspend your account";
                "without notice"; "sole discretion";
                "terminate without cause"; "revoke access" ]%string);
    (jurisdiction,
      map lit [ "governed by the laws of"; "exclusive jurisdiction";
                "venue shall be"; "subject to the laws";
                "courts of" ]%string) ].

(** The position of a category among the keys of [RISK_KEYWORDS]. *)
Definition categoryIndex (c : RiskCategory) : Z :=
  match c with
  | data_sharing => 0 | auto_renewal => 1 | third_party_access => 2
  | liability_waiver => 3 | arbitration => 4 | data_retention => 5
  | account_termination => 6 | jurisdiction => 7
  end.

Record DangerousCombination : Type := mkCombo {
  categories : list RiskCategory;
  severityBoost : Z;
  warning : jsstring
}.

Definition DANGEROUS_COMBINATIONS : list DangerousCombination :=
  [ mkCombo [arbitration; liability_waiver] 1
      (lit "Combined arbitration and liability waiver severely limits your legal options");
    mkCombo [data_sharing; third_party_access; data_retention] 1
      (lit "Your data can be shared widely and kept indefinitely");
    mkCombo [auto_renewal; account_termination] 1
      (lit "They can charge you automatically but terminate you at will") ].

Definition ws : regex := WsPlus.

(** The ten patterns of [RED_FLAGS]. *)
Definition RED_FLAGS : list regex :=
  [ (* /waive\s+(your\s+)?right\s+to\s+(a\s+)?jury/i *)
    sequence [word "waive"; ws; Opt (sequence [word "your"; ws]); word "right"; ws;
         word "to"; ws; Opt (sequence [word "a"; ws]); word "jury"];
    (* /class\s+action\s+waiver/i *)
    sequence [word "class"; ws; word "action"; ws; word "waiver"];
    (* /binding\s+arbitration/i *)
    sequence [word "binding"; ws; word "arbitration"];
    (* /sell\s+(your\s+)?(personal\s+)?(data|information)/i *)
    sequence [word "sell"; ws; Opt (sequence [word "your"; ws]);
         Opt (sequence [word "personal"; ws]);
         oneOf [word "data"; word "information"]];
    (* /perpetual\s+(and\s+)?irrevocable\s+license/i *)
    sequence [word "perpetual"; ws; Opt (sequence [word "and"; ws]);
         word "irrevocable"; ws; word "license"];
    (* /without\s+(prior\s+)?notice/i *)
    sequence [word "without"; ws; Opt (sequence [word "prior"; ws]); word "notice"];
    (* /sole\s+(and\s+absolute\s+)?discretion/i *)
    sequence [word "sole"; ws; Opt (sequence [word "and"; ws; word "absolute"; ws]);
         word "discretion"];
    (* /indemnify\s+(and\s+)?hold\s+harmless/i *)
    sequence [word "indemnify"; ws; Opt (sequence [word "and"; ws]); word "hold"; ws;
         word "harmless"];
    (* /waive\s+any\s+claims/i *)
    sequence [word "waive"; ws; word "any"; ws; word "claims"];
    (* /no\s+refunds?\s+(under\s+any\s+circumstances)?/i *)
    sequence [word "no"; ws; word "refund"; Opt (Chr 115); ws;
         Opt (sequence [word "under"; ws; word "any"; ws; word "circumstances"])]
  ].

(** /waive|forfeit|surrender|binding|mandatory|required/i *)
Definition CRITICAL_INDICATORS : regex :=
  oneOf [word "waive"; word "forfeit"; word "surrender"; word "binding";
         word "mandatory"; word "required"].

(** /sell|monetize|indefinitely|without notice|any reason/i *)
Definition HIGH_INDICATORS : regex :=
  oneOf [word "sell"; word "monetize"; word "indefinitely";
         word "without notice"; word "any reason"].

(** A property read on an object literal: a number of its own, something
    inherited from [Object.prototype] (a function, or the prototype itself
    under [__proto__]), or [undefined]. *)
Inductive jsvalue : Type :=
| JNumber (n : Z)
| JInherited
| JUndefined.

(** The property names every object literal inherits. *)
Definition Object_prototype_keys : list jsstring :=
  map lit [ "constructor"; "__defineGetter__"; "__defineSetter__";
            "hasOwnProperty"; "__lookupGetter__"; "__lookupSetter__";
            "isPrototypeOf"; "propertyIsEnumerable"; "toString"; "valueOf";
            "__proto__"; "toLocaleString" ]%string.

(** The own properties of [INDUSTRY_AVERAGES]. *)
Definition INDUSTRY_AVERAGES : list (jsstring * Z) :=
  [ (lit "social_media", 72); (lit "ecommerce", 58); (lit "saas", 54);
    (lit "finance", 68); (lit "healthcare", 62); (lit "default", 55) ].

Fixpoint ownProperty (o : list (jsstring * Z)) (key : jsstring) : option Z :=
  match o with
  | [] => None
  | (k, v) :: o' => if jsstring_eqb k key then Some v else ownProperty o' key
  end.

(** [o[key]] on an object literal [o]: own properties first, then the
    prototype chain. *)
Definition getProperty (o : list (jsstring * Z)) (key : jsstring) : jsvalue :=
  match ownProperty o key with
  | Some v => JNumber v
  | None =>
      if existsb (jsstring_eqb key) Object_prototype_keys then JInherited
      else JUndefined
  end.

(* ================================================================== *)
(** * The analyzer (src/content/analyzer.ts)                           *)
(* ================================================================== *)

(** [Array.prototype.sort(compareFn)]: the sort is stable, so with a
    consistent comparator its result is the one of a stable insertion:
    each element goes in front of the elements sorted so far up to the
    first one it does not compare greater than. *)
Fixpoint insertSorted {A : Type} (compareFn : A -> A -> Z) (x : A)
  (sorted : list A) : list A :=
  match sorted with
  | [] => [x]
  | y :: sorted' =>
      if compareFn x y >? 0 then y :: insertSorted compareFn x sorted'
      else x :: sorted
  end.

Definition Array_sort {A : Type} (compareFn : A -> A -> Z) (l : list A)
  : list A := fold_right (insertSorted compareFn) [] l.

(** Converts severity to numeric rank for sorting. *)
Definition severityRank (s : RiskSeverity) : Z :=
  match s with low => 1 | medium => 2 | high => 3 | critical => 4 end.

(** Generates a plain-language summary for a risk. *)
Definition generateSummary (c : RiskCategory) (context : jsstring)
  : jsstring :=
  match c with
  | data_sharing => lit "This service may share your personal information with third parties, partners, or advertisers."
  | auto_renewal => lit "Your subscription will automatically renew and you will be charged unless you cancel before the renewal date."
  | third_party_access => lit "External companies and service providers may have access to your data and account information."
  | liability_waiver => lit "The company limits their responsibility if something goes wrong. You may have limited options for recourse."
  | arbitration => lit "You may be giving up your right to sue in court or join a class action lawsuit. Disputes would be handled through private arbitration."
  | data_retention => lit "Your data may be kept for an extended period, even after you close your account."
  | account_termination => lit "The company can suspend or terminate your account at their discretion, potentially without warning."
  | jurisdiction => lit "Legal matters will be handled according to specific laws and courts, which may not be in your location."
  end.

(** Calculates overall severity from a list of risks. [Math.max] is
    applied to at least one argument: the empty list returns before. *)
Definition calculateOverallSeverity (risks : list RiskItem) : RiskSeverity :=
  match map (fun r => severityRank (severity r)) risks with
  | [] => low
  | rank :: ranks =>
      let maxRank := fold_left Z.max ranks rank in
      if maxRank >=? 4 then critical
      else if maxRank >=? 3 then high
      else if maxRank >=? 2 then medium
      else low
  end.

(** Template pieces [${n === 1 ? '' : 's'}] and [${n === 1 ? 's' : ''}]. *)
Definition unlessOne (n : Z) (s : string) : jsstring :=
  if n =? 1 then [] else lit s.

Definition ifOne (n : Z) (s : string) : jsstring :=
  if n =? 1 then lit s else [].

(** Generates an overall summary of all risks. *)
Definition generateOverallSummary (risks : list RiskItem) : jsstring :=
  if Z.of_nat (length risks) =? 0 then
    lit "No significant risks detected in this agreement."
  else
    let criticalCount :=
      Z.of_nat (length (filter (fun r => RiskSeverity_eqb (severity r) critical) risks)) in
    let highCount :=
      Z.of_nat (length (filter (fun r => RiskSeverity_eqb (severity r) high) risks)) in
    let n := Z.of_nat (length risks) in
    let summary0 :=
      lit "Found " ++ Number_toString n ++ lit " potential risk"
      ++ unlessOne n "s" ++ lit ". " in
    let summary1 :=
      if criticalCount >? 0 then
        summary0 ++ Number_toString criticalCount ++ lit " critical issue"
        ++ unlessOne criticalCount "s" ++ lit " require"
        ++ ifOne criticalCount "s" ++ lit " attention. "
      else summary0 in
    let summary2 :=
      if highCount >? 0 then
        summary1 ++ Number_toString highCount ++ lit " high-priority concern"
        ++ unlessOne highCount "s" ++ lit ". "
      else summary1 in
    trim summary2.

(** [combo.categories.every(c => categories.includes(c))] *)
Definition hasAllCategories (combo : DangerousCombination)
  (cats : list RiskCategory) : bool :=
  forallb (fun c => existsb (RiskCategory_eqb c) cats) (categories combo).

(** Calculates a risk score (0-100) for comparison purposes. *)
Definition calculateRiskScore (risks : list RiskItem) : Z :=
  if Z.of_nat (length risks) =? 0 then 0
  else
    (* Base score from individual risks *)
    let score :=
      fold_left (fun score risk => score + severityRank (severity risk) * 8)
                risks 0 in
    (* Check for dangerous combinations *)
    let cats := map category risks in
    let score :=
      fold_left (fun score combo =>
                   if hasAllCategories combo cats
                   then score + severityBoost combo * 15
                   else score)
                DANGEROUS_COMBINATIONS score in
    (* Cap at 100 *)
    Z.min 100 score.

Inductive Comparison : Type := better | average | worse.

Record ComparisonResult : Type := mkComparison {
  comparison : Comparison;
  percentile : Z;
  message : jsstring
}.

(** [a || b] on property values: [undefined] and [0] are falsy. *)
Definition jsOr (a b : jsvalue) : jsvalue :=
  match a with
  | JUndefined => b
  | JNumber 0 => b
  | _ => a
  end.

(** [score - v]: [None] is NaN, the result when [v] is not a number. *)
Definition subtract (score : Z) (v : jsvalue) : option Z :=
  match v with
  | JNumber a => Some (score - a)
  | _ => None
  end.

(** Compares risk score to industry average. [difference] is NaN when
    the value looked up is not a number; both comparisons of NaN are
    false, which leaves the last branch. *)
Definition compareToAverage (score : Z) (industry : jsstring)
  : ComparisonResult :=
  let avg :=
    jsOr (getProperty INDUSTRY_AVERAGES industry)
         (getProperty INDUSTRY_AVERAGES (lit "default")) in
  let typical :=
    mkComparison average 50
      (lit "This agreement has typical risk levels for this type of service") in
  match subtract score avg with
  | Some difference =>
      if difference <? -15 then
        mkComparison better
          (Z.max 5 (50 - Z.abs difference))
          (lit "This agreement is better than "
           ++ Number_toString (100 - Z.max 5 (50 - Z.abs difference))
           ++ lit "% of similar services")
      else if difference >? 15 then
        mkComparison worse
          (Z.min 95 (50 + difference))
          (lit "This agreement is riskier than "
           ++ Number_toString (Z.min 95 (50 + difference))
           ++ lit "% of similar services")
      else typical
  | None => typical
  end.

(** Detects dangerous clause combinations. *)
Definition detectDangerousCombinations (risks : list RiskItem)
  : list jsstring :=
  let cats := map category risks in
  fold_left (fun warnings combo =>
               if hasAllCategories combo cats
               then warnings ++ [warning combo]
               else warnings)
            DANGEROUS_COMBINATIONS [].

(** Checks for red flag phrases that indicate serious issues. *)
Definition detectRedFlags (text : jsstring) : list jsstring :=
  fold_left (fun flags pattern =>
               match String_match text pattern with
               | Some match0 => flags ++ [match0]
               | None => flags
               end)
            RED_FLAGS [].

(** The readings of [Date.now()]: the value its n-th call returns during
    one run of the analyzer (n counted from 0). *)
Definition Clock := nat -> Z.

(** The accumulator of the scan: the findings pushed so far and the
    number of clock readings consumed. *)
Record ScanState : Type := mkScan {
  pushed : list RiskItem;
  reads : nat
}.

(** The result record of the enhanced analysis. *)
Module Analysis.
Record t : Type := mk {
  risks : list RiskItem;
  score : Z;
  comparison : ComparisonResult;
  redFlags : list jsstring;
  combinationWarnings : list jsstring;
  overallSeverity : RiskSeverity;
  summary : jsstring
}.
End Analysis.

Section Engine.

(** [String.prototype.toLowerCase] of the engine running the code. *)
Variable toLowerCase : jsstring -> jsstring.

(** Determines risk severity based on category and context. *)
Definition determineSeverity (c : RiskCategory) (context : jsstring)
  : RiskSeverity :=
  let contextLower := toLowerCase context in
  (* Critical indicators *)
  if RegExp_test CRITICAL_INDICATORS contextLower
     && (RiskCategory_eqb c arbitration
         || RiskCategory_eqb c liability_waiver)
  then critical
  (* High severity indicators *)
  else if RegExp_test HIGH_INDICATORS contextLower then high
  (* Default to category's default severity *)
  else defaultSeverity (RISK_CATEGORIES c).

(** The inner loop: the first keyword, in list order, whose lower-cased
    form occurs in the lower-cased text, with the index it occurs at. *)
Fixpoint firstKeyword (textLower : jsstring) (keywords : list jsstring)
  : option (Z * jsstring) :=
  match keywords with
  | [] => None
  | keyword :: keywords' =>
      let keywordLower := toLowerCase keyword in
      let index := indexOf textLower keywordLower in
      if negb (index =? -1) then Some (index, keyword)
      else firstKeyword textLower keywords'
  end.

(** One turn of the outer loop, over one entry of [RISK_KEYWORDS]. *)
Definition scanCategory (now : Clock) (text textLower : jsstring)
  (st : ScanState) (entry : RiskCategory * list jsstring) : ScanState :=
  let (riskCategory, keywords) := entry in
  match firstKeyword textLower keywords with
  | None => st
  | Some (index, keyword) =>
      (* Extract surrounding context (100 chars before and after) *)
      let start := Z.max 0 (index - 100) in
      let end_ := Z.min (len text) (index + len keyword + 100) in
      let context := substring text start end_ in
      (* Check if we already have a risk for this category *)
      match find (fun r => RiskCategory_eqb (category r) riskCategory)
                 (pushed st) with
      | Some _ => st
      | None =>
          let categoryMeta := RISK_CATEGORIES riskCategory in
          mkScan
            (pushed st ++
             [ mkRiskItem
                 (lit "risk-" ++ categoryKey riskCategory ++ lit "-"
                  ++ Number_toString (now (reads st)))
                 riskCategory
                 (determineSeverity riskCategory context)
                 (label categoryMeta)
                 (generateSummary riskCategory context)
                 (trim context)
                 (mkLocation index (index + len keyword)) ])
            (S (reads st))
      end
  end.

(** The findings in the order the scan pushes them. *)
Definition scanRisks (now : Clock) (text : jsstring) : list RiskItem :=
  let textLower := toLowerCase text in
  pushed (fold_left (scanCategory now text textLower) RISK_KEYWORDS
                    (mkScan [] 0%nat)).

(** Analyzes text for legal risks using keyword matching. *)
Definition analyzeRisks (now : Clock) (text : jsstring) : list RiskItem :=
  Array_sort
    (fun a b => severityRank (severity b) - severityRank (severity a))
    (scanRisks now text).

(** Enhanced analysis that includes scoring and comparisons. *)
Definition analyzeRisksEnhanced (now : Clock) (text : jsstring)
  : Analysis.t :=
  let risks := analyzeRisks now text in
  let score := calculateRiskScore risks in
  let comparison := compareToAverage score (lit "default") in
  let redFlags := detectRedFlags text in
  let combinationWarnings := detectDangerousCombinations risks in
  let overallSeverity := calculateOverallSeverity risks in
  let summary := generateOverallSummary risks in
  (* Boost severity if red flags found *)
  let finalSeverity :=
    if (Z.of_nat (length redFlags) >=? 3)
       && negb (RiskSeverity_eqb overallSeverity critical)
    then critical
    else if (Z.of_nat (length redFlags) >=? 2)
            && (severityRank overallSeverity <? 3)
    then high
    else overallSeverity in
  Analysis.mk risks score comparison redFlags combinationWarnings
              finalSeverity summary.

End Engine.

(** A clock that stands still at [t]. *)
Definition frozenAt (t : Z) : Clock := fun _ => t.


(* ================================================================== *)
(** * Vocabulary of the statements                                     *)
(* ================================================================== *)

(** Specification side of the score: the sum of [rank * 8] over the
    findings. *)
Definition baseScore (risks : list RiskItem) : Z :=
  fold_right (fun r acc => severityRank (severity r) * 8 + acc) 0 risks.

(** Specification side of the boost: the rules of
    [DANGEROUS_COMBINATIONS] whose categories are all among [cats]. *)
Definition triggered (cats : list RiskCategory) : list DangerousCombination :=
  filter (fun combo => hasAllCategories combo cats) DANGEROUS_COMBINATIONS.

(** Specification side of the overall severity: the maximum of the ranks
    of a list of findings (0 when there is none). *)
Definition maxRank (risks : list RiskItem) : Z :=
  fold_right (fun r acc => Z.max (severityRank (severity r)) acc) 0 risks.

(** The four-branch ladder from a rank back to a severity. *)
Definition ladder (rank : Z) : RiskSeverity :=
  if rank >=? 4 then critical
  else if rank >=? 3 then high
  else if rank >=? 2 then medium
  else low.


(** [searchString] occurs in [s] as a literal substring. *)
Definition occursIn (s searchString : jsstring) : Prop :=
  exists pre post, s = pre ++ searchString ++ post.

(** A finding with its [id] blanked: all the other fields. *)
Definition eraseId (r : RiskItem) : RiskItem :=
  mkRiskItem [] (category r) (severity r) (title r) (summary r)
             (originalText r) (location r).

(** The order of the sorted findings: higher rank first and, at equal
    rank, the category that [RISK_KEYWORDS] defines first. *)
Definition precedes (a b : RiskItem) : Prop :=
  severityRank (severity a) > severityRank (severity b)
  \/ (severityRank (severity a) = severityRank (severity b)
      /\ categoryIndex (category a) < categoryIndex (category b)).

(** The one-element list of a match, nothing for [null]. *)
Definition matchText (text : jsstring) (pattern : regex) : list jsstring :=
  match String_match text pattern with
  | Some match0 => [match0]
  | None => []
  end.

(** /binding\s+arbitration/i, the third pattern of [RED_FLAGS]. *)
Definition BINDING_ARBITRATION : regex :=
  sequence [word "binding"; ws; word "arbitration"].

(** No keyword of any category passes the test of the inner loop. *)
Definition noKeywordFound (toLowerCase : jsstring -> jsstring)
  (text : jsstring) : bool :=
  forallb (fun entry : RiskCategory * list jsstring =>
             forallb (fun keyword =>
                        indexOf (toLowerCase text) (toLowerCase keyword)
                        =? -1)
                     (snd entry))
          RISK_KEYWORDS.

(** The context that the scan cuts out of the text around a keyword found
    at [index]: 100 code units on either side. *)
Definition contextWindow (text : jsstring) (index : Z) (keyword : jsstring)
  : jsstring :=
  substring text (Z.max 0 (index - 100))
            (Z.min (len text) (index + len keyword + 100)).

(** The eight categories. *)
Definition allCategories : list RiskCategory :=
  [ data_sharing; auto_renewal; third_party_access; liability_waiver;
    arbitration; data_retention; account_termination; jurisdiction ].

(** The object that the scan pushes for [riskCategory] when [keyword] is
    found at [index] and [reads] clock readings have been consumed. *)
Definition pushedFinding (toLowerCase : jsstring -> jsstring) (now : Clock)
  (reads : nat) (text : jsstring) (riskCategory : RiskCategory) (index : Z)
  (keyword : jsstring) : RiskItem :=
  mkRiskItem
    (lit "risk-" ++ categoryKey riskCategory ++ lit "-"
     ++ Number_toString (now reads))
    riskCategory
    (determineSeverity toLowerCase riskCategory
       (contextWindow text index keyword))
    (label (RISK_CATEGORIES riskCategory))
    (generateSummary riskCategory (contextWindow text index keyword))
    (trim (contextWindow text index keyword))
    (mkLocation index (index + len keyword)).

(** A pattern that the empty string satisfies. *)
Fixpoint nullable (r : regex) : bool :=
  match r with
  | Eps => true
  | Chr _ => false
  | WsPlus => false
  | Cat r1 r2 => nullable r1 && nullable r2
  | Alt r1 r2 => nullable r1 || nullable r2
  | Opt _ => true
  end.

(** The severities from the least to the most severe, as the data model
    lists them: low, medium, high, critical. [atLeast a b]: [a] is no less
    severe than [b]. *)
Definition atLeast (a b : RiskSeverity) : Prop :=
  match b with
  | low => True
  | medium => a <> low
  | high => a = high \/ a = critical
  | critical => a = critical
  end.

(** The code points of WhiteSpace and LineTerminator, one by one: TAB, LF,
    VT, FF, CR, SP, NBSP, U+1680, U+2000 to U+200A, LS, PS, U+202F, U+205F,
    U+3000 and the byte order mark. *)
Definition whiteSpaceCodes : list Z :=
  [ 9; 10; 11; 12; 13; 32; 160; 5760;
    8192; 8193; 8194; 8195; 8196; 8197; 8198; 8199; 8200; 8201; 8202;
    8232; 8233; 8239; 8287; 12288; 65279 ].

(** The code units that a match of a pattern can begin with: pattern
    characters in canonical form, and white space as a class. *)
Record FirstSet : Type := mkFirst {
  firstChars : list Z;
  firstSpace : bool
}.

Definition noFirst : FirstSet := mkFirst [] false.

Definition inFirst (F : FirstSet) (x : Z) : bool :=
  (firstSpace F && isWhiteSpace x)
  || existsb (fun c => c =? canonicalize x) (firstChars F).

Definition unionFirst (F G : FirstSet) : FirstSet :=
  mkFirst (firstChars F ++ firstChars G) (firstSpace F || firstSpace G).

Fixpoint firstOf (r : regex) : FirstSet :=
  match r with
  | Eps => noFirst
  | Chr c => mkFirst [canonicalize c] false
  | WsPlus => mkFirst [] true
  | Cat r1 r2 =>
      if nullable r1 then unionFirst (firstOf r1) (firstOf r2)
      else firstOf r1
  | Alt r1 r2 => unionFirst (firstOf r1) (firstOf r2)
  | Opt r1 => firstOf r1
  end.

(** What can come first when [r] is followed by something that begins
    with [follow]. *)
Definition followOf (r : regex) (follow : FirstSet) : FirstSet :=
  if nullable r then unionFirst (firstOf r) follow else firstOf r.

Definition noSpaceIn (F : FirstSet) : bool :=
  negb (firstSpace F)
  && forallb (fun c => negb (isWhiteSpace c)) (firstChars F).

Definition disjointFirst (F G : FirstSet) : bool :=
  negb (firstSpace F && firstSpace G)
  && forallb (fun c => negb (existsb (Z.eqb c) (firstChars G)))
             (firstChars F)
  && (negb (firstSpace F)
      || forallb (fun c => negb (isWhiteSpace c)) (firstChars G))
  && (negb (firstSpace G)
      || forallb (fun c => negb (isWhiteSpace c)) (firstChars F)).

(** A pattern in which every choice the matcher makes is decided by the
    next code unit: [\s+] is never followed by white space, the two sides
    of an alternative begin differently, and an optional group begins
    differently from what follows it. [follow] is what the rest of the
    pattern can begin with. *)
Fixpoint decidedByNext (r : regex) (follow : FirstSet) : bool :=
  match r with
  | Eps => true
  | Chr _ => true
  | WsPlus => noSpaceIn follow
  | Cat r1 r2 =>
      decidedByNext r1 (followOf r2 follow) && decidedByNext r2 follow
  | Alt r1 r2 =>
      decidedByNext r1 follow && decidedByNext r2 follow
      && negb (nullable r1) && negb (nullable r2)
      && disjointFirst (firstOf r1) (firstOf r2)
  | Opt r1 =>
      decidedByNext r1 follow && negb (nullable r1)
      && disjointFirst (firstOf r1) follow
  end.

(** Continuations of the matcher: one that returns a piece of its input,
    and one that, unless it returns its input whole, wants the input to
    begin with a code unit of [F]. *)
Definition resultWithin (k : jsstring -> option jsstring) : Prop :=
  forall s rest, k s = Some rest -> (length rest <= length s)%nat.

Definition beginsWith (k : jsstring -> option jsstring) (F : FirstSet)
  : Prop :=
  forall s rest,
    k s = Some rest ->
    rest = s \/ exists x t, s = x :: t /\ inFirst F x = true.

(** The matcher takes the longest way: whatever [r] followed by [k] can
    match on [s], what [backtrack] leaves over is not longer. *)
Definition takesLongest (r : regex) (k : jsstring -> option jsstring)
  : Prop :=
  forall s rest m s1 rest',
    backtrack r s k = Some rest ->
    s = m ++ s1 -> matches r m -> k s1 = Some rest' ->
    (length rest <= length rest')%nat.

(* ================================================================== *)
(** * The click interceptor (src/content/interceptor.ts)               *)
(* ================================================================== *)

(** What the handler of an intercepted click does with the click. *)
Inductive ClickOutcome : Type :=
| NotIntercepted                        (* disabled: returns at once *)
| OriginalAction                        (* triggerOriginalAction(element) *)
| WarningModal (scanResult : Analysis.t). (* showWarningModal(element, ...) *)

(** Handles click interception. [isEnabled] is [state.isEnabled] and
    [text] is what [extractAgreementText()] returns for the page. *)
Definition handleInterceptedClick (toLowerCase : jsstring -> jsstring)
  (now : Clock) (isEnabled : bool) (text : jsstring) : ClickOutcome :=
  if negb isEnabled then NotIntercepted
  else
    (* Perform quick scan *)
    let scanResult := analyzeRisksEnhanced toLowerCase now text in
    (* Only show modal if risks found *)
    if Z.of_nat (length (Analysis.risks scanResult)) =? 0
    then OriginalAction
    else WarningModal scanResult.

(* ================================================================== *)
(** * Text extraction (src/content/detector.ts)                        *)
(* ================================================================== *)

(** [s.replace(/\s+/g, ' ')]: every maximal run of white space becomes
    one space. [inRun] tells that the code unit before was white space. *)
Fixpoint collapseWhitespace (inRun : bool) (s : jsstring) : jsstring :=
  match s with
  | [] => []
  | c :: s' =>
      if isWhiteSpace c then
        if inRun then collapseWhitespace true s'
        else 32 :: collapseWhitespace true s'
      else c :: collapseWhitespace false s'
  end.

(** [s.replace(/\n{3,}/g, '\n\n')]: every maximal run of three or more
    line feeds becomes two. [run] counts the line feeds just read. *)
Fixpoint limitNewlines (run : nat) (s : jsstring) : jsstring :=
  match s with
  | [] => repeat 10 (Nat.min run 2)
  | c :: s' =>
      if c =? 10 then limitNewlines (S run) s'
      else repeat 10 (Nat.min run 2) ++ c :: limitNewlines 0 s'
  end.

(** Cleans extracted text. *)
Definition cleanText (text : jsstring) : jsstring :=
  substring
    (trim
       (limitNewlines 0            (* Limit consecutive newlines *)
          (collapseWhitespace false text)))   (* Normalize whitespace *)
    0 50000.                       (* Limit text length *)

(** White space occurs only as single spaces ([afterSpace]: the code unit
    before was one). *)
Fixpoint singleSpaced (afterSpace : bool) (s : jsstring) : bool :=
  match s with
  | [] => true
  | c :: s' =>
      if isWhiteSpace c
      then (c =? 32) && negb afterSpace && singleSpaced true s'
      else singleSpaced false s'
  end.

(* ================================================================== *)
(** * The prompt of the remote analysis (src/services/llm-analyzer.ts) *)
(* ================================================================== *)

(** '\n\n[... middle section truncated ...]\n\n' *)
Definition truncationNotice : jsstring :=
  [10; 10] ++ lit "[... middle section truncated ...]" ++ [10; 10].

(** The text as the prompt quotes it: over 12000 code units, only the
    first and the last 6000 are kept. *)
Definition truncatedText (text : jsstring) : jsstring :=
  let maxLength := 12000 in
  if len text >? maxLength then
    let halfLength := maxLength / 2 in
    substring text 0 halfLength
    ++ truncationNotice
    ++ substring text (len text - halfLength) (len text)
  else text.

(** Builds the analysis prompt. *)
Definition buildAnalysisPrompt (text : jsstring) : jsstring :=
  lit "Analyze the following legal agreement and identify potential risks for consumers:"
  ++ [10; 10] ++ lit "---" ++ [10]
  ++ truncatedText text
  ++ [10] ++ lit "---" ++ [10; 10]
  ++ lit "Identify all significant risks and provide your analysis in the required JSON format.".

(** The property value a severity is written with. *)
Definition severityKey (s : RiskSeverity) : jsstring :=
  match s with
  | low => lit "low"
  | medium => lit "medium"
  | high => lit "high"
  | critical => lit "critical"
  end.

Definition validCategories : list RiskCategory :=
  [ data_sharing; auto_renewal; third_party_access; liability_waiver;
    arbitration; data_retention; account_termination; jurisdiction ].

Definition validSeverities : list RiskSeverity :=
  [ low; medium; high; critical ].

(** Validates risk category: the string itself when [validCategories]
    includes it, ['liability_waiver'] otherwise. *)
Definition validateCategory (category : jsstring) : RiskCategory :=
  match find (fun c => jsstring_eqb (categoryKey c) category)
             validCategories with
  | Some c => c
  | None => liability_waiver
  end.

(** Validates severity level: ['medium'] for anything else. *)
Definition validateSeverity (sev : jsstring) : RiskSeverity :=
  match find (fun s => jsstring_eqb (severityKey s) sev) validSeverities with
  | Some s => s
  | None => medium
  end.

(* ================================================================== *)
(** * Usage accounting of the content script (src/content/index.ts)    *)
(* ================================================================== *)

Inductive UserTier : Type := free | paid.

Definition UserTier_eqb (a b : UserTier) : bool :=
  match a, b with
  | free, free | paid, paid => true
  | _, _ => false
  end.

Record UsageData : Type := mkUsage {
  scansThisMonth : Z;
  monthStart : Z;                 (* timestamp *)
  tier : UserTier;
  licenseKey : option jsstring
}.

Definition FREE_SCANS_PER_MONTH : Z := 5.

(** What a call of [scanPage] comes to, as far as the usage counter goes:
    the value its promise is fulfilled with (one of the three error
    results, or a scan shown with the number of scans left), or a promise
    that is rejected because an exception leaves the function. *)
Inductive ScanOutcome : Type :=
| LIMIT_REACHED
| NO_AGREEMENT
| SCAN_FAILED
| Scanned (newScansRemaining : Z)
| Rejected.

(** What one call of [scanPage] takes from outside: the clock readings of
    its three [getUsage] calls, the verdict of the detector, and which of
    its calls into the page, the overlay, the analytics and the runtime
    throw. The storage area itself always answers. *)
Record ScanRequest : Type := mkRequest {
  atCheck : Z;
  atIncrement : Z;
  atDisplay : Z;
  isAgreement : bool;
  noticeThrows : bool;     (* overlay.showLimitReached() *)
  startThrows : bool;      (* Analytics.scanStarted(), overlay.showScanning() *)
  analysisThrows : bool;   (* in the try block, before incrementUsage() *)
  displayThrows : bool;    (* in the try block, after the second getUsage() *)
  handlerThrows : bool     (* in the catch block *)
}.

(** The catch block of [scanPage]: it logs, reports and removes the
    overlay, and returns the error result unless one of these throws. *)
Definition catchBlock (req : ScanRequest) : ScanOutcome :=
  if handlerThrows req then Rejected else SCAN_FAILED.

Section Usage.

(** [new Date(t).getMonth()] and [new Date(t).getFullYear()] in the time
    zone of the browser. *)
Variables getMonth getFullYear : Z -> Z.

(** [DEFAULT_USAGE]: its [monthStart] is the reading of the clock when the
    module is loaded. *)
Variable loadTime : Z.

Definition DEFAULT_USAGE : UsageData := mkUsage 0 loadTime free None.

(** Gets current usage data from storage. The storage area holds the
    record under [STORAGE_KEYS.USAGE] or nothing; the result is the usage
    and the storage afterwards. *)
Definition getUsage (store : option UsageData) (now : Z)
  : UsageData * option UsageData :=
  let usage := match store with Some u => u | None => DEFAULT_USAGE end in
  (* Check if we need to reset for new month *)
  if negb (getMonth (monthStart usage) =? getMonth now)
     || negb (getFullYear (monthStart usage) =? getFullYear now)
  then
    let resetUsage :=
      mkUsage 0 now (tier usage) (licenseKey usage) in
    (resetUsage, Some resetUsage)
  else (usage, store).

(** Increments the scan counter. *)
Definition incrementUsage (store : option UsageData) (now : Z)
  : option UsageData :=
  let (usage, _) := getUsage store now in
  Some (mkUsage (scansThisMonth usage + 1) (monthStart usage) (tier usage)
                (licenseKey usage)).

(** Performs a full page scan: what it does to the usage counter and
    what it comes to. The limit check and the start of the scan stand in
    front of the try block, so an exception there leaves the function;
    inside the block an exception is caught, before the counter is
    incremented or after it. *)
Definition scanPage (store : option UsageData) (req : ScanRequest)
  : ScanOutcome * option UsageData :=
  (* Check usage limits *)
  let (usage, store1) := getUsage store (atCheck req) in
  let scansRemaining := FREE_SCANS_PER_MONTH - scansThisMonth usage in
  if UserTier_eqb (tier usage) free && (scansRemaining <=? 0)
  then
    if noticeThrows req then (Rejected, store1)
    else (LIMIT_REACHED, store1)
  else if startThrows req then (Rejected, store1)
  else
    (* try *)
    if analysisThrows req then (catchBlock req, store1)
    else if negb (isAgreement req) then (NO_AGREEMENT, store1)
    else
      (* Increment usage counter *)
      let store2 := incrementUsage store1 (atIncrement req) in
      let (newUsage, store3) := getUsage store2 (atDisplay req) in
      if displayThrows req then (catchBlock req, store3)
      else (Scanned (FREE_SCANS_PER_MONTH - scansThisMonth newUsage),
            store3).

(** A series of scans, one after the other. *)
Fixpoint scanPages (store : option UsageData) (reqs : list ScanRequest)
  : list ScanOutcome * option UsageData :=
  match reqs with
  | [] => ([], store)
  | req :: reqs' =>
      let (outcome, store') := scanPage store req in
      let (outcomes, final) := scanPages store' reqs' in
      (outcome :: outcomes, final)
  end.

(** The usage that the storage stands for. *)
Definition currentUsage (store : option UsageData) : UsageData :=
  match store with Some u => u | None => DEFAULT_USAGE end.

(** Two instants of the same calendar month. *)
Definition sameMonth (a b : Z) : bool :=
  (getMonth a =? getMonth b) && (getFullYear a =? getFullYear b).

Definition isScanned (o : ScanOutcome) : bool :=
  match o with Scanned _ => true | _ => false end.

(** A call that broke off: caught, or not. *)
Definition isFailure (o : ScanOutcome) : bool :=
  match o with SCAN_FAILED | Rejected => true | _ => false end.

End Usage.
(* ================================================================== *)
(** * Properties of the scoring functions                              *)
(* ================================================================== *)

Lemma severityRank_bounds (s : RiskSeverity) : 1 <= severityRank s <= 4.
Proof. destruct s; simpl; lia. Qed.

Lemma RiskCategory_eqb_eq (a b : RiskCategory) :
  RiskCategory_eqb a b = true <-> a = b.
Proof. destruct a, b; simpl; split; intro H; congruence. Qed.

Lemma RiskSeverity_eqb_eq (a b : RiskSeverity) :
  RiskSeverity_eqb a b = true <-> a = b.
Proof. destruct a, b; simpl; split; intro H; congruence. Qed.

Lemma includes_In (cats : list RiskCategory) (c : RiskCategory) :
  existsb (RiskCategory_eqb c) cats = true <-> In c cats.
Proof.
  rewrite existsb_exists. split.
  - intros [x [Hin Heq]]. apply RiskCategory_eqb_eq in Heq. now subst.
  - intro Hin. exists c. split; [assumption | now apply RiskCategory_eqb_eq].
Qed.

(** A combination fires exactly when the categories found include all of
    its own. *)
Lemma hasAllCategories_incl (combo : DangerousCombination)
  (cats : list RiskCategory) :
  hasAllCategories combo cats = true <-> incl (categories combo) cats.
Proof.
  unfold hasAllCategories, incl. rewrite forallb_forall. split.
  - intros H c Hc. apply includes_In. now apply H.
  - intros H c Hc. apply includes_In. now apply H.
Qed.

Lemma fold_left_base (risks : list RiskItem) (acc : Z) :
  fold_left (fun score risk => score + severityRank (severity risk) * 8)
            risks acc = acc + baseScore risks.
Proof.
  unfold baseScore.
  revert acc. induction risks as [|r risks IH]; intro acc; simpl.
  - lia.
  - rewrite IH. lia.
Qed.

Lemma fold_left_boost (cats : list RiskCategory)
  (combos : list DangerousCombination) (acc : Z) :
  Forall (fun combo => severityBoost combo = 1) combos ->
  fold_left (fun score combo =>
               if hasAllCategories combo cats
               then score + severityBoost combo * 15 else score)
            combos acc
  = acc + 15 * Z.of_nat (length (filter (fun combo => hasAllCategories combo cats) combos)).
Proof.
  intro Hall. revert acc.
  induction Hall as [|combo combos Hb _ IH]; intro acc;
    cbn [fold_left filter].
  - cbn [length]. lia.
  - rewrite IH. destruct (hasAllCategories combo cats).
    + cbn [length]. rewrite Nat2Z.inj_succ, Hb. lia.
    + lia.
Qed.

Lemma baseScore_nonneg (risks : list RiskItem) : 0 <= baseScore risks.
Proof.
  unfold baseScore.
  induction risks as [|r risks IH]; simpl; [lia|].
  pose proof (severityRank_bounds (severity r)). lia.
Qed.

Lemma DANGEROUS_COMBINATIONS_boost :
  Forall (fun combo => severityBoost combo = 1) DANGEROUS_COMBINATIONS.
Proof. repeat constructor. Qed.

(** C3. [calculateRiskScore] is 0 on the empty list; on any other list it
    is the sum over the findings of [rank * 8], plus 15 for each of the
    three combination rules whose categories are all among the findings'
    categories, saturated at 100; it always lies in [0, 100]. *)
Theorem calculateRiskScore_spec (risks : list RiskItem) :
  calculateRiskScore [] = 0
  /\ map categories DANGEROUS_COMBINATIONS
     = [ [arbitration; liability_waiver];
         [data_sharing; third_party_access; data_retention];
         [auto_renewal; account_termination] ]
  /\ (forall combo, In combo (triggered (map category risks)) <->
        In combo DANGEROUS_COMBINATIONS
        /\ incl (categories combo) (map category risks))
  /\ (risks <> [] ->
      calculateRiskScore risks =
        Z.min 100 (baseScore risks
                   + 15 * Z.of_nat (length (triggered (map category risks)))))
  /\ 0 <= calculateRiskScore risks <= 100.
Proof.
  assert (Hval : risks <> [] ->
      calculateRiskScore risks =
        Z.min 100 (baseScore risks
                   + 15 * Z.of_nat (length (triggered (map category risks))))).
  { intro Hne. unfold calculateRiskScore.
    destruct risks as [|r risks]; [congruence|].
    replace (Z.of_nat (length (r :: risks)) =? 0) with false
      by (symmetry; apply Z.eqb_neq; simpl length; lia).
    rewrite fold_left_base.
    rewrite (fold_left_boost _ _ _ DANGEROUS_COMBINATIONS_boost).
    reflexivity. }
  split; [reflexivity|]. split; [reflexivity|]. split.
  { intro combo. unfold triggered. rewrite filter_In.
    now rewrite hasAllCategories_incl. }
  split; [exact Hval|].
  destruct risks as [|r risks].
  - replace (calculateRiskScore []) with 0 by reflexivity. lia.
  - rewrite Hval by congruence.
    pose proof (baseScore_nonneg (r :: risks)). lia.
Qed.

Lemma fold_left_max (ranks : list Z) (acc : Z) :
  fold_left Z.max ranks acc = Z.max acc (fold_right Z.max acc ranks).
Proof.
  revert acc. induction ranks as [|x ranks IH]; intro acc; simpl.
  - lia.
  - rewrite IH. clear IH.
    assert (H : forall a b, a <= b ->
              Z.max b (fold_right Z.max b ranks)
              = Z.max b (fold_right Z.max a ranks)).
    { induction ranks as [|y ranks IH]; intros a b Hab; simpl; [lia|].
      specialize (IH a b Hab). lia. }
    pose proof (H acc (Z.max acc x) ltac:(lia)). lia.
Qed.

Lemma maxRank_fold (r : RiskItem) (risks : list RiskItem) :
  fold_left Z.max (map (fun x => severityRank (severity x)) risks)
            (severityRank (severity r))
  = maxRank (r :: risks).
Proof.
  rewrite fold_left_max. unfold maxRank. simpl.
  pose proof (severityRank_bounds (severity r)) as Hr.
  induction risks as [|y risks IH]; simpl; [lia|].
  pose proof (severityRank_bounds (severity y)). lia.
Qed.

Lemma maxRank_upper (risks : list RiskItem) (r : RiskItem) :
  In r risks -> severityRank (severity r) <= maxRank risks.
Proof.
  unfold maxRank.
  induction risks as [|y risks IH]; simpl; [tauto|].
  intros [-> | Hin]; [lia|]. specialize (IH Hin). lia.
Qed.

Lemma maxRank_attained (risks : list RiskItem) :
  risks <> [] ->
  exists r, In r risks /\ severityRank (severity r) = maxRank risks.
Proof.
  unfold maxRank.
  induction risks as [|y risks IH]; [congruence|]. intros _.
  destruct risks as [|z risks].
  - exists y. simpl. pose proof (severityRank_bounds (severity y)).
    split; [now left | lia].
  - destruct (IH ltac:(congruence)) as [r [Hin Hr]].
    remember (z :: risks) as tl. simpl.
    destruct (Z.max_spec (severityRank (severity y))
                (fold_right (fun r0 acc => Z.max (severityRank (severity r0)) acc) 0 tl))
      as [[_ Hm] | [_ Hm]]; rewrite Hm.
    + exists r. split; [now right | assumption].
    + exists y. split; [now left | reflexivity].
Qed.

Lemma ladder_rank (s : RiskSeverity) : ladder (severityRank s) = s.
Proof. destruct s; reflexivity. Qed.

(** C7. [calculateOverallSeverity] is [low] on the empty list; on a
    non-empty list it is the ladder applied to the maximum rank among the
    findings, and that is the greatest severity present. *)
Theorem calculateOverallSeverity_spec (risks : list RiskItem) :
  calculateOverallSeverity [] = low
  /\ (risks <> [] ->
      calculateOverallSeverity risks = ladder (maxRank risks)
      /\ (exists r, In r risks /\ severity r = calculateOverallSeverity risks)
      /\ (forall r, In r risks ->
            severityRank (severity r)
            <= severityRank (calculateOverallSeverity risks))).
Proof.
  split; [reflexivity|]. intro Hne.
  assert (Hl : calculateOverallSeverity risks = ladder (maxRank risks)).
  { destruct risks as [|r risks]; [congruence|].
    unfold calculateOverallSeverity. cbn [map].
    rewrite maxRank_fold. reflexivity. }
  destruct (maxRank_attained risks Hne) as [r [Hin Hr]].
  assert (Hs : calculateOverallSeverity risks = severity r).
  { rewrite Hl, <- Hr. apply ladder_rank. }
  split; [exact Hl|]. split.
  - exists r. split; [assumption | now symmetry].
  - intros x Hx. rewrite Hs, Hr. now apply maxRank_upper.
Qed.

Lemma calculateOverallSeverity_witness :
  calculateOverallSeverity
    [ mkRiskItem (lit "risk-jurisdiction-0") jurisdiction low [] [] []
        (mkLocation 0 9);
      mkRiskItem (lit "risk-data_sharing-0") data_sharing high [] [] []
        (mkLocation 20 34) ]
  = high.
Proof.
  destruct (calculateOverallSeverity_spec
    [ mkRiskItem (lit "risk-jurisdiction-0") jurisdiction low [] [] []
        (mkLocation 0 9);
      mkRiskItem (lit "risk-data_sharing-0") data_sharing high [] [] []
        (mkLocation 20 34) ]) as [_ H].
  destruct (H ltac:(discriminate)) as [Hl _].
  rewrite Hl. reflexivity.
Defined.

Lemma calculateRiskScore_witness :
  calculateRiskScore
    [ mkRiskItem (lit "risk-arbitration-0") arbitration critical [] [] []
        (mkLocation 0 19);
      mkRiskItem (lit "risk-liability_waiver-0") liability_waiver high [] []
        [] (mkLocation 30 35) ]
  = 71.
Proof.
  destruct (calculateRiskScore_spec
    [ mkRiskItem (lit "risk-arbitration-0") arbitration critical [] [] []
        (mkLocation 0 19);
      mkRiskItem (lit "risk-liability_waiver-0") liability_waiver high [] []
        [] (mkLocation 30 35) ]) as [_ [_ [_ [H _]]]].
  rewrite (H ltac:(discriminate)). reflexivity.
Defined.

(* ================================================================== *)
(** * The baseline comparator                                          *)
(* ================================================================== *)

Lemma ownProperty_values (key : jsstring) (v : Z) :
  ownProperty INDUSTRY_AVERAGES key = Some v ->
  In v [72; 58; 54; 68; 62; 55].
Proof.
  unfold INDUSTRY_AVERAGES. cbn [ownProperty].
  repeat (destruct (jsstring_eqb _ key);
          [intro H; injection H as <-; simpl; tauto|]).
  discriminate.
Qed.

(** Away from the names inherited from [Object.prototype], the lookup is
    the table of the six averages with 55 for every other segment, and the
    three branches are the ones documented. *)
Lemma compareToAverage_table (score : Z) (industry : jsstring) :
  existsb (jsstring_eqb industry) Object_prototype_keys = false ->
  let avg := match ownProperty INDUSTRY_AVERAGES industry with
             | Some a => a
             | None => 55
             end in
  let difference := score - avg in
  let result := compareToAverage score industry in
  (difference < -15 ->
     comparison result = better
     /\ percentile result = Z.max 5 (50 - Z.abs difference))
  /\ (difference > 15 ->
     comparison result = worse
     /\ percentile result = Z.min 95 (50 + difference))
  /\ (-15 <= difference <= 15 ->
     comparison result = average /\ percentile result = 50).
Proof.
  intro Hkey. cbv zeta.
  set (avg := match ownProperty INDUSTRY_AVERAGES industry with
              | Some a => a
              | None => 55
              end).
  assert (Havg : jsOr (getProperty INDUSTRY_AVERAGES industry)
                      (getProperty INDUSTRY_AVERAGES (lit "default"))
                 = JNumber avg).
  { unfold getProperty at 1. subst avg. rewrite Hkey.
    destruct (ownProperty INDUSTRY_AVERAGES industry) as [v|] eqn:Hown.
    - pose proof (ownProperty_values _ _ Hown) as Hv. simpl in Hv.
      destruct v; simpl; try reflexivity. lia.
    - reflexivity. }
  unfold compareToAverage. rewrite Havg. cbn [subtract].
  destruct (Z.ltb_spec (score - avg) (-15));
    [|destruct (Z.gtb_spec (score - avg) 15)]; cbn [comparison percentile];
    repeat split; intros; try reflexivity; lia.
Qed.

(** C5. An industry string that names a property inherited from
    [Object.prototype] is an unknown segment (the table has no such key),
    yet the lookup does not fall back to 55: at score 0 the result is the
    average branch with percentile 50, where the default average gives the
    difference -55 and the better branch with percentile 5. *)
Theorem compareToAverage_inherited_key :
  ownProperty INDUSTRY_AVERAGES (lit "toString") = None
  /\ comparison (compareToAverage 0 (lit "toString")) = average
  /\ percentile (compareToAverage 0 (lit "toString")) = 50
  /\ 0 - 55 < -15
  /\ comparison (compareToAverage 0 (lit "unknown")) = better
  /\ percentile (compareToAverage 0 (lit "unknown")) = 5.
Proof. vm_compute. repeat split; congruence. Qed.

(** C10. For a score in [0, 100] and any industry string the percentile
    lies in [5, 95]: it is 50 in the average branch, in [5, 34] in the
    better branch and in [66, 95] in the worse branch. *)
Theorem compareToAverage_percentile_range (score : Z) (industry : jsstring) :
  0 <= score <= 100 ->
  let result := compareToAverage score industry in
  5 <= percentile result <= 95
  /\ (comparison result = average -> percentile result = 50)
  /\ (comparison result = better -> 5 <= percentile result <= 34)
  /\ (comparison result = worse -> 66 <= percentile result <= 95).
Proof.
  intros Hscore. cbv zeta. unfold compareToAverage.
  destruct (subtract score _) as [difference|].
  - destruct (Z.ltb_spec difference (-15));
      [|destruct (Z.gtb_spec difference 15)]; cbn [comparison percentile];
      repeat split; intros; try discriminate; lia.
  - cbn [comparison percentile]. repeat split; intros; try discriminate; lia.
Qed.

Lemma compareToAverage_percentile_range_witness :
  5 <= percentile (compareToAverage 90 (lit "saas")) <= 95.
Proof.
  assert (H : 0 <= 90 <= 100) by lia.
  exact (proj1 (compareToAverage_percentile_range 90 (lit "saas") H)).
Defined.

(* ================================================================== *)
(** * String search                                                    *)
(* ================================================================== *)

Lemma startsWith_spec (p s : jsstring) :
  startsWith p s = true <-> exists post, s = p ++ post.
Proof.
  revert s. induction p as [|x p IH]; intro s; simpl.
  - split; [intros _; now exists s | reflexivity].
  - destruct s as [|y s].
    + split; [discriminate | intros [post H]; discriminate].
    + rewrite andb_true_iff, Z.eqb_eq, IH. split.
      * intros [-> [post ->]]. now exists post.
      * intros [post H]. injection H as -> ->. split; [reflexivity|].
        now exists post.
Qed.

Lemma occursIn_cons (x : Z) (s p : jsstring) :
  occursIn (x :: s) p <-> startsWith p (x :: s) = true \/ occursIn s p.
Proof.
  rewrite startsWith_spec. unfold occursIn. split.
  - intros [pre [post H]]. destruct pre as [|y pre].
    + left. now exists post.
    + right. injection H as -> ->. now exists pre, post.
  - intros [[post H] | [pre [post H]]].
    + now exists [], post.
    + exists (x :: pre), post. now rewrite H.
Qed.

Lemma occursIn_nil (p : jsstring) :
  occursIn [] p <-> startsWith p [] = true.
Proof.
  rewrite startsWith_spec. unfold occursIn. split.
  - intros [pre [post H]]. destruct pre; [|discriminate]. now exists post.
  - intros [post H]. now exists [], post.
Qed.

Lemma indexOfFrom_spec (s p : jsstring) (k : Z) :
  0 <= k ->
  (indexOfFrom s p k = -1 <-> ~ occursIn s p)
  /\ (indexOfFrom s p k = -1 \/ k <= indexOfFrom s p k).
Proof.
  revert k. induction s as [|x s IH]; intros k Hk.
  - simpl. rewrite occursIn_nil.
    destruct (startsWith p []); split; try (right; lia); try (now left).
    + split; [lia | intro H; now contradiction H].
    + split; [discriminate | reflexivity].
  - cbn [indexOfFrom]. rewrite occursIn_cons.
    destruct (startsWith p (x :: s)) eqn:Hp.
    + split; [|right; lia].
      split; [lia | intro H; contradiction H; now left].
    + destruct (IH (k + 1) ltac:(lia)) as [Hn Hge]. split.
      * rewrite Hn. split.
        -- intros H [Hd | Ho]; [discriminate | contradiction].
        -- intros H Ho. apply H. now right.
      * destruct Hge as [-> | Hge]; [now left | right; lia].
Qed.

Lemma indexOfFrom_found (p s : jsstring) (k : Z) :
  indexOfFrom s p k <> -1 -> occursIn s p.
Proof.
  revert k. induction s as [|x s IH]; intros k H.
  - apply occursIn_nil. simpl in H.
    destruct (startsWith p []); [reflexivity | contradiction].
  - apply occursIn_cons. cbn [indexOfFrom] in H.
    destruct (startsWith p (x :: s)); [now left | right].
    now apply (IH (k + 1)).
Qed.

(** [indexOf] finds a string exactly when it occurs. *)
Lemma indexOf_found (s p : jsstring) :
  indexOf s p <> -1 <-> occursIn s p.
Proof.
  unfold indexOf. split.
  - apply indexOfFrom_found.
  - intros Ho E.
    destruct (indexOfFrom_spec s p 0 ltac:(lia)) as [[H1 _] _].
    now apply H1 in E.
Qed.

(* ================================================================== *)
(** * The stable sort                                                  *)
(* ================================================================== *)

Section Sorting.

Context {A : Type} (compareFn : A -> A -> Z).

Lemma insertSorted_perm (x : A) (l : list A) :
  Permutation (insertSorted compareFn x l) (x :: l).
Proof.
  induction l as [|y l IH]; simpl; [reflexivity|].
  destruct (compareFn x y >? 0); [|reflexivity].
  rewrite IH. apply perm_swap.
Qed.

Lemma Array_sort_perm (l : list A) : Permutation (Array_sort compareFn l) l.
Proof.
  induction l as [|x l IH]; simpl; [reflexivity|].
  rewrite insertSorted_perm. now constructor.
Qed.

(** Sorting commutes with a map that the comparator does not see. *)
Lemma Array_sort_map (f : A -> A) (l : list A) :
  (forall a b, compareFn (f a) (f b) = compareFn a b) ->
  Array_sort compareFn (map f l) = map f (Array_sort compareFn l).
Proof.
  intro Hf. induction l as [|x l IH]; simpl; [reflexivity|].
  rewrite IH. generalize (Array_sort compareFn l). clear IH l.
  induction l as [|y l IH]; simpl; [reflexivity|].
  rewrite Hf. destruct (compareFn x y >? 0); simpl; [|reflexivity].
  now rewrite IH.
Qed.

End Sorting.

Lemma StronglySorted_snoc {A : Type} (R : A -> A -> Prop) (l : list A)
  (a : A) :
  StronglySorted R l -> Forall (fun x => R x a) l ->
  StronglySorted R (l ++ [a]).
Proof.
  induction 1 as [|x l Hs IH Hx]; intro Hall; simpl.
  - repeat constructor.
  - inversion Hall; subst. constructor; [now apply IH|].
    apply Forall_app. split; [assumption | now constructor].
Qed.

Lemma StronglySorted_split {A : Type} (R : A -> A -> Prop)
  (l1 l2 l3 : list A) (a b : A) :
  StronglySorted R (l1 ++ a :: l2 ++ b :: l3) -> R a b.
Proof.
  induction l1 as [|x l1 IH]; simpl; intro H.
  - apply StronglySorted_inv in H. destruct H as [_ H].
    rewrite Forall_forall in H. apply H.
    apply in_or_app. right. now left.
  - apply StronglySorted_inv in H. now apply IH.
Qed.

Lemma StronglySorted_impl {A : Type} (R R' : A -> A -> Prop)
  (l : list A) :
  (forall a b, R a b -> R' a b) ->
  StronglySorted R l -> StronglySorted R' l.
Proof.
  intro HR. induction 1 as [|x l Hs IH Hx]; constructor; [assumption|].
  eapply Forall_impl; [|exact Hx]. intros b. apply HR.
Qed.

(** The comparator of [analyzeRisks]. *)
Lemma precedes_rank (a b : RiskItem) :
  precedes a b -> severityRank (severity b) <= severityRank (severity a).
Proof. unfold precedes. lia. Qed.

Lemma insertSorted_precedes (x : RiskItem) (l : list RiskItem) :
  StronglySorted precedes l ->
  Forall (fun y => categoryIndex (category x) < categoryIndex (category y)) l ->
  StronglySorted precedes
    (insertSorted
       (fun a b => severityRank (severity b) - severityRank (severity a))
       x l).
Proof.
  induction 1 as [|y l Hs IH Hy]; intro Hidx; simpl.
  - repeat constructor.
  - inversion Hidx as [|? ? Hxy Hxl]; subst.
    destruct (Z.gtb_spec (severityRank (severity y) - severityRank (severity x)) 0)
      as [Hgt | Hle].
    + constructor; [now apply IH|].
      eapply Permutation_Forall.
      * symmetry. apply insertSorted_perm.
      * constructor; [left; lia | assumption].
    + constructor; [now constructor|].
      constructor.
      * unfold precedes. lia.
      * rewrite Forall_forall in *. intros z Hz.
        pose proof (precedes_rank _ _ (Hy z Hz)).
        specialize (Hxl z Hz). unfold precedes. lia.
Qed.

Lemma Array_sort_precedes (l : list RiskItem) :
  StronglySorted
    (fun a b => categoryIndex (category a) < categoryIndex (category b)) l ->
  StronglySorted precedes
    (Array_sort
       (fun a b => severityRank (severity b) - severityRank (severity a)) l).
Proof.
  induction 1 as [|x l Hs IH Hx]; simpl; [constructor|].
  apply insertSorted_precedes; [assumption|].
  eapply Permutation_Forall; [|exact Hx].
  symmetry. apply Array_sort_perm.
Qed.

(* ================================================================== *)
(** * The keyword matcher                                              *)
(* ================================================================== *)

Lemma RISK_KEYWORDS_order :
  StronglySorted
    (fun e1 e2 : RiskCategory * list jsstring =>
       categoryIndex (fst e1) < categoryIndex (fst e2))
    RISK_KEYWORDS.
Proof.
  unfold RISK_KEYWORDS.
  repeat (constructor; [|repeat (constructor; [reflexivity|]); constructor]).
  constructor.
Qed.

Lemma find_category (c : RiskCategory) (l : list RiskItem) :
  find (fun r => RiskCategory_eqb (category r) c) l = None
  <-> ~ In c (map category l).
Proof.
  induction l as [|r l IH]; simpl; [tauto|].
  destruct (RiskCategory_eqb (category r) c) eqn:E.
  - apply RiskCategory_eqb_eq in E. split; [discriminate | tauto].
  - assert (category r <> c).
    { intro H. apply RiskCategory_eqb_eq in H. congruence. }
    rewrite IH. tauto.
Qed.

Section Scan.

Variable toLowerCase : jsstring -> jsstring.

Lemma firstKeyword_some (textLower : jsstring) (keywords : list jsstring)
  (index : Z) (keyword : jsstring) :
  firstKeyword toLowerCase textLower keywords = Some (index, keyword) ->
  In keyword keywords
  /\ index = indexOf textLower (toLowerCase keyword)
  /\ occursIn textLower (toLowerCase keyword).
Proof.
  induction keywords as [|kw keywords IH]; simpl; [discriminate|].
  destruct (indexOf textLower (toLowerCase kw) =? -1) eqn:E; simpl.
  - intro H. destruct (IH H) as [H1 H2]. tauto.
  - intro H. injection H as <- <-. apply Z.eqb_neq in E.
    split; [now left|]. split; [reflexivity | now apply indexOf_found].
Qed.

Lemma firstKeyword_none (textLower : jsstring) (keywords : list jsstring) :
  firstKeyword toLowerCase textLower keywords = None
  <-> forall keyword, In keyword keywords ->
        ~ occursIn textLower (toLowerCase keyword).
Proof.
  induction keywords as [|kw keywords IH]; simpl.
  - split; [intros _ k [] | reflexivity].
  - destruct (indexOf textLower (toLowerCase kw) =? -1) eqn:E; simpl.
    + apply Z.eqb_eq in E. rewrite IH. split.
      * intros H k [<- | Hk]; [|now apply H].
        intro Ho. apply indexOf_found in Ho. contradiction.
      * intros H k Hk. apply H. now right.
    + apply Z.eqb_neq in E. split; [discriminate|].
      intro H. exfalso. apply (H kw); [now left|].
      now apply indexOf_found.
Qed.

(** One turn of the loop leaves the findings alone or pushes one finding
    of the entry's category, not found before, for a keyword that occurs. *)
Lemma scanCategory_cases (now : Clock) (text textLower : jsstring)
  (st : ScanState) (c : RiskCategory) (keywords : list jsstring) :
  scanCategory toLowerCase now text textLower st (c, keywords) = st
  \/ exists item,
       scanCategory toLowerCase now text textLower st (c, keywords)
       = mkScan (pushed st ++ [item]) (S (reads st))
       /\ category item = c
       /\ ~ In c (map category (pushed st))
       /\ exists keyword,
            In keyword keywords /\ occursIn textLower (toLowerCase keyword).
Proof.
  unfold scanCategory.
  destruct (firstKeyword toLowerCase textLower keywords)
    as [[index keyword]|] eqn:Hk; [|now left].
  destruct (find _ (pushed st)) eqn:Hf; [now left|]. right.
  eexists. split; [reflexivity|]. split; [reflexivity|].
  split; [now apply find_category|].
  apply firstKeyword_some in Hk. exists keyword. tauto.
Qed.

Lemma scan_fold_found (now : Clock) (text : jsstring)
  (entries : list (RiskCategory * list jsstring)) (st : ScanState) :
  incl entries RISK_KEYWORDS ->
  NoDup (map category (pushed st)) ->
  (forall r, In r (pushed st) ->
     exists keywords keyword,
       In (category r, keywords) RISK_KEYWORDS /\ In keyword keywords
       /\ occursIn (toLowerCase text) (toLowerCase keyword)) ->
  let final :=
    fold_left (scanCategory toLowerCase now text (toLowerCase text))
              entries st in
  NoDup (map category (pushed final))
  /\ (forall r, In r (pushed final) ->
        exists keywords keyword,
          In (category r, keywords) RISK_KEYWORDS /\ In keyword keywords
          /\ occursIn (toLowerCase text) (toLowerCase keyword)).
Proof.
  revert st. induction entries as [|[c kws] entries IH];
    intros st Hincl Hnd Hfound; cbn [fold_left].
  - now split.
  - assert (Hrest : incl entries RISK_KEYWORDS).
    { intros e He. apply Hincl. now right. }
    destruct (scanCategory_cases now text (toLowerCase text) st c kws)
      as [-> | [item [-> [Hc [Hnew [kw [Hkw Ho]]]]]]].
    + now apply IH.
    + apply IH; [assumption| |]; cbn [pushed].
      * rewrite map_app. cbn [map]. rewrite Hc.
        apply NoDup_app; [assumption| |].
        -- repeat constructor. intros [].
        -- intros a Ha [<- | []]. contradiction.
      * intros r Hr. apply in_app_or in Hr. destruct Hr as [Hr | [<- | []]].
        -- now apply Hfound.
        -- exists kws, kw. rewrite Hc.
           split; [apply Hincl; now left | tauto].
Qed.

Lemma scan_fold_order (now : Clock) (text textLower : jsstring)
  (entries : list (RiskCategory * list jsstring)) (st : ScanState) :
  StronglySorted
    (fun e1 e2 : RiskCategory * list jsstring =>
       categoryIndex (fst e1) < categoryIndex (fst e2)) entries ->
  (forall r e, In r (pushed st) -> In e entries ->
     categoryIndex (category r) < categoryIndex (fst e)) ->
  StronglySorted
    (fun a b => categoryIndex (category a) < categoryIndex (category b))
    (pushed st) ->
  StronglySorted
    (fun a b => categoryIndex (category a) < categoryIndex (category b))
    (pushed (fold_left (scanCategory toLowerCase now text textLower)
                       entries st)).
Proof.
  intro Hs. revert st.
  induction Hs as [|[c kws] entries Hs IH He]; intros st Hlt Hsorted;
    cbn [fold_left]; [assumption|].
  rewrite Forall_forall in He.
  destruct (scanCategory_cases now text textLower st c kws)
    as [-> | [item [-> [Hc _]]]].
  - apply IH; [|assumption]. intros r e Hr Hin. apply Hlt; [assumption|].
    now right.
  - apply IH; cbn [pushed].
    + intros r e Hr Hin. apply in_app_or in Hr.
      destruct Hr as [Hr | [<- | []]].
      * apply Hlt; [assumption | now right].
      * rewrite Hc. now apply (He e).
    + apply StronglySorted_snoc; [assumption|].
      apply Forall_forall. intros r Hr. rewrite Hc.
      apply (Hlt r (c, kws)); [assumption | now left].
Qed.

(** C6. [analyzeRisks] returns at most one finding per category, and each
    finding's category has a keyword whose lower-cased form occurs as a
    literal substring of the lower-cased text. *)
Theorem analyzeRisks_one_per_category (now : Clock) (text : jsstring) :
  NoDup (map category (analyzeRisks toLowerCase now text))
  /\ (forall r, In r (analyzeRisks toLowerCase now text) ->
        exists keywords keyword,
          In (category r, keywords) RISK_KEYWORDS /\ In keyword keywords
          /\ occursIn (toLowerCase text) (toLowerCase keyword)).
Proof.
  pose proof (scan_fold_found now text RISK_KEYWORDS (mkScan [] 0%nat)
                (incl_refl _)) as H.
  cbn [pushed map] in H.
  destruct (H (NoDup_nil _)) as [Hnd Hfound]; [intros r []|]. clear H.
  unfold analyzeRisks, scanRisks. cbv zeta.
  set (scanned := pushed _) in *.
  set (cmp := fun a b : RiskItem =>
                severityRank (severity b) - severityRank (severity a)).
  pose proof (Array_sort_perm cmp scanned) as Hp.
  split.
  - exact (Permutation_NoDup
             (Permutation_map category (Permutation_sym Hp)) Hnd).
  - intros r Hr. apply Hfound. exact (Permutation_in r Hp Hr).
Qed.

(** C9. The list that [analyzeRisks] returns is sorted by severity, the
    most severe first (critical, then high, then medium, then low): no
    finding is less severe than one that comes after it, so that nothing
    but critical findings stands before a critical one and nothing but
    low findings after a low one. The severity rank of the code (low 1,
    medium 2, high 3, critical 4) orders the severities in just this way.
    Of two findings of equal severity the one whose category
    [RISK_KEYWORDS] defines first comes first. *)
Theorem analyzeRisks_sorted (now : Clock) (text : jsstring) :
  StronglySorted
    (fun a b => severityRank (severity a) >= severityRank (severity b))
    (analyzeRisks toLowerCase now text)
  /\ map (fun e => categoryIndex (fst e)) RISK_KEYWORDS
     = [0; 1; 2; 3; 4; 5; 6; 7]
  /\ (forall l1 a l2 b l3,
        analyzeRisks toLowerCase now text = l1 ++ a :: l2 ++ b :: l3 ->
        severity a = severity b ->
        categoryIndex (category a) < categoryIndex (category b))
  /\ (forall s1 s2 : RiskSeverity,
        severityRank s1 >= severityRank s2 <-> atLeast s1 s2)
  /\ StronglySorted (fun a b => atLeast (severity a) (severity b))
       (analyzeRisks toLowerCase now text)
  /\ (forall l1 a l2 b l3,
        analyzeRisks toLowerCase now text = l1 ++ a :: l2 ++ b :: l3 ->
        atLeast (severity a) (severity b)
        /\ (severity b = critical -> severity a = critical)
        /\ (severity a = low -> severity b = low)).
Proof.
  assert (Hs : StronglySorted precedes (analyzeRisks toLowerCase now text)).
  { apply Array_sort_precedes. unfold scanRisks.
    apply scan_fold_order.
    - exact RISK_KEYWORDS_order.
    - intros r e [].
    - constructor. }
  assert (Hrank : forall s1 s2 : RiskSeverity,
             severityRank s1 >= severityRank s2 <-> atLeast s1 s2).
  { intros [] []; cbn [severityRank atLeast]; split; intro H;
      try lia; try exact I; try discriminate; try reflexivity;
      try (now left); try (now right);
      try (destruct H as [H | H]; discriminate H);
      try (exfalso; now apply H). }
  assert (Hsev : StronglySorted
                   (fun a b => atLeast (severity a) (severity b))
                   (analyzeRisks toLowerCase now text)).
  { apply (StronglySorted_impl precedes); [|exact Hs].
    intros a b Hab. apply precedes_rank in Hab. apply Hrank. lia. }
  split; [|split; [reflexivity|split; [|split; [exact Hrank|split]]]].
  - apply (StronglySorted_impl precedes); [|exact Hs].
    intros a b Hab. apply precedes_rank in Hab. lia.
  - intros l1 a l2 b l3 Heq Hsame. rewrite Heq in Hs.
    apply StronglySorted_split in Hs. unfold precedes in Hs.
    rewrite Hsame in Hs. lia.
  - exact Hsev.
  - intros l1 a l2 b l3 Heq. rewrite Heq in Hsev.
    apply StronglySorted_split in Hsev.
    split; [exact Hsev|].
    destruct (severity a), (severity b); cbn [atLeast] in Hsev;
      split; intro H; try reflexivity; try discriminate H;
      try (destruct Hsev as [Hsev | Hsev]; discriminate Hsev);
      try (exfalso; now apply Hsev); try discriminate Hsev.
Qed.

End Scan.

Lemma analyzeRisks_one_per_category_witness :
  exists r keywords keyword,
    In r (analyzeRisks asciiToLowerCase (frozenAt 1700000000000)
            (lit "We may sell your data to service providers."))
    /\ In (category r, keywords) RISK_KEYWORDS /\ In keyword keywords
    /\ occursIn
         (asciiToLowerCase (lit "We may sell your data to service providers."))
         (asciiToLowerCase keyword).
Proof.
  destruct (analyzeRisks_one_per_category asciiToLowerCase
              (frozenAt 1700000000000)
              (lit "We may sell your data to service providers."))
    as [_ H].
  remember (analyzeRisks asciiToLowerCase (frozenAt 1700000000000)
              (lit "We may sell your data to service providers.")) as rs
    eqn:E.
  vm_compute in E. subst rs.
  match type of H with
  | forall r, In r (?r0 :: _) -> _ =>
      destruct (H r0 (or_introl eq_refl)) as [kws [kw Hk]];
      exists r0, kws, kw; split; [now left | exact Hk]
  end.
Defined.

Lemma analyzeRisks_sorted_witness :
  exists a b c,
    analyzeRisks asciiToLowerCase (frozenAt 1700000000000)
      (lit "Your plan will automatically renew. Disputes go to binding arbitration in the courts of Delaware.")
    = [a; b; c]
    /\ map (fun r => (category r, severity r))
         (scanRisks asciiToLowerCase (frozenAt 1700000000000)
            (lit "Your plan will automatically renew. Disputes go to binding arbitration in the courts of Delaware."))
       = [(auto_renewal, medium); (arbitration, critical);
          (jurisdiction, low)]
    /\ map (fun r => (category r, severity r)) [a; b; c]
       = [(arbitration, critical); (auto_renewal, medium);
          (jurisdiction, low)]
    /\ atLeast (severity a) (severity b)
    /\ atLeast (severity b) (severity c).
Proof.
  destruct (analyzeRisks_sorted asciiToLowerCase (frozenAt 1700000000000)
              (lit "Your plan will automatically renew. Disputes go to binding arbitration in the courts of Delaware."))
    as [_ [_ [_ [_ [_ H]]]]].
  remember (analyzeRisks asciiToLowerCase (frozenAt 1700000000000)
              (lit "Your plan will automatically renew. Disputes go to binding arbitration in the courts of Delaware.")) as rs
    eqn:E.
  vm_compute in E. subst rs.
  match type of H with
  | forall l1 a l2 b l3, [?x; ?y; ?z] = _ -> _ =>
      exists x, y, z; split; [reflexivity|];
      split; [vm_compute; reflexivity|];
      split; [reflexivity|];
      split;
      [ exact (proj1 (H [] x [] y [z] eq_refl))
      | exact (proj1 (H [x] y [] z [] eq_refl)) ]
  end.
Defined.

(* ================================================================== *)
(** * Texts without keywords                                           *)
(* ================================================================== *)

Lemma noKeywordFound_spec (toLowerCase : jsstring -> jsstring)
  (text : jsstring) :
  noKeywordFound toLowerCase text = true
  <-> (forall c keywords keyword,
         In (c, keywords) RISK_KEYWORDS -> In keyword keywords ->
         ~ occursIn (toLowerCase text) (toLowerCase keyword)).
Proof.
  unfold noKeywordFound. rewrite forallb_forall. split.
  - intros H c kws kw He Hk Ho. specialize (H (c, kws) He).
    rewrite forallb_forall in H. specialize (H kw Hk).
    apply Z.eqb_eq in H. apply indexOf_found in Ho. contradiction.
  - intros H [c kws] He. apply forallb_forall. intros kw Hk.
    apply Z.eqb_eq.
    destruct (Z.eq_dec (indexOf (toLowerCase text) (toLowerCase kw)) (-1))
      as [E | E]; [assumption|].
    apply indexOf_found in E. exfalso. exact (H c kws kw He Hk E).
Qed.

Lemma scan_fold_nothing (toLowerCase : jsstring -> jsstring) (now : Clock)
  (text : jsstring) (entries : list (RiskCategory * list jsstring))
  (st : ScanState) :
  (forall c keywords keyword,
     In (c, keywords) entries -> In keyword keywords ->
     ~ occursIn (toLowerCase text) (toLowerCase keyword)) ->
  fold_left (scanCategory toLowerCase now text (toLowerCase text)) entries st
  = st.
Proof.
  revert st. induction entries as [|[c kws] entries IH]; intros st H;
    cbn [fold_left]; [reflexivity|].
  assert (Hn : firstKeyword toLowerCase (toLowerCase text) kws = None).
  { apply firstKeyword_none. intros kw Hk. apply (H c kws); [now left|].
    assumption. }
  unfold scanCategory at 2. rewrite Hn. apply IH.
  intros c' kws' kw He. apply (H c' kws' kw). now right.
Qed.

(** C1. On a text in which no keyword of any category occurs, the
    enhanced analysis returns no finding, score 0, the summary of the
    empty case and the comparison of score 0 with the default average 55:
    [better], at percentile 5. *)
Theorem analyzeRisksEnhanced_no_keyword
  (toLowerCase : jsstring -> jsstring) (now : Clock) (text : jsstring) :
  (forall c keywords keyword,
     In (c, keywords) RISK_KEYWORDS -> In keyword keywords ->
     ~ occursIn (toLowerCase text) (toLowerCase keyword)) ->
  let result := analyzeRisksEnhanced toLowerCase now text in
  Analysis.risks result = []
  /\ Analysis.score result = 0
  /\ Analysis.summary result
     = lit "No significant risks detected in this agreement."
  /\ comparison (Analysis.comparison result) = better
  /\ percentile (Analysis.comparison result) = 5.
Proof.
  intros H result.
  assert (Hr : analyzeRisks toLowerCase now text = []).
  { unfold analyzeRisks, scanRisks. now rewrite scan_fold_nothing. }
  subst result. unfold analyzeRisksEnhanced. rewrite Hr.
  cbn [Analysis.risks Analysis.score Analysis.summary Analysis.comparison].
  repeat split.
Qed.

Lemma analyzeRisksEnhanced_no_keyword_witness :
  let result := analyzeRisksEnhanced asciiToLowerCase (frozenAt 0) [] in
  Analysis.risks result = []
  /\ Analysis.score result = 0
  /\ Analysis.summary result
     = lit "No significant risks detected in this agreement."
  /\ comparison (Analysis.comparison result) = better
  /\ percentile (Analysis.comparison result) = 5.
Proof.
  apply (analyzeRisksEnhanced_no_keyword asciiToLowerCase (frozenAt 0) []).
  apply noKeywordFound_spec. vm_compute. reflexivity.
Defined.

(** C1 as stated fails on the empty text: no keyword occurs in it, and the
    comparison returned is not [average]. *)
Lemma analyzeRisksEnhanced_empty_text_not_average :
  ~ ((forall c keywords keyword,
        In (c, keywords) RISK_KEYWORDS -> In keyword keywords ->
        ~ occursIn (asciiToLowerCase []) (asciiToLowerCase keyword)) ->
     let result := analyzeRisksEnhanced asciiToLowerCase (frozenAt 0) [] in
     Analysis.risks result = []
     /\ Analysis.score result = 0
     /\ Analysis.summary result
        = lit "No significant risks detected in this agreement."
     /\ comparison (Analysis.comparison result) = average
     /\ percentile (Analysis.comparison result) = 50).
Proof.
  intro H.
  assert (Hno : forall c keywords keyword,
             In (c, keywords) RISK_KEYWORDS -> In keyword keywords ->
             ~ occursIn (asciiToLowerCase []) (asciiToLowerCase keyword)).
  { apply noKeywordFound_spec. vm_compute. reflexivity. }
  destruct (H Hno) as [_ [_ [_ [Hc _]]]].
  vm_compute in Hc. discriminate.
Qed.

(* ================================================================== *)
(** * Escalation by red flags                                          *)
(* ================================================================== *)

(** C4. With 3 or more red flags and a base severity other than critical
    the overall severity is critical; otherwise, with 2 or more red flags
    and a base severity of rank below 3, it is high; otherwise it is the
    base severity. So 2 red flags on a medium base give high, and 3 or
    more red flags give critical whatever the base. *)
Theorem analyzeRisksEnhanced_escalation
  (toLowerCase : jsstring -> jsstring) (now : Clock) (text : jsstring) :
  let base := calculateOverallSeverity (analyzeRisks toLowerCase now text) in
  let flags := Z.of_nat (length (detectRedFlags text)) in
  let final :=
    Analysis.overallSeverity (analyzeRisksEnhanced toLowerCase now text) in
  (flags >= 3 /\ base <> critical -> final = critical)
  /\ (~ (flags >= 3 /\ base <> critical) ->
      flags >= 2 /\ severityRank base < 3 -> final = high)
  /\ (~ (flags >= 3 /\ base <> critical) ->
      ~ (flags >= 2 /\ severityRank base < 3) -> final = base)
  /\ (flags = 2 -> base = medium -> final = high)
  /\ (flags >= 3 -> final = critical).
Proof.
  cbv zeta. unfold analyzeRisksEnhanced. cbn [Analysis.overallSeverity].
  set (base := calculateOverallSeverity (analyzeRisks toLowerCase now text)).
  set (flags := Z.of_nat (length (detectRedFlags text))).
  assert (Hdec : forall P Q : Prop, ~ (P /\ Q) -> P -> ~ Q) by tauto.
  destruct (Z.geb_spec flags 3) as [H3 | H3];
    destruct (Z.geb_spec flags 2) as [H2 | H2]; try lia;
    destruct base; cbn; repeat split;
    try reflexivity; try lia; try discriminate;
    try (intros [Ha Hb]; solve [lia | congruence]);
    try (intros Hn [Ha Hb]; solve [lia | congruence
                                   | (exfalso; apply Hn; split;
                                      [lia | discriminate])]);
    try (intros Hn Hm; exfalso;
         solve [ apply Hn; split; [lia | discriminate]
               | apply Hm; split; [lia | cbn; lia] ]).
Qed.

Lemma analyzeRisksEnhanced_escalation_witness :
  Analysis.overallSeverity
    (analyzeRisksEnhanced asciiToLowerCase (frozenAt 1700000000000)
       (lit "We may suspend your account at our sole discretion and offer no refunds "))
  = high.
Proof.
  destruct (analyzeRisksEnhanced_escalation asciiToLowerCase
              (frozenAt 1700000000000)
              (lit "We may suspend your account at our sole discretion and offer no refunds "))
    as [_ [_ [_ [H _]]]].
  apply H; vm_compute; reflexivity.
Defined.

(* ================================================================== *)
(** * Two runs on the same text                                        *)
(* ================================================================== *)

Lemma map_category_eraseId (l : list RiskItem) :
  map category (map eraseId l) = map category l.
Proof. rewrite map_map. reflexivity. Qed.

Lemma baseScore_eraseId (l : list RiskItem) :
  baseScore (map eraseId l) = baseScore l.
Proof.
  unfold baseScore. induction l as [|r l IH]; simpl; [reflexivity|].
  now rewrite IH.
Qed.

Lemma calculateRiskScore_eraseId (l : list RiskItem) :
  calculateRiskScore (map eraseId l) = calculateRiskScore l.
Proof.
  unfold calculateRiskScore.
  rewrite length_map, !fold_left_base, baseScore_eraseId,
    map_category_eraseId.
  reflexivity.
Qed.

Lemma calculateOverallSeverity_eraseId (l : list RiskItem) :
  calculateOverallSeverity (map eraseId l) = calculateOverallSeverity l.
Proof. unfold calculateOverallSeverity. rewrite map_map. reflexivity. Qed.

Lemma detectDangerousCombinations_eraseId (l : list RiskItem) :
  detectDangerousCombinations (map eraseId l) = detectDangerousCombinations l.
Proof.
  unfold detectDangerousCombinations. now rewrite map_category_eraseId.
Qed.

Lemma filter_severity_eraseId (s : RiskSeverity) (l : list RiskItem) :
  length (filter (fun r => RiskSeverity_eqb (severity r) s) (map eraseId l))
  = length (filter (fun r => RiskSeverity_eqb (severity r) s) l).
Proof.
  induction l as [|r l IH]; simpl; [reflexivity|].
  destruct (RiskSeverity_eqb (severity r) s); simpl; now rewrite IH.
Qed.

Lemma generateOverallSummary_eraseId (l : list RiskItem) :
  generateOverallSummary (map eraseId l) = generateOverallSummary l.
Proof.
  unfold generateOverallSummary.
  now rewrite length_map, !filter_severity_eraseId.
Qed.

Lemma find_category_existsb (c : RiskCategory) (l : list RiskItem) :
  match find (fun r => RiskCategory_eqb (category r) c) l with
  | Some _ => true
  | None => false
  end = existsb (fun c' => RiskCategory_eqb c' c) (map category l).
Proof.
  induction l as [|r l IH]; simpl; [reflexivity|].
  destruct (RiskCategory_eqb (category r) c); [reflexivity | exact IH].
Qed.

Section TwoRuns.

Variable toLowerCase : jsstring -> jsstring.
Variables now1 now2 : Clock.
Variable text : jsstring.

(** One turn of the loop under two clocks pushes the same finding up to
    its [id], or none in both runs. *)
Lemma scanCategory_eraseId (textLower : jsstring) (st1 st2 : ScanState)
  (entry : RiskCategory * list jsstring) :
  map eraseId (pushed st1) = map eraseId (pushed st2) ->
  map eraseId (pushed (scanCategory toLowerCase now1 text textLower st1 entry))
  = map eraseId
      (pushed (scanCategory toLowerCase now2 text textLower st2 entry)).
Proof.
  intro Heq. destruct entry as [c kws]. unfold scanCategory.
  destruct (firstKeyword toLowerCase textLower kws) as [[index kw]|];
    [|assumption].
  pose proof (find_category_existsb c (pushed st1)) as H1.
  pose proof (find_category_existsb c (pushed st2)) as H2.
  rewrite <- (map_category_eraseId (pushed st1)), Heq,
    map_category_eraseId, <- H2 in H1.
  destruct (find _ (pushed st1)); destruct (find _ (pushed st2));
    try discriminate; [assumption|].
  cbn [pushed]. rewrite !map_app, Heq. reflexivity.
Qed.

Lemma scan_fold_eraseId (textLower : jsstring)
  (entries : list (RiskCategory * list jsstring)) (st1 st2 : ScanState) :
  map eraseId (pushed st1) = map eraseId (pushed st2) ->
  map eraseId
    (pushed (fold_left (scanCategory toLowerCase now1 text textLower)
                       entries st1))
  = map eraseId
      (pushed (fold_left (scanCategory toLowerCase now2 text textLower)
                         entries st2)).
Proof.
  revert st1 st2. induction entries as [|e entries IH]; intros st1 st2 Heq;
    cbn [fold_left]; [assumption|].
  apply IH. now apply scanCategory_eraseId.
Qed.

Lemma scan_fold_same_clock (textLower : jsstring)
  (entries : list (RiskCategory * list jsstring)) (st : ScanState) :
  (forall n, now1 n = now2 n) ->
  fold_left (scanCategory toLowerCase now1 text textLower) entries st
  = fold_left (scanCategory toLowerCase now2 text textLower) entries st.
Proof.
  intro Hnow. revert st. induction entries as [|e entries IH]; intro st;
    cbn [fold_left]; [reflexivity|].
  rewrite IH. f_equal. destruct e as [c kws]. unfold scanCategory.
  now rewrite Hnow.
Qed.

Lemma analyzeRisks_eraseId :
  map eraseId (analyzeRisks toLowerCase now1 text)
  = map eraseId (analyzeRisks toLowerCase now2 text).
Proof.
  unfold analyzeRisks.
  rewrite <- !Array_sort_map by reflexivity.
  f_equal. unfold scanRisks. now apply scan_fold_eraseId.
Qed.

(** C2. Two runs of [analyzeRisks] on the same text return the same
    findings in the same order, equal in every field except [id], which
    carries the reading of [Date.now()] at the time the finding is made;
    the other fields of the enhanced result are equal; and when the clock
    readings are the same, the results are equal altogether. *)
Theorem analyzeRisks_same_text :
  let r1 := analyzeRisksEnhanced toLowerCase now1 text in
  let r2 := analyzeRisksEnhanced toLowerCase now2 text in
  map eraseId (analyzeRisks toLowerCase now1 text)
  = map eraseId (analyzeRisks toLowerCase now2 text)
  /\ map eraseId (Analysis.risks r1) = map eraseId (Analysis.risks r2)
  /\ Analysis.score r1 = Analysis.score r2
  /\ Analysis.comparison r1 = Analysis.comparison r2
  /\ Analysis.redFlags r1 = Analysis.redFlags r2
  /\ Analysis.combinationWarnings r1 = Analysis.combinationWarnings r2
  /\ Analysis.overallSeverity r1 = Analysis.overallSeverity r2
  /\ Analysis.summary r1 = Analysis.summary r2
  /\ ((forall n, now1 n = now2 n) ->
      analyzeRisks toLowerCase now1 text = analyzeRisks toLowerCase now2 text
      /\ r1 = r2).
Proof.
  pose proof analyzeRisks_eraseId as He.
  assert (Hscore : calculateRiskScore (analyzeRisks toLowerCase now1 text)
                   = calculateRiskScore (analyzeRisks toLowerCase now2 text)).
  { now rewrite <- calculateRiskScore_eraseId, He,
      calculateRiskScore_eraseId. }
  assert (Hsev : calculateOverallSeverity (analyzeRisks toLowerCase now1 text)
               = calculateOverallSeverity (analyzeRisks toLowerCase now2 text)).
  { now rewrite <- calculateOverallSeverity_eraseId, He,
      calculateOverallSeverity_eraseId. }
  cbv zeta. unfold analyzeRisksEnhanced.
  cbn [Analysis.risks Analysis.score Analysis.comparison Analysis.redFlags
       Analysis.combinationWarnings Analysis.overallSeverity
       Analysis.summary].
  repeat split; try assumption; try reflexivity.
  - now rewrite Hscore.
  - now rewrite <- detectDangerousCombinations_eraseId, He,
      detectDangerousCombinations_eraseId.
  - now rewrite Hsev.
  - now rewrite <- generateOverallSummary_eraseId, He,
      generateOverallSummary_eraseId.
  - unfold analyzeRisks, scanRisks. now rewrite scan_fold_same_clock.
  - assert (Hr : analyzeRisks toLowerCase now1 text
                 = analyzeRisks toLowerCase now2 text).
    { unfold analyzeRisks, scanRisks. now rewrite scan_fold_same_clock. }
    now rewrite Hr.
Qed.

End TwoRuns.

Lemma analyzeRisks_same_text_witness :
  analyzeRisks asciiToLowerCase (frozenAt 1700000000000)
    (lit "Disputes are settled by binding arbitration.")
  = analyzeRisks asciiToLowerCase (fun _ => 1700000000000)
      (lit "Disputes are settled by binding arbitration.").
Proof.
  destruct (analyzeRisks_same_text asciiToLowerCase
              (frozenAt 1700000000000) (fun _ => 1700000000000)
              (lit "Disputes are settled by binding arbitration."))
    as [_ [_ [_ [_ [_ [_ [_ [_ H]]]]]]]].
  apply H. intro n. reflexivity.
Defined.

(** C2 as stated fails: the same text scanned at two different
    milliseconds gives findings with different [id]s. *)
Lemma analyzeRisks_differs_with_clock :
  analyzeRisks asciiToLowerCase (frozenAt 1700000000000)
    (lit "Disputes are settled by binding arbitration.")
  <> analyzeRisks asciiToLowerCase (frozenAt 1700000000001)
       (lit "Disputes are settled by binding arbitration.").
Proof. vm_compute. intro H. discriminate H. Qed.

(* ================================================================== *)
(** * The matcher of regular expressions                               *)
(* ================================================================== *)

Lemma wsPlus_sound (s : jsstring) (k : jsstring -> option jsstring)
  (rest : jsstring) :
  wsPlus s k = Some rest ->
  exists m s', s = m ++ s' /\ matches WsPlus m /\ k s' = Some rest.
Proof.
  revert rest. induction s as [|c s IH]; intros rest H; simpl in H;
    [discriminate|].
  destruct (isWhiteSpace c) eqn:Hc; [|discriminate].
  destruct (wsPlus s k) as [r|] eqn:Hw.
  - injection H as ->. destruct (IH rest eq_refl) as [m [s' [-> [Hm Hk]]]].
    exists (c :: m), s'. split; [reflexivity|].
    split; [now apply M_WsS | assumption].
  - exists [c], s. split; [reflexivity|].
    split; [now apply M_Ws1 | assumption].
Qed.

Lemma backtrack_sound (r : regex) (s : jsstring)
  (k : jsstring -> option jsstring) (rest : jsstring) :
  backtrack r s k = Some rest ->
  exists m s', s = m ++ s' /\ matches r m /\ k s' = Some rest.
Proof.
  revert s k rest.
  induction r as [|c| |r1 IH1 r2 IH2|r1 IH1 r2 IH2|r1 IH1];
    intros s k rest H; cbn [backtrack] in H.
  - exists [], s. split; [reflexivity|]. split; [constructor | assumption].
  - destruct s as [|x s]; [discriminate|].
    destruct (canonicalize c =? canonicalize x) eqn:E; [|discriminate].
    apply Z.eqb_eq in E. exists [x], s. split; [reflexivity|].
    split; [now constructor | assumption].
  - now apply wsPlus_sound.
  - destruct (IH1 _ _ _ H) as [m1 [s1 [-> [Hm1 H2]]]].
    destruct (IH2 _ _ _ H2) as [m2 [s2 [-> [Hm2 Hk]]]].
    exists (m1 ++ m2), s2. rewrite app_assoc. split; [reflexivity|].
    split; [now constructor | assumption].
  - destruct (backtrack r1 s k) as [x|] eqn:E.
    + injection H as ->. destruct (IH1 _ _ _ E) as [m [s' [-> [Hm Hk]]]].
      exists m, s'. split; [reflexivity|].
      split; [now apply M_AltL | assumption].
    + destruct (IH2 _ _ _ H) as [m [s' [-> [Hm Hk]]]].
      exists m, s'. split; [reflexivity|].
      split; [now apply M_AltR | assumption].
  - destruct (backtrack r1 s k) as [x|] eqn:E.
    + injection H as ->. destruct (IH1 _ _ _ E) as [m [s' [-> [Hm Hk]]]].
      exists m, s'. split; [reflexivity|].
      split; [now apply M_OptSome | assumption].
    + exists [], s. split; [reflexivity|].
      split; [apply M_OptNone | assumption].
Qed.

Lemma backtrack_complete (r : regex) (m : jsstring) :
  matches r m ->
  forall (s' : jsstring) (k : jsstring -> option jsstring),
    k s' <> None -> backtrack r (m ++ s') k <> None.
Proof.
  induction 1 as [ |c x Hc|x Hx|x s Hx Hm IH|r1 r2 s1 s2 H1 IH1 H2 IH2
                 |r1 r2 s H1 IH1|r1 r2 s H2 IH2|r1|r1 s H1 IH1];
    intros s' k Hk; cbn [backtrack app].
  - assumption.
  - apply Z.eqb_eq in Hc. now rewrite Hc.
  - cbn [wsPlus]. rewrite Hx. destruct (wsPlus s' k); [discriminate|].
    assumption.
  - cbn [wsPlus]. rewrite Hx. specialize (IH s' k Hk).
    cbn [backtrack] in IH.
    destruct (wsPlus (s ++ s') k); [discriminate | contradiction].
  - rewrite <- app_assoc. apply IH1. now apply IH2.
  - specialize (IH1 s' k Hk).
    destruct (backtrack r1 (s ++ s') k); [discriminate | contradiction].
  - destruct (backtrack r1 (s ++ s') k); [discriminate | now apply IH2].
  - destruct (backtrack r1 s' k); [discriminate | assumption].
  - specialize (IH1 s' k Hk).
    destruct (backtrack r1 (s ++ s') k); [discriminate | contradiction].
Qed.

Lemma execFrom_eq (r : regex) (s : jsstring) :
  execFrom r s
  = match backtrack r s Some with
    | Some rest => Some (firstn (length s - length rest) s)
    | None => match s with
              | [] => None
              | _ :: s' => execFrom r s'
              end
    end.
Proof. destruct s; reflexivity. Qed.

(** A successful [exec] returns the leftmost substring that the pattern
    denotes, exactly as it stands in the text. *)
Lemma execFrom_sound (r : regex) (s m : jsstring) :
  execFrom r s = Some m ->
  exists pre post,
    s = pre ++ m ++ post /\ matches r m
    /\ (forall pre' m' post',
          s = pre' ++ m' ++ post' -> matches r m' ->
          (length pre <= length pre')%nat).
Proof.
  revert m. induction s as [|x s IH]; intros m H; rewrite execFrom_eq in H.
  - destruct (backtrack r [] Some) as [rest|] eqn:E; [|discriminate].
    injection H as <-.
    destruct (backtrack_sound _ _ _ _ E) as [m [s' [Hs [Hm Hk]]]].
    injection Hk as ->. symmetry in Hs. apply app_eq_nil in Hs.
    destruct Hs as [-> ->]. exists [], []. cbn.
    split; [reflexivity|]. split; [assumption|]. intros. lia.
  - destruct (backtrack r (x :: s) Some) as [rest|] eqn:E.
    + remember (length (x :: s) - length rest)%nat as n eqn:Hn in H.
      injection H as <-.
      destruct (backtrack_sound _ _ _ _ E) as [m [s' [Hs [Hm Hk]]]].
      injection Hk as ->. rewrite Hs in *.
      assert (Hlen : n = length m) by (rewrite length_app in Hn; lia).
      clear Hn. subst n.
      rewrite firstn_app, Nat.sub_diag, firstn_all, firstn_O, app_nil_r.
      exists [], rest. split; [reflexivity|]. split; [assumption|].
      intros. cbn. lia.
    + destruct (IH m H) as [pre [post [-> [Hm Hleft]]]].
      exists (x :: pre), post. split; [reflexivity|]. split; [assumption|].
      intros pre' m' post' Heq Hm'. destruct pre' as [|y pre'].
      * exfalso. cbn [app] in Heq.
        apply (backtrack_complete r m' Hm' post' Some); [discriminate|].
        now rewrite <- Heq.
      * cbn [app] in Heq. injection Heq as _ Heq.
        specialize (Hleft pre' m' post' Heq Hm'). cbn. lia.
Qed.

(** [exec] fails exactly when no substring of the text is denoted by the
    pattern. *)
Lemma execFrom_none (r : regex) (s : jsstring) :
  execFrom r s = None
  <-> (forall pre m post, s = pre ++ m ++ post -> ~ matches r m).
Proof.
  split.
  - induction s as [|x s IH]; rewrite execFrom_eq;
      destruct (backtrack r _ Some) eqn:E; try discriminate;
      intros H pre m post Heq Hm.
    + symmetry in Heq. apply app_eq_nil in Heq. destruct Heq as [-> Heq].
      apply (backtrack_complete r m Hm post Some); [discriminate|].
      now rewrite Heq.
    + destruct pre as [|y pre]; cbn [app] in Heq.
      * apply (backtrack_complete r m Hm post Some); [discriminate|].
        now rewrite <- Heq.
      * injection Heq as _ Heq. exact (IH H pre m post Heq Hm).
  - intro H. destruct (execFrom r s) as [m|] eqn:E; [|reflexivity].
    destruct (execFrom_sound _ _ _ E) as [pre [post [Heq [Hm _]]]].
    exfalso. exact (H pre m post Heq Hm).
Qed.

(* ================================================================== *)
(** * What the patterns denote                                         *)
(* ================================================================== *)

Lemma matches_nil_nullable (r : regex) (m : jsstring) :
  matches r m -> m = [] -> nullable r = true.
Proof.
  induction 1 as [ |c x Hc|x Hx|x s Hx Hm IH|r1 r2 s1 s2 H1 IH1 H2 IH2
                 |r1 r2 s H1 IH1|r1 r2 s H2 IH2|r1|r1 s H1 IH1];
    intro Hnil; cbn [nullable]; try reflexivity; try discriminate.
  - apply app_eq_nil in Hnil. destruct Hnil as [-> ->].
    now rewrite IH1, IH2.
  - now rewrite IH1.
  - rewrite IH2 by assumption. apply orb_true_r.
Qed.

Lemma isWhiteSpace_not_letter (c : Z) :
  65 <= c <= 122 -> isWhiteSpace c = false.
Proof.
  intro H. unfold isWhiteSpace.
  rewrite (proj2 (Z.leb_gt c 13)) by lia.
  rewrite (proj2 (Z.leb_gt 8192 c)) by lia.
  rewrite !(proj2 (Z.eqb_neq c _)) by lia.
  now rewrite andb_false_r.
Qed.

Lemma asciiLower_canonicalize (c : Z) :
  canonicalize (asciiLower c) = canonicalize c.
Proof.
  unfold canonicalize, asciiUpper, asciiLower.
  destruct (Z.leb_spec 65 c), (Z.leb_spec c 90); cbn [andb];
    repeat match goal with
           | |- context [?a <=? ?b] => destruct (Z.leb_spec a b)
           end; cbn [andb]; lia.
Qed.

Lemma asciiLower_isWhiteSpace (c : Z) :
  isWhiteSpace (asciiLower c) = isWhiteSpace c.
Proof.
  unfold asciiLower.
  destruct (Z.leb_spec 65 c), (Z.leb_spec c 90); cbn [andb];
    try reflexivity.
  rewrite !isWhiteSpace_not_letter by lia. reflexivity.
Qed.

Lemma asciiUpper_canonicalize (c : Z) :
  canonicalize (asciiUpper c) = canonicalize c.
Proof.
  unfold canonicalize, asciiUpper.
  destruct (Z.leb_spec 97 c), (Z.leb_spec c 122); cbn [andb];
    repeat match goal with
           | |- context [?a <=? ?b] => destruct (Z.leb_spec a b)
           end; cbn [andb]; lia.
Qed.

Lemma asciiUpper_isWhiteSpace (c : Z) :
  isWhiteSpace (asciiUpper c) = isWhiteSpace c.
Proof.
  unfold asciiUpper.
  destruct (Z.leb_spec 97 c), (Z.leb_spec c 122); cbn [andb];
    try reflexivity.
  rewrite !isWhiteSpace_not_letter by lia. reflexivity.
Qed.

(** Two code units are equal under the [i] flag exactly when they are the
    same Basic Latin letter in either case, or the same code unit. *)
Lemma canonicalize_asciiLower (c x : Z) :
  canonicalize c = canonicalize x <-> asciiLower x = asciiLower c.
Proof.
  unfold canonicalize, asciiUpper, asciiLower.
  repeat match goal with
         | |- context [?a <=? ?b] => destruct (Z.leb_spec a b)
         end; cbn [andb]; lia.
Qed.

(** The class [\s] is the white space of the language, item by item. *)
Lemma isWhiteSpace_codes (c : Z) :
  isWhiteSpace c = true <-> In c whiteSpaceCodes.
Proof.
  unfold isWhiteSpace, whiteSpaceCodes. cbn [In].
  rewrite !orb_true_iff, !andb_true_iff, !Z.leb_le, !Z.eqb_eq. lia.
Qed.

Lemma matches_Chr (c : Z) (m : jsstring) :
  matches (Chr c) m <-> exists x, m = [x] /\ asciiLower x = asciiLower c.
Proof.
  split.
  - intro H. inversion H as [ |c' x Hc| | | | | | | ]; subst.
    exists x. split; [reflexivity|]. now apply canonicalize_asciiLower.
  - intros [x [-> Hx]]. constructor. now apply canonicalize_asciiLower.
Qed.

Lemma matches_WsPlus (m : jsstring) :
  matches WsPlus m
  <-> m <> [] /\ Forall (fun c => In c whiteSpaceCodes) m.
Proof.
  split.
  - intro H. remember WsPlus as r eqn:Hr.
    induction H as [ |c x Hc|x Hx|x s Hx Hm IH| | | | | ];
      try discriminate Hr.
    + split; [discriminate|]. constructor; [|constructor].
      now apply isWhiteSpace_codes.
    + split; [discriminate|]. constructor.
      * now apply isWhiteSpace_codes.
      * now apply IH.
  - intros [Hne Hall]. induction Hall as [|x m Hx Hall IH];
      [contradiction|].
    apply isWhiteSpace_codes in Hx. destruct m as [|y m].
    + now apply M_Ws1.
    + apply M_WsS; [assumption|]. apply IH. discriminate.
Qed.

(** A run of pattern characters denotes its text in any mixture of upper
    and lower case. *)
Lemma matches_word (l m : jsstring) :
  matches (fold_right (fun c r => Cat (Chr c) r) Eps l) m
  <-> map asciiLower m = map asciiLower l.
Proof.
  revert m. induction l as [|c l IH]; intro m; cbn [fold_right map].
  - split.
    + intro H. inversion H. reflexivity.
    + intro H. apply map_eq_nil in H. subst m. constructor.
  - split.
    + intro H. inversion H as [ | | | |r1 r2 s1 s2 H1 H2| | | | ]; subst.
      apply matches_Chr in H1. destruct H1 as [x [-> Hx]].
      apply IH in H2. cbn [app map]. now rewrite Hx, H2.
    + intro H. destruct m as [|x m]; [discriminate|].
      cbn [map] in H. injection H as Hx Hm.
      change (x :: m) with ([x] ++ m). constructor.
      * apply matches_Chr. now exists x.
      * now apply IH.
Qed.

(** The third pattern denotes the two words in any case, with white space
    between them. *)
Lemma BINDING_ARBITRATION_denotes (m : jsstring) :
  matches BINDING_ARBITRATION m
  <-> exists b w a,
        m = b ++ w ++ a
        /\ map asciiLower b = lit "binding"
        /\ w <> [] /\ Forall (fun c => In c whiteSpaceCodes) w
        /\ map asciiLower a = lit "arbitration".
Proof.
  unfold BINDING_ARBITRATION, sequence, ws. cbn [fold_right]. split.
  - intro H.
    inversion H as [ | | | |r1 r2 b s2 Hb H2| | | | ]; subst.
    inversion H2 as [ | | | |r1 r2 w s3 Hw H3| | | | ]; subst.
    inversion H3 as [ | | | |r1 r2 a s4 Ha H4| | | | ]; subst.
    inversion H4; subst. rewrite app_nil_r.
    exists b, w, a. split; [reflexivity|].
    apply matches_word in Hb. apply matches_word in Ha.
    apply matches_WsPlus in Hw. destruct Hw as [Hne Hall].
    repeat split; assumption.
  - intros [b [w [a [-> [Hb [Hne [Hall Ha]]]]]]].
    constructor; [now apply matches_word|].
    constructor; [now apply matches_WsPlus|].
    rewrite <- (app_nil_r a).
    constructor; [now apply matches_word | constructor].
Qed.

(* ================================================================== *)
(** * The extent of a match                                            *)
(* ================================================================== *)

Lemma inFirst_union (F G : FirstSet) (x : Z) :
  inFirst (unionFirst F G) x = inFirst F x || inFirst G x.
Proof.
  unfold inFirst, unionFirst. cbn [firstChars firstSpace].
  rewrite existsb_app.
  destruct (firstSpace F), (firstSpace G), (isWhiteSpace x),
    (existsb _ (firstChars F)), (existsb _ (firstChars G)); reflexivity.
Qed.

Lemma inFirst_followOf (r : regex) (F : FirstSet) (x : Z) :
  inFirst (firstOf r) x = true -> inFirst (followOf r F) x = true.
Proof.
  intro H. unfold followOf. destruct (nullable r); [|assumption].
  now rewrite inFirst_union, H.
Qed.

(** [firstOf] covers the first code unit of every match. *)
Lemma firstOf_sound (r : regex) (m : jsstring) :
  matches r m ->
  forall x t, m = x :: t -> inFirst (firstOf r) x = true.
Proof.
  induction 1 as [ |c y Hc|y Hy|y s Hy Hm IH|r1 r2 s1 s2 H1 IH1 H2 IH2
                 |r1 r2 s H1 IH1|r1 r2 s H2 IH2|r1|r1 s H1 IH1];
    intros x t Heq; cbn [firstOf]; try discriminate Heq.
  - injection Heq as -> _. unfold inFirst. cbn [firstChars firstSpace existsb].
    rewrite Hc, Z.eqb_refl. reflexivity.
  - injection Heq as -> _. unfold inFirst. cbn [firstChars firstSpace existsb].
    now rewrite Hy.
  - injection Heq as -> _. unfold inFirst. cbn [firstChars firstSpace existsb].
    now rewrite Hy.
  - destruct s1 as [|y s1]; cbn [app] in Heq.
    + rewrite (matches_nil_nullable _ _ H1 eq_refl), inFirst_union.
      rewrite (IH2 x t Heq). apply orb_true_r.
    + injection Heq as -> _. specialize (IH1 x s1 eq_refl).
      destruct (nullable r1); [|assumption].
      now rewrite inFirst_union, IH1.
  - now rewrite inFirst_union, (IH1 x t Heq).
  - rewrite inFirst_union, (IH2 x t Heq). apply orb_true_r.
  - exact (IH1 x t Heq).
Qed.

Lemma noSpaceIn_sound (F : FirstSet) (x : Z) :
  noSpaceIn F = true -> inFirst F x = true -> isWhiteSpace x = false.
Proof.
  unfold noSpaceIn, inFirst. intros H Hx.
  apply andb_true_iff in H. destruct H as [Hs Hc].
  apply negb_true_iff in Hs. rewrite Hs in Hx. cbn [andb orb] in Hx.
  apply existsb_exists in Hx. destruct Hx as [c [Hin Hcx]].
  apply Z.eqb_eq in Hcx. rewrite forallb_forall in Hc.
  specialize (Hc c Hin). apply negb_true_iff in Hc.
  rewrite Hcx in Hc. unfold canonicalize in Hc.
  now rewrite asciiUpper_isWhiteSpace in Hc.
Qed.

Lemma disjointFirst_sound (F G : FirstSet) (x : Z) :
  disjointFirst F G = true ->
  inFirst F x = true -> inFirst G x = true -> False.
Proof.
  unfold disjointFirst. intros H HF HG.
  apply andb_true_iff in H. destruct H as [H H4].
  apply andb_true_iff in H. destruct H as [H H3].
  apply andb_true_iff in H. destruct H as [H1 H2].
  assert (Hspace : forall A B,
             negb (firstSpace A) || forallb (fun c => negb (isWhiteSpace c))
                                            (firstChars B) = true ->
             firstSpace A && isWhiteSpace x = true ->
             existsb (fun c => c =? canonicalize x) (firstChars B) = true ->
             False).
  { intros A B HAB HA HB. apply andb_true_iff in HA. destruct HA as [HA Hw].
    rewrite HA in HAB. cbn [negb orb] in HAB.
    assert (Hn : noSpaceIn (mkFirst (firstChars B) false) = true)
      by exact HAB.
    apply (noSpaceIn_sound _ x) in Hn; [congruence|].
    unfold inFirst. cbn [firstChars firstSpace andb orb]. exact HB. }
  unfold inFirst in HF, HG.
  apply orb_true_iff in HF. apply orb_true_iff in HG.
  destruct HF as [HF | HF], HG as [HG | HG].
  - apply andb_true_iff in HF, HG. destruct HF as [HF _], HG as [HG _].
    rewrite HF, HG in H1. discriminate H1.
  - exact (Hspace F G H3 HF HG).
  - exact (Hspace G F H4 HG HF).
  - apply existsb_exists in HF, HG.
    destruct HF as [c [Hc Hcx]], HG as [d [Hd Hdx]].
    apply Z.eqb_eq in Hcx, Hdx. rewrite forallb_forall in H2.
    specialize (H2 c Hc). apply negb_true_iff in H2.
    assert (Hex : existsb (Z.eqb c) (firstChars G) = true).
    { apply existsb_exists. exists d. split; [assumption|].
      apply Z.eqb_eq. congruence. }
    congruence.
Qed.

Lemma backtrack_within (r : regex) (k : jsstring -> option jsstring) :
  resultWithin k -> resultWithin (fun s => backtrack r s k).
Proof.
  intros Hk s rest H.
  destruct (backtrack_sound _ _ _ _ H) as [m [s' [-> [_ Hs']]]].
  specialize (Hk _ _ Hs'). rewrite length_app. lia.
Qed.

Lemma backtrack_begins (r : regex) (k : jsstring -> option jsstring)
  (F : FirstSet) :
  beginsWith k F -> beginsWith (fun s => backtrack r s k) (followOf r F).
Proof.
  intros Hk s rest H.
  destruct (backtrack_sound _ _ _ _ H) as [m [s' [-> [Hm Hs']]]].
  destruct m as [|x m]; cbn [app].
  - unfold followOf. rewrite (matches_nil_nullable _ _ Hm eq_refl).
    destruct (Hk _ _ Hs') as [-> | [x [t [-> Hx]]]]; [now left|].
    right. exists x, t. split; [reflexivity|].
    rewrite inFirst_union, Hx. apply orb_true_r.
  - right. exists x, (m ++ s'). split; [reflexivity|].
    apply inFirst_followOf. exact (firstOf_sound _ _ Hm x m eq_refl).
Qed.

(** A successful match of a pattern that is not nullable begins with one
    of the code units the pattern can begin with. *)
Lemma backtrack_head (r : regex) (s : jsstring)
  (k : jsstring -> option jsstring) (rest : jsstring) :
  nullable r = false -> backtrack r s k = Some rest ->
  exists x t, s = x :: t /\ inFirst (firstOf r) x = true.
Proof.
  intros Hn H.
  destruct (backtrack_sound _ _ _ _ H) as [m [s' [-> [Hm _]]]].
  destruct m as [|x m].
  - rewrite (matches_nil_nullable _ _ Hm eq_refl) in Hn. discriminate.
  - exists x, (m ++ s'). split; [reflexivity|].
    exact (firstOf_sound _ _ Hm x m eq_refl).
Qed.

Lemma wsPlus_takesLongest (k : jsstring -> option jsstring) (F : FirstSet) :
  resultWithin k -> beginsWith k F -> noSpaceIn F = true ->
  takesLongest WsPlus k.
Proof.
  intros Hin Hbeg HF s. induction s as [|c s IH];
    intros rest m s1 rest' H Heq Hm Hk; cbn [backtrack wsPlus] in H;
    [discriminate|].
  destruct (isWhiteSpace c) eqn:Hc; [|discriminate].
  assert (Hcases : (m = [c] /\ s1 = s)
                   \/ exists m', m = c :: m' /\ s = m' ++ s1
                                 /\ matches WsPlus m').
  { inversion Hm as [ | |x Hx|x m' Hx Hm'| | | | | ]; subst;
      cbn [app] in Heq; injection Heq as Hx' Hs'; subst x.
    - left. now split.
    - right. now exists m'. }
  destruct (wsPlus s k) as [r|] eqn:Hw.
  - injection H as ->.
    destruct Hcases as [[-> ->] | [m' [-> [Hs Hm']]]].
    + destruct (wsPlus_sound _ _ _ Hw) as [m2 [s2 [Hs [Hm2 Hk2]]]].
      assert (Hhead : exists y t, s = y :: t /\ isWhiteSpace y = true).
      { destruct s as [|y t]; [discriminate Hw|]. cbn [wsPlus] in Hw.
        exists y, t. split; [reflexivity|].
        destruct (isWhiteSpace y); [reflexivity | discriminate]. }
      destruct Hhead as [y [t [Hyt Hy]]].
      destruct (Hbeg _ _ Hk) as [-> | [x [t' [Hx Hxin]]]].
      * specialize (Hin _ _ Hk2). apply (f_equal (@length Z)) in Hs.
        rewrite length_app in Hs. lia.
      * rewrite Hyt in Hx. injection Hx as <- _.
        rewrite (noSpaceIn_sound _ _ HF Hxin) in Hy. discriminate.
    + exact (IH rest m' s1 rest' Hw Hs Hm' Hk).
  - destruct Hcases as [[-> ->] | [m' [-> [Hs Hm']]]].
    + rewrite H in Hk. injection Hk as ->. lia.
    + exfalso. apply (backtrack_complete WsPlus m' Hm' s1 k).
      * rewrite Hk. discriminate.
      * cbn [backtrack]. now rewrite <- Hs.
Qed.

(** In a pattern whose choices are decided by the next code unit, the
    backtracking order of the matcher finds the longest match. *)
Lemma decidedByNext_takesLongest (r : regex) :
  forall (follow : FirstSet) (k : jsstring -> option jsstring),
    decidedByNext r follow = true ->
    resultWithin k -> beginsWith k follow -> takesLongest r k.
Proof.
  induction r as [|c| |r1 IH1 r2 IH2|r1 IH1 r2 IH2|r1 IH1];
    intros follow k Hd Hin Hbeg; cbn [decidedByNext] in Hd.
  - intros s rest m s1 rest' H Heq Hm Hk. cbn [backtrack] in H.
    inversion Hm; subst. cbn [app] in H. rewrite H in Hk.
    injection Hk as ->. lia.
  - intros s rest m s1 rest' H Heq Hm Hk. cbn [backtrack] in H.
    inversion Hm as [ |c' x Hc| | | | | | | ]; subst. cbn [app] in H.
    destruct (canonicalize c =? canonicalize x); [|discriminate].
    rewrite H in Hk. injection Hk as ->. lia.
  - exact (wsPlus_takesLongest k follow Hin Hbeg Hd).
  - apply andb_true_iff in Hd. destruct Hd as [Hd1 Hd2].
    intros s rest m s1 rest' H Heq Hm Hk. cbn [backtrack] in H.
    inversion Hm as [ | | | |r1' r2' m1 m2 Hm1 Hm2| | | | ]; subst.
    destruct (backtrack r2 (m2 ++ s1) k) as [rest2|] eqn:E2.
    + pose proof (IH2 follow k Hd2 Hin Hbeg _ _ _ _ _ E2 eq_refl Hm2 Hk)
        as Hle2.
      pose proof (IH1 (followOf r2 follow) (fun s' => backtrack r2 s' k)
                    Hd1 (backtrack_within r2 k Hin)
                    (backtrack_begins r2 k follow Hbeg)
                    _ _ m1 (m2 ++ s1) rest2 H
                    (eq_sym (app_assoc m1 m2 s1)) Hm1 E2) as Hle1.
      lia.
    + exfalso. apply (backtrack_complete r2 m2 Hm2 s1 k); [|exact E2].
      rewrite Hk. discriminate.
  - apply andb_true_iff in Hd. destruct Hd as [Hd Hdis].
    apply andb_true_iff in Hd. destruct Hd as [Hd Hn2].
    apply andb_true_iff in Hd. destruct Hd as [Hd Hn1].
    apply andb_true_iff in Hd. destruct Hd as [Hd1 Hd2].
    apply negb_true_iff in Hn1, Hn2.
    intros s rest m s1 rest' H Heq Hm Hk. cbn [backtrack] in H.
    destruct (backtrack r1 s k) as [rest1|] eqn:E1.
    + injection H as ->.
      inversion Hm as [ | | | | |r1' r2' m' Hm1|r1' r2' m' Hm2| | ]; subst.
      * exact (IH1 follow k Hd1 Hin Hbeg _ _ _ _ _ E1 eq_refl Hm1 Hk).
      * exfalso.
        destruct (backtrack_head _ _ _ _ Hn1 E1) as [x [t [Hx Hx1]]].
        destruct m as [|y m].
        -- rewrite (matches_nil_nullable _ _ Hm2 eq_refl) in Hn2.
           discriminate.
        -- cbn [app] in Hx. injection Hx as -> _.
           exact (disjointFirst_sound _ _ x Hdis Hx1
                    (firstOf_sound _ _ Hm2 x m eq_refl)).
    + inversion Hm as [ | | | | |r1' r2' m' Hm1|r1' r2' m' Hm2| | ]; subst.
      * exfalso. apply (backtrack_complete r1 m Hm1 s1 k); [|exact E1].
        rewrite Hk. discriminate.
      * exact (IH2 follow k Hd2 Hin Hbeg _ _ _ _ _ H eq_refl Hm2 Hk).
  - apply andb_true_iff in Hd. destruct Hd as [Hd Hdis].
    apply andb_true_iff in Hd. destruct Hd as [Hd1 Hn1].
    apply negb_true_iff in Hn1.
    intros s rest m s1 rest' H Heq Hm Hk. cbn [backtrack] in H.
    destruct (backtrack r1 s k) as [rest1|] eqn:E1.
    + injection H as ->.
      inversion Hm as [ | | | | | | |r1'|r1' m' Hm1]; subst.
      * cbn [app] in E1, Hk |- *.
        destruct (backtrack_head _ _ _ _ Hn1 E1) as [x [t [Hx Hx1]]].
        pose proof (backtrack_within r1 k Hin _ _ E1) as Hle.
        destruct (Hbeg _ _ Hk) as [-> | [y [t' [Hy Hy1]]]]; [exact Hle|].
        exfalso. rewrite Hx in Hy. injection Hy as <- _.
        exact (disjointFirst_sound _ _ x Hdis Hx1 Hy1).
      * exact (IH1 follow k Hd1 Hin Hbeg _ _ _ _ _ E1 eq_refl Hm1 Hk).
    + inversion Hm as [ | | | | | | |r1'|r1' m' Hm1]; subst.
      * cbn [app] in H, Hk. rewrite H in Hk. injection Hk as ->. lia.
      * exfalso. apply (backtrack_complete r1 m Hm1 s1 k); [|exact E1].
        rewrite Hk. discriminate.
Qed.

(** Every choice in the ten patterns is decided by the next code unit. *)
Lemma RED_FLAGS_decidedByNext :
  forallb (fun pattern => decidedByNext pattern noFirst) RED_FLAGS = true.
Proof. vm_compute. reflexivity. Qed.

(** [exec] on such a pattern returns the leftmost match and, of the
    matches that start there, the longest. *)
Lemma execFrom_longest (r : regex) (s m : jsstring) :
  decidedByNext r noFirst = true ->
  execFrom r s = Some m ->
  exists pre post,
    s = pre ++ m ++ post /\ matches r m
    /\ (forall pre' m' post',
          s = pre' ++ m' ++ post' -> matches r m' ->
          (length pre < length pre')%nat
          \/ (pre' = pre /\ (length m' <= length m)%nat)).
Proof.
  intro Hd.
  assert (Hlong : takesLongest r Some).
  { apply (decidedByNext_takesLongest r noFirst Some Hd).
    - intros s0 rest H. injection H as ->. lia.
    - intros s0 rest H. injection H as ->. now left. }
  revert m. induction s as [|x s IH]; intros m H; rewrite execFrom_eq in H.
  - destruct (backtrack r [] Some) as [rest|] eqn:E; [|discriminate].
    injection H as <-.
    destruct (backtrack_sound _ _ _ _ E) as [m [s' [Hs [Hm Hk]]]].
    injection Hk as ->. symmetry in Hs. apply app_eq_nil in Hs.
    destruct Hs as [-> ->]. exists [], []. cbn.
    split; [reflexivity|]. split; [assumption|].
    intros pre' m' post' Heq _. right.
    destruct pre'; [|discriminate]. destruct m'; [|discriminate].
    split; [reflexivity | cbn; lia].
  - destruct (backtrack r (x :: s) Some) as [rest|] eqn:E.
    + remember (length (x :: s) - length rest)%nat as n eqn:Hn in H.
      injection H as <-.
      destruct (backtrack_sound _ _ _ _ E) as [m [s' [Hs [Hm Hk]]]].
      injection Hk as ->. rewrite Hs in *.
      assert (Hlen : n = length m) by (rewrite length_app in Hn; lia).
      clear Hn. subst n.
      rewrite firstn_app, Nat.sub_diag, firstn_all, firstn_O, app_nil_r.
      exists [], rest. split; [reflexivity|]. split; [assumption|].
      intros pre' m' post' Heq Hm'. destruct pre' as [|y pre'].
      * right. split; [reflexivity|]. cbn [app] in Heq.
        pose proof (Hlong _ _ m' post' post' E Heq Hm' eq_refl) as Hle.
        apply (f_equal (@length Z)) in Heq. rewrite !length_app in Heq.
        lia.
      * left. cbn. lia.
    + destruct (IH m H) as [pre [post [-> [Hm Hleft]]]].
      exists (x :: pre), post. split; [reflexivity|]. split; [assumption|].
      intros pre' m' post' Heq Hm'. destruct pre' as [|y pre'].
      * exfalso. cbn [app] in Heq.
        apply (backtrack_complete r m' Hm' post' Some); [discriminate|].
        now rewrite <- Heq.
      * cbn [app] in Heq. injection Heq as <- Heq.
        destruct (Hleft pre' m' post' Heq Hm') as [Hlt | [-> Hle]].
        -- left. cbn. lia.
        -- right. split; [reflexivity | assumption].
Qed.

(* ================================================================== *)
(** * The red-flag scanner                                             *)
(* ================================================================== *)

Lemma detectRedFlags_fold (text : jsstring) (patterns : list regex)
  (flags : list jsstring) :
  fold_left (fun flags pattern =>
               match String_match text pattern with
               | Some match0 => flags ++ [match0]
               | None => flags
               end)
            patterns flags
  = flags ++ flat_map (matchText text) patterns.
Proof.
  revert flags. induction patterns as [|p patterns IH]; intro flags;
    cbn [fold_left flat_map].
  - now rewrite app_nil_r.
  - rewrite IH. unfold matchText at 2.
    destruct (String_match text p); [|reflexivity].
    now rewrite <- app_assoc.
Qed.

Lemma BINDING_ARBITRATION_literal :
  matches BINDING_ARBITRATION (lit "binding arbitration").
Proof.
  assert (E : backtrack BINDING_ARBITRATION (lit "binding arbitration") Some
              = Some []) by (vm_compute; reflexivity).
  destruct (backtrack_sound _ _ _ _ E) as [m [s' [Hs [Hm Hk]]]].
  injection Hk as ->. rewrite app_nil_r in Hs. now rewrite Hs.
Qed.

(** C8. [detectRedFlags] returns, in the order of the ten patterns, the
    first match of each pattern that matches, as it stands in the text,
    and nothing for the others. A pattern character stands for its letter
    in either case and [\s+] for a run of white space; the first match of
    a pattern is the leftmost piece of the text that the pattern denotes
    and, of those that start there, the longest. In particular a text in
    which "binding arbitration" occurs, in any case and with any white
    space between the words, yields a match of the third pattern, and a
    text that no pattern matches yields the empty list. *)
Theorem detectRedFlags_spec (text : jsstring) :
  length RED_FLAGS = 10%nat
  /\ detectRedFlags text = flat_map (matchText text) RED_FLAGS
  /\ (forall pattern m,
        String_match text pattern = Some m ->
        exists pre post,
          text = pre ++ m ++ post /\ matches pattern m
          /\ (forall pre' m' post',
                text = pre' ++ m' ++ post' -> matches pattern m' ->
                (length pre <= length pre')%nat))
  /\ (forall pattern,
        String_match text pattern = None
        <-> (forall pre m post,
               text = pre ++ m ++ post -> ~ matches pattern m))
  /\ (occursIn text (lit "binding arbitration") ->
      nth_error RED_FLAGS 2 = Some BINDING_ARBITRATION
      /\ exists m,
           String_match text BINDING_ARBITRATION = Some m
           /\ In m (detectRedFlags text))
  /\ ((forall pattern pre m post,
         In pattern RED_FLAGS -> text = pre ++ m ++ post ->
         ~ matches pattern m) ->
      detectRedFlags text = [])
  /\ (forall c m,
        matches (Chr c) m
        <-> exists x, m = [x] /\ asciiLower x = asciiLower c)
  /\ (forall m,
        matches WsPlus m
        <-> m <> [] /\ Forall (fun c => In c whiteSpaceCodes) m)
  /\ (forall pattern m,
        In pattern RED_FLAGS -> String_match text pattern = Some m ->
        exists pre post,
          text = pre ++ m ++ post /\ matches pattern m
          /\ (forall pre' m' post',
                text = pre' ++ m' ++ post' -> matches pattern m' ->
                (length pre < length pre')%nat
                \/ (pre' = pre /\ (length m' <= length m)%nat)))
  /\ (forall m,
        matches BINDING_ARBITRATION m
        <-> exists b w a,
              m = b ++ w ++ a
              /\ map asciiLower b = lit "binding"
              /\ w <> [] /\ Forall (fun c => In c whiteSpaceCodes) w
              /\ map asciiLower a = lit "arbitration")
  /\ (forall b w a,
        map asciiLower b = lit "binding" ->
        w <> [] -> Forall (fun c => In c whiteSpaceCodes) w ->
        map asciiLower a = lit "arbitration" ->
        occursIn text (b ++ w ++ a) ->
        exists m,
          String_match text BINDING_ARBITRATION = Some m
          /\ In m (detectRedFlags text)
          /\ map asciiLower (firstn 7 m) = lit "binding").
Proof.
  assert (Hflat : detectRedFlags text = flat_map (matchText text) RED_FLAGS).
  { unfold detectRedFlags. now rewrite detectRedFlags_fold. }
  assert (Hbinding : forall phrase pre post,
             text = pre ++ phrase ++ post ->
             matches BINDING_ARBITRATION phrase ->
             exists m,
               String_match text BINDING_ARBITRATION = Some m
               /\ In m (detectRedFlags text)).
  { intros phrase pre post Hocc Hphrase.
    destruct (String_match text BINDING_ARBITRATION) as [m|] eqn:E.
    - exists m. split; [reflexivity|]. rewrite Hflat.
      apply in_flat_map. exists BINDING_ARBITRATION. split.
      + unfold RED_FLAGS. do 2 right. now left.
      + unfold matchText. rewrite E. now left.
    - exfalso.
      exact (proj1 (execFrom_none _ _) E pre phrase post Hocc Hphrase). }
  split; [reflexivity|]. split; [exact Hflat|].
  split; [intros pattern m; apply execFrom_sound|].
  split; [intro pattern; apply execFrom_none|].
  split; [|split; [|split; [|split; [|split; [|split]]]]].
  - intros [pre [post Hocc]]. split; [reflexivity|].
    exact (Hbinding _ pre post Hocc BINDING_ARBITRATION_literal).
  - intro Hnone. rewrite Hflat.
    assert (Hall : forall patterns, incl patterns RED_FLAGS ->
                     flat_map (matchText text) patterns = []).
    { induction patterns as [|p patterns IH]; intro Hincl;
        [reflexivity|].
      cbn [flat_map]. rewrite IH by (intros q Hq; apply Hincl; now right).
      unfold matchText.
      replace (String_match text p) with (@None jsstring); [reflexivity|].
      symmetry. apply execFrom_none. intros pre m post.
      apply Hnone. apply Hincl. now left. }
    apply Hall, incl_refl.
  - exact matches_Chr.
  - exact matches_WsPlus.
  - intros pattern m Hin Hm. apply execFrom_longest; [|exact Hm].
    pose proof RED_FLAGS_decidedByNext as Hall.
    rewrite forallb_forall in Hall. now apply Hall.
  - exact BINDING_ARBITRATION_denotes.
  - intros b w a Hb Hne Hw Ha [pre [post Hocc]].
    assert (Hphrase : matches BINDING_ARBITRATION (b ++ w ++ a)).
    { apply BINDING_ARBITRATION_denotes. now exists b, w, a. }
    destruct (Hbinding _ pre post Hocc Hphrase) as [m [Hm Hflag]].
    exists m. split; [exact Hm|]. split; [exact Hflag|].
    destruct (execFrom_sound _ _ _ Hm) as [_ [_ [_ [Hden _]]]].
    apply BINDING_ARBITRATION_denotes in Hden.
    destruct Hden as [b' [w' [a' [-> [Hb' _]]]]].
    assert (Hlen : length b' = 7%nat).
    { apply (f_equal (@length Z)) in Hb'. now rewrite length_map in Hb'. }
    rewrite firstn_app, Hlen, Nat.sub_diag, firstn_O, app_nil_r.
    rewrite <- Hlen, firstn_all. exact Hb'.
Qed.

Lemma detectRedFlags_spec_witness :
  detectRedFlags
    (lit "Subject to BINDING" ++ [9; 160]
     ++ lit "Arbitration in Delaware. No Refunds  Under Any Circumstances.")
  = [ lit "BINDING" ++ [9; 160] ++ lit "Arbitration";
      lit "No Refunds  Under Any Circumstances" ]
  /\ exists m,
       String_match
         (lit "Subject to BINDING" ++ [9; 160]
          ++ lit "Arbitration in Delaware. No Refunds  Under Any Circumstances.")
         BINDING_ARBITRATION = Some m
       /\ In m (detectRedFlags
                  (lit "Subject to BINDING" ++ [9; 160]
                   ++ lit "Arbitration in Delaware. No Refunds  Under Any Circumstances."))
       /\ map asciiLower (firstn 7 m) = lit "binding".
Proof.
  split; [vm_compute; reflexivity|].
  destruct (detectRedFlags_spec
              (lit "Subject to BINDING" ++ [9; 160]
               ++ lit "Arbitration in Delaware. No Refunds  Under Any Circumstances."))
    as [_ [_ [_ [_ [_ [_ [_ [_ [_ [_ H]]]]]]]]]].
  apply (H (lit "BINDING") [9; 160] (lit "Arbitration")).
  - reflexivity.
  - discriminate.
  - constructor; [cbn; tauto|]. constructor; [cbn; tauto | constructor].
  - reflexivity.
  - exists (lit "Subject to "),
      (lit " in Delaware. No Refunds  Under Any Circumstances.").
    reflexivity.
Defined.

(* ================================================================== *)
(** * A run of the whole pipeline                                      *)
(* ================================================================== *)

Example analyzeRisksEnhanced_arbitration_and_sale :
  let result :=
    analyzeRisksEnhanced asciiToLowerCase (frozenAt 1700000000000)
      (lit "You agree to binding arbitration and a class action waiver. We may sell your data.") in
  map (fun r => (category r, severity r)) (Analysis.risks result)
  = [(arbitration, critical); (data_sharing, high)]
  /\ Analysis.score result = 56
  /\ Analysis.redFlags result
     = [lit "class action waiver"; lit "binding arbitration";
        lit "sell your data"]
  /\ Analysis.combinationWarnings result = []
  /\ Analysis.overallSeverity result = critical
  /\ comparison (Analysis.comparison result) = average
  /\ Analysis.summary result
     = lit "Found 2 potential risks. 1 critical issue requires attention. 1 high-priority concern.".
Proof. vm_compute. repeat split. Qed.

(* ================================================================== *)
(** * More on the keyword matcher                                      *)
(* ================================================================== *)

(** The index that [indexOf] returns is the first occurrence. *)
Lemma indexOfFrom_first (s p : jsstring) (k : Z) :
  indexOfFrom s p k <> -1 ->
  exists pre post,
    s = pre ++ p ++ post
    /\ indexOfFrom s p k = k + len pre
    /\ (forall pre' post', s = pre' ++ p ++ post' ->
          (length pre <= length pre')%nat).
Proof.
  revert k. induction s as [|x s IH]; intros k H.
  - simpl in H. destruct (startsWith p []) eqn:Hp; [|contradiction].
    apply startsWith_spec in Hp. destruct Hp as [post Hp].
    exists [], post. split; [assumption|]. simpl.
    rewrite Hp at 1. unfold len. simpl. split; [|intros; lia].
    destruct (startsWith p (p ++ post)) eqn:E; [lia|].
    assert (startsWith p (p ++ post) = true)
      by (apply startsWith_spec; now exists post).
    congruence.
  - cbn [indexOfFrom] in H |- *.
    destruct (startsWith p (x :: s)) eqn:Hp.
    + apply startsWith_spec in Hp. destruct Hp as [post Hp].
      exists [], post. split; [assumption|]. unfold len. simpl.
      split; [lia | intros; lia].
    + destruct (IH (k + 1) H) as [pre [post [-> [Hi Hfirst]]]].
      exists (x :: pre), post. split; [reflexivity|]. split.
      * rewrite Hi. unfold len. cbn [length]. lia.
      * intros pre' post' Heq. destruct pre' as [|y pre'].
        -- exfalso. cbn [app] in Heq.
           assert (startsWith p (x :: pre ++ p ++ post) = true)
             by (apply startsWith_spec; now exists post').
           congruence.
        -- cbn [app] in Heq. injection Heq as _ Heq.
           specialize (Hfirst pre' post' Heq). cbn [length]. lia.
Qed.

Lemma indexOf_first (s p : jsstring) :
  indexOf s p <> -1 ->
  exists pre post,
    s = pre ++ p ++ post
    /\ indexOf s p = len pre
    /\ (forall pre' post', s = pre' ++ p ++ post' ->
          (length pre <= length pre')%nat).
Proof.
  intro H. destruct (indexOfFrom_first s p 0 H) as [pre [post [Hs [Hi Hf]]]].
  exists pre, post. unfold indexOf. rewrite Hi.
  split; [assumption|]. split; [lia | assumption].
Qed.

Lemma trimStart_suffix (s : jsstring) :
  exists white, s = white ++ trimStart s
                /\ forallb isWhiteSpace white = true.
Proof.
  induction s as [|c s [white [IH Hw]]]; simpl.
  - now exists [].
  - destruct (isWhiteSpace c) eqn:Hc.
    + exists (c :: white). simpl. rewrite Hc, Hw. split; [|reflexivity].
      now rewrite <- IH.
    + now exists [].
Qed.

Lemma trimStart_head (s t : jsstring) (c : Z) :
  trimStart s = c :: t -> isWhiteSpace c = false.
Proof.
  induction s as [|x s IH]; simpl; [discriminate|].
  destruct (isWhiteSpace x) eqn:Hx; [exact IH|].
  intro H. injection H as <- _. exact Hx.
Qed.

Lemma trimEnd_prefix (s : jsstring) :
  exists white, s = trimEnd s ++ white
                /\ forallb isWhiteSpace white = true.
Proof.
  unfold trimEnd.
  destruct (trimStart_suffix (rev s)) as [white [Hs Hw]].
  exists (rev white). split.
  - rewrite <- rev_app_distr, <- Hs. now rewrite rev_involutive.
  - rewrite forallb_forall in *. intros x Hx. apply Hw.
    now apply in_rev.
Qed.

Lemma trimEnd_last (s t : jsstring) (c : Z) :
  trimEnd s = t ++ [c] -> isWhiteSpace c = false.
Proof.
  unfold trimEnd. intro H.
  apply (f_equal (@rev Z)) in H.
  rewrite rev_involutive, rev_app_distr in H. simpl in H.
  now apply trimStart_head in H.
Qed.

(** What [trim] returns neither begins nor ends with white space, and is
    no longer than its argument. *)
Lemma trim_spec (s : jsstring) :
  (forall c t, trim s = c :: t -> isWhiteSpace c = false)
  /\ (forall c t, trim s = t ++ [c] -> isWhiteSpace c = false)
  /\ (length (trim s) <= length s)%nat.
Proof.
  unfold trim. split; [|split].
  - intros c t H.
    destruct (trimEnd_prefix (trimStart s)) as [white [Hs _]].
    rewrite H in Hs. cbn [app] in Hs. now apply trimStart_head in Hs.
  - intros c t H. now apply trimEnd_last in H.
  - destruct (trimEnd_prefix (trimStart s)) as [w1 [H1 _]].
    destruct (trimStart_suffix s) as [w2 [H2 _]].
    rewrite H2 at 2. rewrite H1 at 2. rewrite !length_app. lia.
Qed.

Lemma substring_length (s : jsstring) (start end_ : Z) :
  len (substring s start end_)
  <= Z.abs (Z.min (Z.max end_ 0) (len s) - Z.min (Z.max start 0) (len s)).
Proof.
  unfold substring, len. rewrite length_firstn.
  pose proof (Nat.le_min_l
    (Z.to_nat
       (Z.max (Z.min (Z.max start 0) (Z.of_nat (length s)))
              (Z.min (Z.max end_ 0) (Z.of_nat (length s)))
        - Z.min (Z.min (Z.max start 0) (Z.of_nat (length s)))
                (Z.min (Z.max end_ 0) (Z.of_nat (length s)))))
    (length (skipn (Z.to_nat
       (Z.min (Z.min (Z.max start 0) (Z.of_nat (length s)))
              (Z.min (Z.max end_ 0) (Z.of_nat (length s))))) s))).
  lia.
Qed.

(** The context window holds at most the keyword and 100 code units on
    either side. *)
Lemma contextWindow_length (text keyword : jsstring) (index : Z) :
  0 <= index ->
  len (contextWindow text index keyword) <= len keyword + 200.
Proof.
  intro Hi. unfold contextWindow.
  pose proof (substring_length text (Z.max 0 (index - 100))
                (Z.min (len text) (index + len keyword + 100))) as H.
  assert (0 <= len text) by (unfold len; lia).
  assert (0 <= len keyword) by (unfold len; lia).
  lia.
Qed.

Lemma categoryKey_dash_inj (c1 c2 : RiskCategory) (d1 d2 : jsstring) :
  lit "risk-" ++ categoryKey c1 ++ lit "-" ++ d1
  = lit "risk-" ++ categoryKey c2 ++ lit "-" ++ d2 ->
  c1 = c2.
Proof.
  intro H. apply app_inv_head in H.
  destruct c1, c2; try reflexivity; cbn in H; congruence.
Qed.

Lemma all_categories (c : RiskCategory) : In c allCategories.
Proof. destruct c; simpl; tauto. Qed.

Section ScanFindings.

Variable toLowerCase : jsstring -> jsstring.

(** The keyword that a category is reported for is the first of its list
    that occurs. *)
Lemma firstKeyword_first (textLower : jsstring) (keywords : list jsstring)
  (index : Z) (keyword : jsstring) :
  firstKeyword toLowerCase textLower keywords = Some (index, keyword) ->
  exists earlier later,
    keywords = earlier ++ keyword :: later
    /\ (forall k, In k earlier -> ~ occursIn textLower (toLowerCase k))
    /\ index = indexOf textLower (toLowerCase keyword)
    /\ index <> -1.
Proof.
  induction keywords as [|kw keywords IH]; simpl; [discriminate|].
  destruct (indexOf textLower (toLowerCase kw) =? -1) eqn:E; simpl.
  - intro H. destruct (IH H) as [earlier [later [-> [Hno Hi]]]].
    exists (kw :: earlier), later. split; [reflexivity|].
    split; [|assumption].
    intros k [<- | Hk]; [|now apply Hno].
    apply Z.eqb_eq in E. intro Ho. apply indexOf_found in Ho. contradiction.
  - intro H. injection H as <- <-. apply Z.eqb_neq in E.
    exists [], keywords. split; [reflexivity|].
    split; [intros k []|]. split; [reflexivity | assumption].
Qed.

(** One turn of the loop, with the finding it pushes spelled out. *)
Lemma scanCategory_step (now : Clock) (text textLower : jsstring)
  (st : ScanState) (c : RiskCategory) (keywords : list jsstring) :
  match firstKeyword toLowerCase textLower keywords with
  | None =>
      scanCategory toLowerCase now text textLower st (c, keywords) = st
  | Some (index, keyword) =>
      (In c (map category (pushed st))
       /\ scanCategory toLowerCase now text textLower st (c, keywords) = st)
      \/ (~ In c (map category (pushed st))
          /\ scanCategory toLowerCase now text textLower st (c, keywords)
             = mkScan
                 (pushed st
                  ++ [pushedFinding toLowerCase now (reads st) text c index
                                    keyword])
                 (S (reads st)))
  end.
Proof.
  unfold scanCategory.
  destruct (firstKeyword toLowerCase textLower keywords)
    as [[index keyword]|]; [|reflexivity].
  destruct (find _ (pushed st)) eqn:Hf.
  - left. split; [|reflexivity].
    destruct (in_dec (fun a b : RiskCategory =>
                        ltac:(decide equality) : {a = b} + {a <> b})
                     c (map category (pushed st))) as [Hin | Hnot];
      [assumption|].
    apply find_category in Hnot. congruence.
  - right. split; [now apply find_category | reflexivity].
Qed.

Lemma scan_fold_Forall (P : RiskItem -> Prop) (now : Clock)
  (text textLower : jsstring)
  (entries : list (RiskCategory * list jsstring)) (st : ScanState) :
  (forall c keywords index keyword n,
     In (c, keywords) entries ->
     firstKeyword toLowerCase textLower keywords = Some (index, keyword) ->
     P (pushedFinding toLowerCase now n text c index keyword)) ->
  Forall P (pushed st) ->
  Forall P (pushed (fold_left (scanCategory toLowerCase now text textLower)
                              entries st)).
Proof.
  revert st. induction entries as [|[c kws] entries IH]; intros st HP Hst;
    cbn [fold_left]; [assumption|].
  apply IH.
  - intros c' kws' i kw n Hin. apply HP. now right.
  - pose proof (scanCategory_step now text textLower st c kws) as Hstep.
    destruct (firstKeyword toLowerCase textLower kws) as [[i kw]|] eqn:Hk.
    + destruct Hstep as [[_ ->] | [_ ->]]; [assumption|]. cbn [pushed].
      apply Forall_app. split; [assumption|]. constructor; [|constructor].
      apply (HP c kws i kw); [now left | assumption].
    + now rewrite Hstep.
Qed.

Lemma scanCategory_grows (now : Clock) (text textLower : jsstring)
  (st : ScanState) (entry : RiskCategory * list jsstring) (c : RiskCategory) :
  In c (map category (pushed st)) ->
  In c (map category
          (pushed (scanCategory toLowerCase now text textLower st entry))).
Proof.
  intro Hin. destruct entry as [c' kws].
  destruct (scanCategory_cases toLowerCase now text textLower st c' kws)
    as [-> | [item [-> _]]]; [assumption|].
  cbn [pushed]. rewrite map_app. apply in_or_app. now left.
Qed.

Lemma scan_fold_grows (now : Clock) (text textLower : jsstring)
  (entries : list (RiskCategory * list jsstring)) (st : ScanState)
  (c : RiskCategory) :
  In c (map category (pushed st)) ->
  In c (map category
          (pushed (fold_left (scanCategory toLowerCase now text textLower)
                             entries st))).
Proof.
  revert st. induction entries as [|e entries IH]; intros st Hin;
    cbn [fold_left]; [assumption|].
  apply IH. now apply scanCategory_grows.
Qed.

Lemma scan_fold_complete (now : Clock) (text textLower : jsstring)
  (entries : list (RiskCategory * list jsstring)) (st : ScanState)
  (c : RiskCategory) (keywords : list jsstring) (keyword : jsstring) :
  In (c, keywords) entries -> In keyword keywords ->
  occursIn textLower (toLowerCase keyword) ->
  In c (map category
          (pushed (fold_left (scanCategory toLowerCase now text textLower)
                             entries st))).
Proof.
  revert st. induction entries as [|e entries IH]; intros st Hin Hk Ho;
    [destruct Hin|].
  cbn [fold_left]. destruct Hin as [-> | Hin]; [|now apply IH].
  apply scan_fold_grows.
  pose proof (scanCategory_step now text textLower st c keywords) as Hstep.
  destruct (firstKeyword toLowerCase textLower keywords) as [[i kw]|] eqn:Hf.
  - destruct Hstep as [[Hc ->] | [_ ->]]; [assumption|].
    cbn [pushed]. rewrite map_app. apply in_or_app. right. now left.
  - exfalso. exact (proj1 (firstKeyword_none _ _ _) Hf keyword Hk Ho).
Qed.

Lemma scanRisks_eq (now : Clock) (text : jsstring) :
  scanRisks toLowerCase now text
  = pushed (fold_left (scanCategory toLowerCase now text (toLowerCase text))
                      RISK_KEYWORDS (mkScan [] 0%nat)).
Proof. reflexivity. Qed.

Lemma analyzeRisks_scanRisks (now : Clock) (text : jsstring) :
  Permutation (analyzeRisks toLowerCase now text)
              (scanRisks toLowerCase now text).
Proof. unfold analyzeRisks. apply Array_sort_perm. Qed.

Lemma scanRisks_found (now : Clock) (text : jsstring) :
  NoDup (map category (scanRisks toLowerCase now text))
  /\ (forall r, In r (scanRisks toLowerCase now text) ->
        exists keywords keyword,
          In (category r, keywords) RISK_KEYWORDS /\ In keyword keywords
          /\ occursIn (toLowerCase text) (toLowerCase keyword)).
Proof.
  rewrite scanRisks_eq.
  pose proof (scan_fold_found toLowerCase now text RISK_KEYWORDS
                (mkScan [] 0%nat)) as H.
  cbv zeta in H. apply H.
  - apply incl_refl.
  - cbn [pushed map]. constructor.
  - cbn [pushed]. intros r [].
Qed.

Lemma analyzeRisks_category_iff (now : Clock) (text : jsstring)
  (c : RiskCategory) :
  In c (map category (analyzeRisks toLowerCase now text))
  <-> exists keywords keyword,
        In (c, keywords) RISK_KEYWORDS /\ In keyword keywords
        /\ occursIn (toLowerCase text) (toLowerCase keyword).
Proof.
  pose proof (analyzeRisks_scanRisks now text) as Hp.
  destruct (scanRisks_found now text) as [_ Hfound].
  split.
  - intro Hc. apply in_map_iff in Hc. destruct Hc as [r [<- Hr]].
    apply Hfound. exact (Permutation_in r Hp Hr).
  - intros [kws [kw [He [Hk Ho]]]].
    apply (Permutation_in c
             (Permutation_map category (Permutation_sym Hp))).
    rewrite scanRisks_eq.
    exact (scan_fold_complete now text (toLowerCase text) RISK_KEYWORDS
             (mkScan [] 0%nat) c kws kw He Hk Ho).
Qed.

(** X1. A category is among the findings exactly when one of its keywords
    occurs, lower-cased, in the lower-cased text; so there are at most
    eight findings. *)
Theorem analyzeRisks_reports_iff (now : Clock) (text : jsstring) :
  (forall c,
     In c (map category (analyzeRisks toLowerCase now text))
     <-> exists keywords keyword,
           In (c, keywords) RISK_KEYWORDS /\ In keyword keywords
           /\ occursIn (toLowerCase text) (toLowerCase keyword))
  /\ (length (analyzeRisks toLowerCase now text) <= 8)%nat.
Proof.
  split; [intro c; apply analyzeRisks_category_iff|].
  destruct (scanRisks_found now text) as [Hnd _].
  pose proof (Permutation_map category (analyzeRisks_scanRisks now text))
    as Hp.
  rewrite <- (length_map category), (Permutation_length Hp).
  change 8%nat with (length allCategories).
  apply NoDup_incl_length; [exact Hnd|].
  intros c _. apply all_categories.
Qed.

(** Every finding is the object pushed for the first keyword of its
    category that occurs. *)
Lemma analyzeRisks_pushed (now : Clock) (text : jsstring) (r : RiskItem) :
  In r (analyzeRisks toLowerCase now text) ->
  exists keywords index keyword n,
    In (category r, keywords) RISK_KEYWORDS
    /\ firstKeyword toLowerCase (toLowerCase text) keywords
       = Some (index, keyword)
    /\ r = pushedFinding toLowerCase now n text (category r) index keyword.
Proof.
  intro Hr.
  apply (Permutation_in r (analyzeRisks_scanRisks now text)) in Hr.
  rewrite scanRisks_eq in Hr.
  pose proof (scan_fold_Forall
    (fun r => exists keywords index keyword n,
       In (category r, keywords) RISK_KEYWORDS
       /\ firstKeyword toLowerCase (toLowerCase text) keywords
          = Some (index, keyword)
       /\ r = pushedFinding toLowerCase now n text (category r) index
                keyword)
    now text (toLowerCase text) RISK_KEYWORDS (mkScan [] 0%nat)) as H.
  assert (Hall : Forall
    (fun r => exists keywords index keyword n,
       In (category r, keywords) RISK_KEYWORDS
       /\ firstKeyword toLowerCase (toLowerCase text) keywords
          = Some (index, keyword)
       /\ r = pushedFinding toLowerCase now n text (category r) index
                keyword)
    (pushed (fold_left (scanCategory toLowerCase now text (toLowerCase text))
                       RISK_KEYWORDS (mkScan [] 0%nat)))).
  { apply H.
    - intros c kws i kw n Hin Hk. exists kws, i, kw, n.
      split; [exact Hin|]. split; [exact Hk | reflexivity].
    - cbn [pushed]. constructor. }
  exact (proj1 (Forall_forall _ _) Hall r Hr).
Qed.

(** X2. First keyword wins: a finding's location is the first occurrence
    of the first keyword of its category that occurs (lower-cased, in the
    lower-cased text); no earlier keyword of the list occurs, and the
    location spans the length of the keyword. *)
Theorem analyzeRisks_location (now : Clock) (text : jsstring) (r : RiskItem) :
  In r (analyzeRisks toLowerCase now text) ->
  exists earlier keyword later pre post,
    In (category r, earlier ++ keyword :: later) RISK_KEYWORDS
    /\ (forall k, In k earlier ->
          ~ occursIn (toLowerCase text) (toLowerCase k))
    /\ toLowerCase text = pre ++ toLowerCase keyword ++ post
    /\ (forall pre' post',
          toLowerCase text = pre' ++ toLowerCase keyword ++ post' ->
          (length pre <= length pre')%nat)
    /\ startIndex (location r) = len pre
    /\ endIndex (location r) = len pre + len keyword.
Proof.
  intro Hr.
  destruct (analyzeRisks_pushed now text r Hr)
    as [kws [i [kw [n [Hin [Hk ->]]]]]].
  destruct (firstKeyword_first _ _ _ _ Hk)
    as [earlier [later [-> [Hno [Hi Hne]]]]].
  rewrite Hi in Hne.
  destruct (indexOf_first _ _ Hne) as [pre [post [Hs [Hidx Hfirst]]]].
  exists earlier, kw, later, pre, post.
  cbn [category pushedFinding location startIndex endIndex] in *.
  rewrite Hi, Hidx. now repeat split.
Qed.

(** X3. A finding carries the label of its category as title and the
    summary of its category; its [originalText] neither begins nor ends
    with white space and holds at most 200 code units more than a keyword
    of the category; its [id] is [risk-], the key of the category, a dash
    and a clock reading. *)
Theorem analyzeRisks_fields (now : Clock) (text : jsstring) (r : RiskItem) :
  In r (analyzeRisks toLowerCase now text) ->
  title r = label (RISK_CATEGORIES (category r))
  /\ summary r = generateSummary (category r) []
  /\ (forall c t, originalText r = c :: t -> isWhiteSpace c = false)
  /\ (forall c t, originalText r = t ++ [c] -> isWhiteSpace c = false)
  /\ (exists keywords keyword,
        In (category r, keywords) RISK_KEYWORDS /\ In keyword keywords
        /\ len (originalText r) <= len keyword + 200)
  /\ (exists n, id r = lit "risk-" ++ categoryKey (category r) ++ lit "-"
                       ++ Number_toString (now n)).
Proof.
  intro Hr.
  destruct (analyzeRisks_pushed now text r Hr)
    as [kws [i [kw [n [Hin [Hk ->]]]]]].
  cbn [category pushedFinding title summary originalText id] in *.
  destruct (trim_spec (contextWindow text i kw)) as [Hhead [Hlast Hlen]].
  split; [reflexivity|].
  split; [now destruct (category _)|].
  split; [exact Hhead|]. split; [exact Hlast|]. split.
  - destruct (firstKeyword_first _ _ _ _ Hk)
      as [earlier [later [-> [_ [Hi Hne]]]]].
    exists (earlier ++ kw :: later), kw. split; [assumption|].
    split; [apply in_or_app; right; now left|].
    assert (0 <= i).
    { rewrite Hi in Hne. destruct (indexOf_first _ _ Hne)
        as [pre [post [_ [Hidx _]]]]. rewrite Hi, Hidx. unfold len. lia. }
    pose proof (contextWindow_length text kw i ltac:(assumption)).
    unfold len in *. lia.
  - now exists n.
Qed.

Lemma determineSeverity_cases (c : RiskCategory) (context : jsstring) :
  (determineSeverity toLowerCase c context = critical
   /\ (c = arbitration \/ c = liability_waiver))
  \/ determineSeverity toLowerCase c context = high
  \/ determineSeverity toLowerCase c context
     = defaultSeverity (RISK_CATEGORIES c).
Proof.
  unfold determineSeverity.
  destruct (RegExp_test CRITICAL_INDICATORS (toLowerCase context));
    destruct (RegExp_test HIGH_INDICATORS (toLowerCase context));
    destruct c; cbn; tauto.
Qed.

(** X4. The severity of a finding is critical, high or the default of its
    category: only arbitration and liability-waiver findings are critical,
    only jurisdiction findings are low, and only auto-renewal,
    data-retention and account-termination findings are medium. *)
Theorem analyzeRisks_severity_by_category (now : Clock) (text : jsstring)
  (r : RiskItem) :
  In r (analyzeRisks toLowerCase now text) ->
  (severity r = critical \/ severity r = high
   \/ severity r = defaultSeverity (RISK_CATEGORIES (category r)))
  /\ (severity r = critical ->
      category r = arbitration \/ category r = liability_waiver)
  /\ (severity r = low -> category r = jurisdiction)
  /\ (severity r = medium ->
      category r = auto_renewal \/ category r = data_retention
      \/ category r = account_termination).
Proof.
  intro Hr.
  destruct (analyzeRisks_pushed now text r Hr)
    as [kws [i [kw [n [_ [_ ->]]]]]].
  cbn [category pushedFinding severity].
  set (c := category _).
  destruct (determineSeverity_cases c (contextWindow text i kw))
    as [[-> Hc] | [-> | ->]].
  - repeat split; try tauto; discriminate.
  - repeat split; try tauto; discriminate.
  - destruct c; cbn; repeat split; try tauto; try discriminate.
Qed.

(** X5. The [id]s of the findings of one scan are pairwise distinct,
    whatever the clock reads. *)
Theorem analyzeRisks_ids_distinct (now : Clock) (text : jsstring) :
  NoDup (map id (analyzeRisks toLowerCase now text)).
Proof.
  destruct (scanRisks_found now text) as [Hnd _].
  assert (Hcat : NoDup (map category (analyzeRisks toLowerCase now text))).
  { apply (Permutation_NoDup
             (Permutation_map category
                (Permutation_sym (analyzeRisks_scanRisks now text)))).
    exact Hnd. }
  assert (Hid : forall r, In r (analyzeRisks toLowerCase now text) ->
            exists d, id r = lit "risk-" ++ categoryKey (category r)
                             ++ lit "-" ++ d).
  { intros r Hr.
    destruct (analyzeRisks_pushed now text r Hr)
      as [kws [i [kw [n [_ [_ ->]]]]]].
    cbn [category pushedFinding id]. now eexists. }
  revert Hcat Hid. generalize (analyzeRisks toLowerCase now text).
  induction l as [|r l IH]; intros Hcat Hid; cbn [map]; [constructor|].
  inversion Hcat as [|? ? Hnotin Hcat']; subst.
  constructor.
  - intro Hin. apply in_map_iff in Hin. destruct Hin as [r' [Heq Hr']].
    destruct (Hid r (or_introl eq_refl)) as [d Hd].
    destruct (Hid r' (or_intror Hr')) as [d' Hd'].
    rewrite Hd, Hd' in Heq. apply categoryKey_dash_inj in Heq.
    apply Hnotin. rewrite <- Heq. now apply in_map.
  - apply IH; [assumption|]. intros x Hx. apply Hid. now right.
Qed.

End ScanFindings.

Lemma analyzeRisks_reports_iff_witness :
  In data_sharing
     (map category
        (analyzeRisks asciiToLowerCase (frozenAt 1700000000000)
           (lit "We may SELL YOUR DATA to anyone."))).
Proof.
  apply (proj1 (analyzeRisks_reports_iff asciiToLowerCase
                  (frozenAt 1700000000000)
                  (lit "We may SELL YOUR DATA to anyone."))).
  exists (map lit [ "share with third parties"; "share your information";
                    "disclose to partners"; "sell your data";
                    "transfer your information"; "share with affiliates";
                    "provide to advertisers" ]%string),
         (lit "sell your data").
  split; [now left|]. split; [simpl; tauto|].
  exists (lit "we may "), (lit " to anyone."). reflexivity.
Defined.

(** Picks the first finding of a concrete run. *)
Ltac first_finding :=
  match goal with
  | |- exists r, In r ?l /\ _ =>
      let l' := eval vm_compute in l in
      match l' with
      | ?r0 :: _ =>
          exists r0;
          assert (Hin : In r0 l) by (vm_compute; left; reflexivity);
          split; [exact Hin|]
      end
  end.

Lemma analyzeRisks_location_witness :
  exists r,
    In r (analyzeRisks asciiToLowerCase (frozenAt 1700000000000)
            (lit "We may SELL YOUR DATA to anyone."))
    /\ exists earlier keyword later pre post,
         In (category r, earlier ++ keyword :: later) RISK_KEYWORDS
         /\ (forall k, In k earlier ->
               ~ occursIn
                   (asciiToLowerCase (lit "We may SELL YOUR DATA to anyone."))
                   (asciiToLowerCase k))
         /\ asciiToLowerCase (lit "We may SELL YOUR DATA to anyone.")
            = pre ++ asciiToLowerCase keyword ++ post
         /\ (forall pre' post',
               asciiToLowerCase (lit "We may SELL YOUR DATA to anyone.")
               = pre' ++ asciiToLowerCase keyword ++ post' ->
               (length pre <= length pre')%nat)
         /\ startIndex (location r) = len pre
         /\ endIndex (location r) = len pre + len keyword.
Proof.
  first_finding.
  exact (analyzeRisks_location asciiToLowerCase (frozenAt 1700000000000)
           (lit "We may SELL YOUR DATA to anyone.") _ Hin).
Defined.

Lemma analyzeRisks_fields_witness :
  exists r,
    In r (analyzeRisks asciiToLowerCase (frozenAt 1700000000000)
            (lit "We may SELL YOUR DATA to anyone."))
    /\ title r = lit "Data Sharing".
Proof.
  first_finding.
  destruct (analyzeRisks_fields asciiToLowerCase (frozenAt 1700000000000)
              (lit "We may SELL YOUR DATA to anyone.") _ Hin) as [Ht _].
  rewrite Ht. reflexivity.
Defined.

Lemma analyzeRisks_severity_by_category_witness :
  exists r,
    In r (analyzeRisks asciiToLowerCase (frozenAt 1700000000000)
            (lit "Venue shall be the courts of Delaware."))
    /\ (severity r = low -> category r = jurisdiction).
Proof.
  first_finding.
  destruct (analyzeRisks_severity_by_category asciiToLowerCase
              (frozenAt 1700000000000)
              (lit "Venue shall be the courts of Delaware.") _ Hin)
    as [_ [_ [Hl _]]].
  exact Hl.
Defined.

(* ================================================================== *)
(** * More on the scoring functions                                    *)
(* ================================================================== *)

Lemma calculateRiskScore_closed (risks : list RiskItem) :
  calculateRiskScore risks
  = Z.min 100 (baseScore risks
               + 15 * Z.of_nat (length (triggered (map category risks)))).
Proof.
  destruct risks as [|r risks]; [reflexivity|].
  unfold calculateRiskScore.
  replace (Z.of_nat (length (r :: risks)) =? 0) with false
    by (symmetry; apply Z.eqb_neq; simpl length; lia).
  rewrite fold_left_base.
  rewrite (fold_left_boost _ _ _ DANGEROUS_COMBINATIONS_boost).
  reflexivity.
Qed.

Lemma baseScore_perm (l l' : list RiskItem) :
  Permutation l l' -> baseScore l = baseScore l'.
Proof.
  unfold baseScore. induction 1; simpl; lia.
Qed.

Lemma hasAllCategories_mono (combo : DangerousCombination)
  (cats cats' : list RiskCategory) :
  incl cats cats' ->
  hasAllCategories combo cats = true -> hasAllCategories combo cats' = true.
Proof.
  rewrite !hasAllCategories_incl. intros H1 H2 c Hc. auto.
Qed.

Lemma triggered_mono (cats cats' : list RiskCategory) :
  incl cats cats' ->
  (length (triggered cats) <= length (triggered cats'))%nat.
Proof.
  intro Hincl. unfold triggered.
  induction DANGEROUS_COMBINATIONS as [|combo combos IH]; simpl; [lia|].
  destruct (hasAllCategories combo cats) eqn:E.
  - rewrite (hasAllCategories_mono _ _ _ Hincl E). simpl. lia.
  - destruct (hasAllCategories combo cats'); simpl; lia.
Qed.

Lemma triggered_perm (cats cats' : list RiskCategory) :
  Permutation cats cats' -> triggered cats = triggered cats'.
Proof.
  intro Hp. unfold triggered. apply filter_ext. intro combo.
  destruct (hasAllCategories combo cats) eqn:E.
  - symmetry. apply (hasAllCategories_mono _ cats); [|assumption].
    intros c Hc. now apply (Permutation_in _ Hp).
  - destruct (hasAllCategories combo cats') eqn:E'; [|reflexivity].
    rewrite <- E. apply (hasAllCategories_mono _ cats'); [|assumption].
    intros c Hc. now apply (Permutation_in _ (Permutation_sym Hp)).
Qed.

(** X6. The score does not depend on the order of the findings. *)
Theorem calculateRiskScore_perm (risks risks' : list RiskItem) :
  Permutation risks risks' ->
  calculateRiskScore risks = calculateRiskScore risks'.
Proof.
  intro Hp. rewrite !calculateRiskScore_closed.
  rewrite (baseScore_perm _ _ Hp).
  now rewrite (triggered_perm _ _ (Permutation_map category Hp)).
Qed.

Lemma calculateRiskScore_perm_witness :
  calculateRiskScore
    [ mkRiskItem [] arbitration critical [] [] [] (mkLocation 0 1);
      mkRiskItem [] liability_waiver high [] [] [] (mkLocation 2 3) ]
  = calculateRiskScore
      [ mkRiskItem [] liability_waiver high [] [] [] (mkLocation 2 3);
        mkRiskItem [] arbitration critical [] [] [] (mkLocation 0 1) ].
Proof.
  apply calculateRiskScore_perm. apply perm_swap.
Defined.

(** X7. One more finding never lowers the score; the score is 0 only for
    the empty list and at least 8 otherwise. *)
Theorem calculateRiskScore_grows (r : RiskItem) (risks : list RiskItem) :
  calculateRiskScore risks <= calculateRiskScore (r :: risks)
  /\ (calculateRiskScore risks = 0 <-> risks = [])
  /\ 8 <= calculateRiskScore (r :: risks).
Proof.
  rewrite !calculateRiskScore_closed.
  pose proof (baseScore_nonneg risks) as Hb.
  pose proof (severityRank_bounds (severity r)) as Hr.
  assert (Hcons : baseScore (r :: risks)
                  = severityRank (severity r) * 8 + baseScore risks)
    by reflexivity.
  pose proof (triggered_mono (map category risks)
                (map category (r :: risks))
                ltac:(intros c Hc; now right)) as Ht.
  split; [lia|]. split; [|lia].
  split.
  - intro H. destruct risks as [|x risks]; [reflexivity|]. exfalso.
    pose proof (baseScore_nonneg risks).
    pose proof (severityRank_bounds (severity x)).
    change (baseScore (x :: risks))
      with (severityRank (severity x) * 8 + baseScore risks) in H.
    lia.
  - intros ->. reflexivity.
Qed.

Lemma ladder_rank_inv (m : Z) :
  1 <= m <= 4 -> severityRank (ladder m) = m.
Proof.
  intro H. unfold ladder.
  destruct (Z.geb_spec m 4); [simpl; lia|].
  destruct (Z.geb_spec m 3); [simpl; lia|].
  destruct (Z.geb_spec m 2); simpl; lia.
Qed.

Lemma calculateOverallSeverity_rank (risks : list RiskItem) :
  severityRank (calculateOverallSeverity risks) = Z.max 1 (maxRank risks).
Proof.
  destruct risks as [|r risks]; [reflexivity|].
  unfold calculateOverallSeverity. cbn [map]. rewrite maxRank_fold.
  fold (ladder (maxRank (r :: risks))).
  destruct (maxRank_attained (r :: risks) ltac:(discriminate))
    as [x [_ Hx]].
  pose proof (severityRank_bounds (severity x)).
  rewrite ladder_rank_inv by lia. lia.
Qed.

Lemma severityRank_inj (a b : RiskSeverity) :
  severityRank a = severityRank b -> a = b.
Proof. destruct a, b; simpl; intro H; try reflexivity; lia. Qed.

Lemma maxRank_app (l1 l2 : list RiskItem) :
  maxRank (l1 ++ l2) = Z.max (maxRank l1) (maxRank l2).
Proof.
  unfold maxRank. induction l1 as [|r l1 IH]; simpl.
  - assert (H : 0 <= fold_right
              (fun r acc => Z.max (severityRank (severity r)) acc) 0 l2).
    { induction l2 as [|y l2 IH2]; simpl; lia. }
    lia.
  - rewrite IH. lia.
Qed.

(** X8. The overall severity of findings put together is the greater of
    the overall severities of the parts: adding findings never lowers it,
    and it does not depend on their order. *)
Theorem calculateOverallSeverity_app (l1 l2 : list RiskItem) :
  severityRank (calculateOverallSeverity (l1 ++ l2))
  = Z.max (severityRank (calculateOverallSeverity l1))
          (severityRank (calculateOverallSeverity l2))
  /\ calculateOverallSeverity (l1 ++ l2) = calculateOverallSeverity (l2 ++ l1).
Proof.
  assert (H : forall a b,
             severityRank (calculateOverallSeverity (a ++ b))
             = Z.max (severityRank (calculateOverallSeverity a))
                     (severityRank (calculateOverallSeverity b))).
  { intros a b. rewrite !calculateOverallSeverity_rank, maxRank_app. lia. }
  split; [apply H|].
  apply severityRank_inj. rewrite !H. lia.
Qed.

Lemma detectDangerousCombinations_fold (cats : list RiskCategory)
  (combos : list DangerousCombination) (warnings : list jsstring) :
  fold_left (fun warnings combo =>
               if hasAllCategories combo cats
               then warnings ++ [warning combo]
               else warnings)
            combos warnings
  = warnings
    ++ map warning (filter (fun combo => hasAllCategories combo cats) combos).
Proof.
  revert warnings. induction combos as [|combo combos IH]; intro warnings;
    cbn [fold_left filter].
  - cbn. now rewrite app_nil_r.
  - rewrite IH. destruct (hasAllCategories combo cats); [|reflexivity].
    cbn [map]. now rewrite <- app_assoc.
Qed.

Lemma two_categories_two_findings (risks : list RiskItem)
  (a b : RiskCategory) :
  a <> b -> In a (map category risks) -> In b (map category risks) ->
  16 <= baseScore risks.
Proof.
  intros Hab Ha Hb.
  destruct risks as [|x [|y risks]].
  - destruct Ha.
  - simpl in Ha, Hb. destruct Ha as [Ha | []], Hb as [Hb | []]. congruence.
  - change (baseScore (x :: y :: risks))
      with (severityRank (severity x) * 8
            + (severityRank (severity y) * 8 + baseScore risks)).
    pose proof (severityRank_bounds (severity x)).
    pose proof (severityRank_bounds (severity y)).
    pose proof (baseScore_nonneg risks). lia.
Qed.

(** X9. The warnings are those of the rules whose categories are all
    among the findings, in the order of the rules, at most three; each
    warning stands for 15 points of the score, and a list of findings that
    draws a warning scores at least 31. *)
Theorem detectDangerousCombinations_spec (risks : list RiskItem) :
  detectDangerousCombinations risks
  = map warning (triggered (map category risks))
  /\ (length (detectDangerousCombinations risks) <= 3)%nat
  /\ calculateRiskScore risks
     = Z.min 100
         (baseScore risks
          + 15 * Z.of_nat (length (detectDangerousCombinations risks)))
  /\ (detectDangerousCombinations risks <> [] ->
      31 <= calculateRiskScore risks).
Proof.
  assert (Hw : detectDangerousCombinations risks
               = map warning (triggered (map category risks))).
  { unfold detectDangerousCombinations. now rewrite detectDangerousCombinations_fold. }
  assert (Hlen : (length (triggered (map category risks)) <= 3)%nat).
  { unfold triggered. apply (filter_length_le _ DANGEROUS_COMBINATIONS). }
  split; [exact Hw|]. rewrite Hw, length_map. split; [exact Hlen|].
  split; [apply calculateRiskScore_closed|].
  intro Hne. rewrite calculateRiskScore_closed.
  destruct (triggered (map category risks)) as [|combo rest] eqn:Ht;
    [now contradiction Hne|].
  assert (Hin : In combo (triggered (map category risks)))
    by (rewrite Ht; now left).
  unfold triggered in Hin. apply filter_In in Hin. destruct Hin as [Hc Hall].
  apply hasAllCategories_incl in Hall.
  assert (Hbase : 16 <= baseScore risks).
  { unfold DANGEROUS_COMBINATIONS in Hc. simpl in Hc.
    destruct Hc as [<- | [<- | [<- | []]]]; cbn [categories] in Hall.
    - apply (two_categories_two_findings risks arbitration liability_waiver);
        [discriminate | |]; apply Hall; simpl; tauto.
    - apply (two_categories_two_findings risks data_sharing
               third_party_access);
        [discriminate | |]; apply Hall; simpl; tauto.
    - apply (two_categories_two_findings risks auto_renewal
               account_termination);
        [discriminate | |]; apply Hall; simpl; tauto. }
  cbn [length]. lia.
Qed.

Lemma detectDangerousCombinations_spec_witness :
  31 <= calculateRiskScore
          [ mkRiskItem [] auto_renewal medium [] [] [] (mkLocation 0 1);
            mkRiskItem [] account_termination medium [] [] []
              (mkLocation 2 3) ].
Proof.
  destruct (detectDangerousCombinations_spec
    [ mkRiskItem [] auto_renewal medium [] [] [] (mkLocation 0 1);
      mkRiskItem [] account_termination medium [] [] [] (mkLocation 2 3) ])
    as [_ [_ [_ H]]].
  apply H. vm_compute. discriminate.
Defined.

(** X10. The red-flag escalation never lowers the severity: the overall
    severity of the enhanced result ranks at least as high as the severity
    computed from the findings, hence as every finding; with two or more
    red flags it is at least high. *)
Theorem analyzeRisksEnhanced_severity_floor
  (toLowerCase : jsstring -> jsstring) (now : Clock) (text : jsstring) :
  let result := analyzeRisksEnhanced toLowerCase now text in
  severityRank (calculateOverallSeverity (Analysis.risks result))
  <= severityRank (Analysis.overallSeverity result)
  /\ (forall r, In r (Analysis.risks result) ->
        severityRank (severity r)
        <= severityRank (Analysis.overallSeverity result))
  /\ (2 <= Z.of_nat (length (Analysis.redFlags result)) ->
      3 <= severityRank (Analysis.overallSeverity result)).
Proof.
  cbv zeta. unfold analyzeRisksEnhanced.
  cbn [Analysis.risks Analysis.overallSeverity Analysis.redFlags].
  set (risks := analyzeRisks toLowerCase now text).
  set (flags := Z.of_nat (length (detectRedFlags text))).
  assert (Hfloor :
    severityRank (calculateOverallSeverity risks)
    <= severityRank
         (if (flags >=? 3)
             && negb (RiskSeverity_eqb (calculateOverallSeverity risks)
                                       critical)
          then critical
          else if (flags >=? 2)
                  && (severityRank (calculateOverallSeverity risks) <? 3)
               then high
               else calculateOverallSeverity risks)).
  { destruct (flags >=? 3), (flags >=? 2),
      (calculateOverallSeverity risks); cbn; lia. }
  split; [exact Hfloor|]. split.
  - intros r Hr. eapply Z.le_trans; [|exact Hfloor].
    rewrite calculateOverallSeverity_rank.
    pose proof (maxRank_upper risks r Hr). lia.
  - intro H2. destruct (Z.geb_spec flags 3), (Z.geb_spec flags 2);
      try lia; destruct (calculateOverallSeverity risks); cbn; lia.
Qed.

Lemma analyzeRisksEnhanced_severity_floor_witness :
  3 <= severityRank
         (Analysis.overallSeverity
            (analyzeRisksEnhanced asciiToLowerCase (frozenAt 1700000000000)
               (lit "No refunds are given, at our sole discretion.")))
.
Proof.
  destruct (analyzeRisksEnhanced_severity_floor asciiToLowerCase
              (frozenAt 1700000000000)
              (lit "No refunds are given, at our sole discretion."))
    as [_ [_ H]].
  apply H. vm_compute. discriminate.
Defined.

(** X11. For a fixed industry the percentile never decreases when the
    score increases, and the comparison never moves back from worse to
    average or from average to better. *)
Theorem compareToAverage_monotone (industry : jsstring) (score1 score2 : Z) :
  score1 <= score2 ->
  percentile (compareToAverage score1 industry)
  <= percentile (compareToAverage score2 industry)
  /\ (comparison (compareToAverage score1 industry) = worse ->
      comparison (compareToAverage score2 industry) = worse)
  /\ (comparison (compareToAverage score2 industry) = better ->
      comparison (compareToAverage score1 industry) = better).
Proof.
  intro Hle. unfold compareToAverage.
  destruct (jsOr (getProperty INDUSTRY_AVERAGES industry)
                 (getProperty INDUSTRY_AVERAGES (lit "default")))
    as [a| |]; cbn [subtract].
  - destruct (Z.ltb_spec (score1 - a) (-15));
      [|destruct (Z.gtb_spec (score1 - a) 15)];
      (destruct (Z.ltb_spec (score2 - a) (-15));
        [|destruct (Z.gtb_spec (score2 - a) 15)]);
      cbn [comparison percentile]; repeat split; intros;
      try reflexivity; try discriminate; lia.
  - cbn. repeat split; intros; try discriminate; lia.
  - cbn. repeat split; intros; try discriminate; lia.
Qed.

Lemma compareToAverage_monotone_witness :
  percentile (compareToAverage 16 (lit "finance"))
  <= percentile (compareToAverage 90 (lit "finance")).
Proof.
  apply (compareToAverage_monotone (lit "finance") 16 90). lia.
Defined.

(* ================================================================== *)
(** * More on the red-flag scanner                                     *)
(* ================================================================== *)

(** X12. Every red flag returned is a non-empty piece of the text as it
    stands, matched by one of the patterns, and there are at most ten. *)
Theorem detectRedFlags_flags (text : jsstring) :
  (length (detectRedFlags text) <= 10)%nat
  /\ (forall flag, In flag (detectRedFlags text) ->
        flag <> [] /\ occursIn text flag
        /\ exists pattern,
             In pattern RED_FLAGS /\ matches pattern flag
             /\ String_match text pattern = Some flag).
Proof.
  assert (Hflat : detectRedFlags text = flat_map (matchText text) RED_FLAGS).
  { unfold detectRedFlags. now rewrite detectRedFlags_fold. }
  rewrite Hflat. split.
  - assert (H : forall patterns,
               (length (flat_map (matchText text) patterns)
                <= length patterns)%nat).
    { induction patterns as [|p patterns IH]; cbn [flat_map length];
        [lia|].
      rewrite length_app. unfold matchText at 1.
      destruct (String_match text p); cbn [length]; lia. }
    apply (H RED_FLAGS).
  - intros flag Hin. apply in_flat_map in Hin.
    destruct Hin as [pattern [Hp Hm]]. unfold matchText in Hm.
    destruct (String_match text pattern) as [m|] eqn:E; [|destruct Hm].
    destruct Hm as [<- | []].
    destruct (execFrom_sound _ _ _ E) as [pre [post [Hs [Hmatch _]]]].
    split; [|split].
    + intros ->. apply matches_nil_nullable in Hmatch; [|reflexivity].
      revert Hmatch. clear -Hp. unfold RED_FLAGS in Hp. simpl in Hp.
      repeat (destruct Hp as [<- | Hp]; [vm_compute; discriminate|]).
      destruct Hp.
    + now exists pre, post.
    + now exists pattern.
Qed.

Lemma detectRedFlags_flags_witness :
  lit "binding arbitration" <> []
  /\ occursIn (lit "Subject to binding arbitration in Delaware.")
              (lit "binding arbitration").
Proof.
  destruct (detectRedFlags_flags
              (lit "Subject to binding arbitration in Delaware."))
    as [_ H].
  destruct (H (lit "binding arbitration")) as [H1 [H2 _]].
  - vm_compute. left. reflexivity.
  - split; assumption.
Defined.

Section CaseMapping.

(** A mapping of code units that changes at most the case of Basic Latin
    letters. *)
Variable f : Z -> Z.
Hypothesis f_canonicalize : forall c, canonicalize (f c) = canonicalize c.
Hypothesis f_isWhiteSpace : forall c, isWhiteSpace (f c) = isWhiteSpace c.

Lemma wsPlus_map (s : jsstring) (k k' : jsstring -> option jsstring) :
  (forall s', k' (map f s') = option_map (map f) (k s')) ->
  wsPlus (map f s) k' = option_map (map f) (wsPlus s k).
Proof.
  intro Hk. induction s as [|c s IH]; cbn [map wsPlus]; [reflexivity|].
  rewrite f_isWhiteSpace. destruct (isWhiteSpace c); [|reflexivity].
  rewrite IH. destruct (wsPlus s k); [reflexivity | apply Hk].
Qed.

Lemma backtrack_map (r : regex) (s : jsstring)
  (k k' : jsstring -> option jsstring) :
  (forall s', k' (map f s') = option_map (map f) (k s')) ->
  backtrack r (map f s) k' = option_map (map f) (backtrack r s k).
Proof.
  revert s k k'.
  induction r as [|c| |r1 IH1 r2 IH2|r1 IH1 r2 IH2|r1 IH1];
    intros s k k' Hk; cbn [backtrack].
  - apply Hk.
  - destruct s as [|x s]; cbn [map]; [reflexivity|].
    rewrite f_canonicalize.
    destruct (canonicalize c =? canonicalize x); [apply Hk | reflexivity].
  - now apply wsPlus_map.
  - apply IH1. intro s'. now apply IH2.
  - rewrite (IH1 s k k' Hk). destruct (backtrack r1 s k); [reflexivity|].
    now apply IH2.
  - rewrite (IH1 s k k' Hk). destruct (backtrack r1 s k); [reflexivity|].
    apply Hk.
Qed.

Lemma execFrom_map (r : regex) (s : jsstring) :
  execFrom r (map f s) = option_map (map f) (execFrom r s).
Proof.
  induction s as [|x s IH].
  - rewrite (execFrom_eq r (map f [])), (execFrom_eq r []).
    rewrite (backtrack_map r [] Some Some) by reflexivity.
    destruct (backtrack r [] Some) as [rest|]; cbn [option_map];
      [|reflexivity].
    now rewrite !length_map, <- firstn_map.
  - rewrite (execFrom_eq r (map f (x :: s))), (execFrom_eq r (x :: s)).
    rewrite (backtrack_map r (x :: s) Some Some) by reflexivity.
    destruct (backtrack r (x :: s) Some) as [rest|]; cbn [option_map].
    + now rewrite !length_map, <- firstn_map.
    + cbn [map]. exact IH.
Qed.

Lemma detectRedFlags_map (text : jsstring) :
  detectRedFlags (map f text) = map (map f) (detectRedFlags text).
Proof.
  unfold detectRedFlags. rewrite !detectRedFlags_fold. cbn [app].
  induction RED_FLAGS as [|p patterns IH]; cbn [flat_map map];
    [reflexivity|].
  rewrite map_app, IH. f_equal. unfold matchText, String_match.
  rewrite execFrom_map. now destruct (execFrom p text).
Qed.

End CaseMapping.

(** X13. Red-flag detection does not depend on the case of Basic Latin
    letters: a text in lower case or in upper case yields the flags of the
    original text, lower-cased or upper-cased, in the same number and
    order. *)
Theorem detectRedFlags_case_insensitive (text : jsstring) :
  detectRedFlags (map asciiLower text)
  = map (map asciiLower) (detectRedFlags text)
  /\ detectRedFlags (map asciiUpper text)
     = map (map asciiUpper) (detectRedFlags text)
  /\ length (detectRedFlags (map asciiUpper text))
     = length (detectRedFlags (map asciiLower text)).
Proof.
  pose proof (detectRedFlags_map asciiLower asciiLower_canonicalize
                asciiLower_isWhiteSpace text) as Hl.
  pose proof (detectRedFlags_map asciiUpper asciiUpper_canonicalize
                asciiUpper_isWhiteSpace text) as Hu.
  split; [exact Hl|]. split; [exact Hu|].
  now rewrite Hl, Hu, !length_map.
Qed.

(* ================================================================== *)
(** * The overall summary                                              *)
(* ================================================================== *)

Lemma trim_found (body : jsstring) :
  trim (lit "Found " ++ body ++ lit ". ") = lit "Found " ++ body ++ lit ".".
Proof.
  unfold trim. change (trimStart (lit "Found " ++ body ++ lit ". "))
    with (lit "Found " ++ body ++ lit ". ").
  unfold trimEnd. rewrite !rev_app_distr.
  change (rev (lit ". ")) with [32; 46]. cbn [app].
  change (trimStart (32 :: 46 :: rev body ++ rev (lit "Found ")))
    with (46 :: rev body ++ rev (lit "Found ")).
  change (46 :: rev body ++ rev (lit "Found "))
    with ([46] ++ rev body ++ rev (lit "Found ")).
  rewrite !rev_app_distr, !rev_involutive, <- app_assoc. reflexivity.
Qed.

(** Brings a summary under [trim_found], [body] being what follows
    "potential risk". *)
Ltac summary_case n body :=
  exists body;
  match goal with
  | |- trim ?x = _ =>
      replace x with (lit "Found " ++ (n ++ lit " potential risk" ++ body)
                      ++ lit ". ")
        by (repeat rewrite <- app_assoc; reflexivity)
  end;
  rewrite trim_found; repeat rewrite <- app_assoc; reflexivity.

(** X14. The summary is the sentence "No significant risks detected in
    this agreement." exactly for the empty list; for any other list it is
    "Found", the number of findings and "potential risk", and it ends with
    a full stop. *)
Theorem generateOverallSummary_shape (risks : list RiskItem) :
  (generateOverallSummary risks
   = lit "No significant risks detected in this agreement."
   <-> risks = [])
  /\ (risks <> [] ->
      exists body,
        generateOverallSummary risks
        = lit "Found " ++ Number_toString (Z.of_nat (length risks))
          ++ lit " potential risk" ++ body ++ lit ".").
Proof.
  assert (Hshape : risks <> [] ->
      exists body,
        generateOverallSummary risks
        = lit "Found " ++ Number_toString (Z.of_nat (length risks))
          ++ lit " potential risk" ++ body ++ lit ".").
  { intro Hne. unfold generateOverallSummary.
    replace (Z.of_nat (length risks) =? 0) with false
      by (symmetry; apply Z.eqb_neq; destruct risks; [congruence|];
          simpl length; lia).
    set (n := Number_toString (Z.of_nat (length risks))).
    set (u := unlessOne (Z.of_nat (length risks)) "s").
    set (nc := Z.of_nat (length (filter
                 (fun r => RiskSeverity_eqb (severity r) critical) risks))).
    set (nh := Z.of_nat (length (filter
                 (fun r => RiskSeverity_eqb (severity r) high) risks))).
    change (lit " attention. ") with (lit " attention" ++ lit ". ").
    destruct (nc >? 0), (nh >? 0).
    - summary_case n
        (u ++ lit ". " ++ Number_toString nc ++ lit " critical issue"
         ++ unlessOne nc "s" ++ lit " require" ++ ifOne nc "s"
         ++ lit " attention" ++ lit ". " ++ Number_toString nh
         ++ lit " high-priority concern" ++ unlessOne nh "s").
    - summary_case n
        (u ++ lit ". " ++ Number_toString nc ++ lit " critical issue"
         ++ unlessOne nc "s" ++ lit " require" ++ ifOne nc "s"
         ++ lit " attention").
    - summary_case n
        (u ++ lit ". " ++ Number_toString nh
         ++ lit " high-priority concern" ++ unlessOne nh "s").
    - summary_case n u. }
  split; [|exact Hshape]. split.
  - intro H. destruct risks as [|r risks]; [reflexivity|]. exfalso.
    destruct (Hshape ltac:(discriminate)) as [body Hb].
    rewrite Hb in H. discriminate H.
  - intros ->. reflexivity.
Qed.

Lemma generateOverallSummary_shape_witness :
  exists body,
    generateOverallSummary
      [ mkRiskItem [] jurisdiction low [] [] [] (mkLocation 0 9) ]
    = lit "Found " ++ Number_toString 1 ++ lit " potential risk" ++ body
      ++ lit ".".
Proof.
  destruct (generateOverallSummary_shape
    [ mkRiskItem [] jurisdiction low [] [] [] (mkLocation 0 9) ])
    as [_ H].
  apply H. discriminate.
Defined.

(* ================================================================== *)
(** * The click interceptor                                            *)
(* ================================================================== *)

Lemma analyzeRisks_nil_iff (toLowerCase : jsstring -> jsstring)
  (now : Clock) (text : jsstring) :
  analyzeRisks toLowerCase now text = []
  <-> (forall c keywords keyword,
         In (c, keywords) RISK_KEYWORDS -> In keyword keywords ->
         ~ occursIn (toLowerCase text) (toLowerCase keyword)).
Proof.
  split.
  - intros Hnil c kws kw He Hk Ho.
    pose proof (proj2 (analyzeRisks_category_iff toLowerCase now text c)
                  (ex_intro _ kws (ex_intro _ kw (conj He (conj Hk Ho)))))
      as Hin.
    rewrite Hnil in Hin. destruct Hin.
  - intro H. unfold analyzeRisks. rewrite (scanRisks_eq toLowerCase).
    rewrite scan_fold_nothing by exact H. reflexivity.
Qed.

(** X15. While the interceptor is enabled, a click goes through to the
    original action exactly when no keyword of any category occurs in the
    page text, and opens the warning modal with the enhanced analysis
    otherwise. *)
Theorem handleInterceptedClick_spec (toLowerCase : jsstring -> jsstring)
  (now : Clock) (text : jsstring) :
  (handleInterceptedClick toLowerCase now true text = OriginalAction
   <-> (forall c keywords keyword,
          In (c, keywords) RISK_KEYWORDS -> In keyword keywords ->
          ~ occursIn (toLowerCase text) (toLowerCase keyword)))
  /\ (handleInterceptedClick toLowerCase now true text <> OriginalAction ->
      handleInterceptedClick toLowerCase now true text
      = WarningModal (analyzeRisksEnhanced toLowerCase now text))
  /\ handleInterceptedClick toLowerCase now false text = NotIntercepted.
Proof.
  assert (Hr : Analysis.risks (analyzeRisksEnhanced toLowerCase now text)
               = analyzeRisks toLowerCase now text) by reflexivity.
  unfold handleInterceptedClick. cbn [negb]. rewrite Hr.
  rewrite <- (analyzeRisks_nil_iff toLowerCase now text).
  destruct (analyzeRisks toLowerCase now text) as [|r risks].
  - change (Z.of_nat (length (@nil RiskItem)) =? 0) with true. cbn iota.
    split; [split; reflexivity|].
    split; [intro H; exfalso; apply H; reflexivity | reflexivity].
  - replace (Z.of_nat (length (r :: risks)) =? 0) with false
      by (symmetry; apply Z.eqb_neq; cbn [length]; lia).
    split; [split; intro H; discriminate H|].
    split; [intros _; reflexivity | reflexivity].
Qed.

Lemma handleInterceptedClick_spec_witness :
  handleInterceptedClick asciiToLowerCase (frozenAt 1700000000000) true
    (lit "We may SELL YOUR DATA to anyone.")
  = WarningModal
      (analyzeRisksEnhanced asciiToLowerCase (frozenAt 1700000000000)
         (lit "We may SELL YOUR DATA to anyone.")).
Proof.
  destruct (handleInterceptedClick_spec asciiToLowerCase
              (frozenAt 1700000000000)
              (lit "We may SELL YOUR DATA to anyone.")) as [_ [H _]].
  apply H. vm_compute. discriminate.
Defined.

(** X16. Red flags alone never open the warning modal: on a text without
    any keyword but with three or more red flags the enhanced analysis
    reports critical severity together with no finding, score 0 and the
    summary of the empty case, and the click goes through. *)
Theorem red_flags_without_keywords (toLowerCase : jsstring -> jsstring)
  (now : Clock) (text : jsstring) :
  (forall c keywords keyword,
     In (c, keywords) RISK_KEYWORDS -> In keyword keywords ->
     ~ occursIn (toLowerCase text) (toLowerCase keyword)) ->
  (3 <= length (detectRedFlags text))%nat ->
  let result := analyzeRisksEnhanced toLowerCase now text in
  Analysis.overallSeverity result = critical
  /\ Analysis.risks result = []
  /\ Analysis.score result = 0
  /\ Analysis.summary result
     = lit "No significant risks detected in this agreement."
  /\ handleInterceptedClick toLowerCase now true text = OriginalAction.
Proof.
  intros Hno Hflags result.
  assert (Hr : analyzeRisks toLowerCase now text = [])
    by (apply (analyzeRisks_nil_iff toLowerCase now text); exact Hno).
  subst result. unfold handleInterceptedClick, analyzeRisksEnhanced.
  rewrite Hr.
  cbn [Analysis.risks Analysis.score Analysis.summary
       Analysis.overallSeverity negb].
  replace (Z.of_nat (length (detectRedFlags text)) >=? 3) with true
    by (symmetry; apply Z.geb_le; lia).
  split; [reflexivity|]. split; [reflexivity|]. split; [reflexivity|].
  split; reflexivity.
Qed.

Lemma red_flags_without_keywords_witness :
  Analysis.overallSeverity
    (analyzeRisksEnhanced asciiToLowerCase (frozenAt 1700000000000)
       (lit "You waive any claims, indemnify and hold harmless the company, and get no refunds ever."))
  = critical
  /\ handleInterceptedClick asciiToLowerCase (frozenAt 1700000000000) true
       (lit "You waive any claims, indemnify and hold harmless the company, and get no refunds ever.")
     = OriginalAction.
Proof.
  destruct (red_flags_without_keywords asciiToLowerCase
              (frozenAt 1700000000000)
              (lit "You waive any claims, indemnify and hold harmless the company, and get no refunds ever."))
    as [H1 [_ [_ [_ H5]]]].
  - apply noKeywordFound_spec. vm_compute. reflexivity.
  - vm_compute. lia.
  - split; assumption.
Defined.

(* ================================================================== *)
(** * The prompt of the remote analysis                                *)
(* ================================================================== *)

Lemma jsstring_eqb_eq (a b : jsstring) : jsstring_eqb a b = true <-> a = b.
Proof.
  revert b. induction a as [|x a IH]; destruct b as [|y b]; simpl;
    try (split; [discriminate | discriminate]); [tauto|].
  rewrite andb_true_iff, Z.eqb_eq, IH. split.
  - intros [-> ->]. reflexivity.
  - intro H. injection H as -> ->. tauto.
Qed.

(** X17. [validateCategory] and [validateSeverity] read a key back to the
    value it names, and send every other string (a key in another case, an
    unknown word, the empty string) to [liability_waiver] and to [medium]. *)
Theorem validate_round_trip :
  (forall c, validateCategory (categoryKey c) = c)
  /\ (forall s, validateSeverity (severityKey s) = s)
  /\ (forall str, (forall c, str <> categoryKey c) ->
        validateCategory str = liability_waiver)
  /\ (forall str, (forall s, str <> severityKey s) ->
        validateSeverity str = medium).
Proof.
  split; [intro c; now destruct c|].
  split; [intro s; now destruct s|].
  split.
  - intros str H. unfold validateCategory.
    destruct (find _ validCategories) as [c|] eqn:E; [|reflexivity].
    apply find_some in E. destruct E as [_ E].
    apply jsstring_eqb_eq in E. symmetry in E. now apply H in E.
  - intros str H. unfold validateSeverity.
    destruct (find _ validSeverities) as [s|] eqn:E; [|reflexivity].
    apply find_some in E. destruct E as [_ E].
    apply jsstring_eqb_eq in E. symmetry in E. now apply H in E.
Qed.

Lemma validate_round_trip_witness :
  validateCategory (lit "Arbitration") = liability_waiver.
Proof.
  destruct validate_round_trip as [_ [_ [H _]]].
  apply H. intro c. destruct c; vm_compute; discriminate.
Defined.

Lemma substring_in_range (s : jsstring) (a b : Z) :
  0 <= a <= b -> b <= len s ->
  substring s a b = firstn (Z.to_nat (b - a)) (skipn (Z.to_nat a) s).
Proof.
  intros Hab Hb. unfold substring. cbv zeta.
  replace (Z.min (Z.max a 0) (len s)) with a by lia.
  replace (Z.min (Z.max b 0) (len s)) with b by lia.
  replace (Z.max a b) with b by lia.
  replace (Z.min a b) with a by lia.
  reflexivity.
Qed.

(** X18. The prompt quotes a text of at most 12000 code units in full;
    of a longer text it keeps the first 6000 and the last 6000 code units
    around a notice, 12038 code units in all, so that the prompt never
    exceeds 12216 code units. *)
Theorem buildAnalysisPrompt_bounded (text : jsstring) :
  (len text <= 12000 -> truncatedText text = text)
  /\ (12000 < len text ->
      truncatedText text
      = firstn (Z.to_nat 6000) text ++ truncationNotice
        ++ skipn (Z.to_nat (len text - 6000)) text
      /\ len (truncatedText text) = 12038)
  /\ occursIn (buildAnalysisPrompt text) (truncatedText text)
  /\ len (buildAnalysisPrompt text) <= 12216.
Proof.
  assert (Hshort : len text <= 12000 -> truncatedText text = text).
  { intro H. unfold truncatedText. cbv zeta.
    destruct (Z.gtb_spec (len text) 12000); [lia | reflexivity]. }
  assert (Hlong : 12000 < len text ->
      truncatedText text
      = firstn (Z.to_nat 6000) text ++ truncationNotice
        ++ skipn (Z.to_nat (len text - 6000)) text
      /\ len (truncatedText text) = 12038).
  { intro H. unfold truncatedText. cbv zeta.
    destruct (Z.gtb_spec (len text) 12000); [|lia].
    change (12000 / 2) with 6000.
    rewrite (substring_in_range text 0 6000) by lia.
    rewrite (substring_in_range text (len text - 6000) (len text)) by lia.
    change (6000 - 0) with 6000. change (Z.to_nat 0) with 0%nat.
    cbn [skipn].
    assert (Hl : len (skipn (Z.to_nat (len text - 6000)) text) = 6000).
    { unfold len in *. rewrite length_skipn. lia. }
    rewrite (firstn_all2 (n := Z.to_nat (len text - (len text - 6000)))
               (skipn (Z.to_nat (len text - 6000)) text))
      by (unfold len in *; lia).
    split; [reflexivity|].
    assert (Hf : len (firstn (Z.to_nat 6000) text) = 6000).
    { unfold len in *. rewrite length_firstn. lia. }
    assert (Hn : len truncationNotice = 38) by reflexivity.
    unfold len in *. rewrite !length_app. lia. }
  split; [exact Hshort|]. split; [exact Hlong|]. split.
  - unfold buildAnalysisPrompt.
    exists (lit "Analyze the following legal agreement and identify potential risks for consumers:"
            ++ [10; 10] ++ lit "---" ++ [10]),
      ([10] ++ lit "---" ++ [10; 10]
       ++ lit "Identify all significant risks and provide your analysis in the required JSON format.").
    repeat rewrite <- app_assoc. reflexivity.
  - assert (Hlen : len (truncatedText text) <= 12038).
    { destruct (Z.le_gt_cases (len text) 12000) as [H | H].
      - rewrite (Hshort H). lia.
      - destruct (Hlong H) as [_ ->]. lia. }
    assert (Hhead : len (lit "Analyze the following legal agreement and identify potential risks for consumers:") = 81)
      by reflexivity.
    assert (Hfoot : len (lit "Identify all significant risks and provide your analysis in the required JSON format.") = 85)
      by reflexivity.
    assert (Hsep : len (lit "---") = 3) by reflexivity.
    unfold buildAnalysisPrompt, len in *. rewrite !length_app.
    cbn [length]. lia.
Qed.

Lemma buildAnalysisPrompt_bounded_witness :
  truncatedText (lit "By using the service you agree to binding arbitration.")
  = lit "By using the service you agree to binding arbitration.".
Proof.
  destruct (buildAnalysisPrompt_bounded
              (lit "By using the service you agree to binding arbitration."))
    as [H _].
  apply H. vm_compute. discriminate.
Defined.

(* ================================================================== *)
(** * Text extraction                                                  *)
(* ================================================================== *)

Lemma collapseWhitespace_singleSpaced (inRun : bool) (s : jsstring) :
  singleSpaced inRun (collapseWhitespace inRun s) = true.
Proof.
  revert inRun. induction s as [|c s IH]; intro inRun; [reflexivity|].
  cbn [collapseWhitespace]. destruct (isWhiteSpace c) eqn:Hc.
  - destruct inRun; [apply IH|].
    cbn [singleSpaced]. change (isWhiteSpace 32) with true.
    cbn. apply IH.
  - cbn [singleSpaced]. rewrite Hc. apply IH.
Qed.

Lemma singleSpaced_weaken (b : bool) (s : jsstring) :
  singleSpaced b s = true -> singleSpaced false s = true.
Proof.
  destruct s as [|c s]; [reflexivity|]. cbn [singleSpaced].
  destruct (isWhiteSpace c); [|trivial].
  rewrite !andb_true_iff. intros [[H1 _] H2]. now rewrite H1, H2.
Qed.

Lemma singleSpaced_skipn (b : bool) (k : nat) (s : jsstring) :
  singleSpaced b s = true -> singleSpaced false (skipn k s) = true.
Proof.
  revert b s. induction k as [|k IH]; intros b s H.
  - now apply (singleSpaced_weaken b).
  - destruct s as [|c s]; [reflexivity|]. cbn [skipn].
    cbn [singleSpaced] in H. destruct (isWhiteSpace c).
    + apply andb_true_iff in H. destruct H as [_ H]. now apply (IH true).
    + now apply (IH false).
Qed.

Lemma singleSpaced_firstn (b : bool) (k : nat) (s : jsstring) :
  singleSpaced b s = true -> singleSpaced b (firstn k s) = true.
Proof.
  revert b s. induction k as [|k IH]; intros b s H; [reflexivity|].
  destruct s as [|c s]; [reflexivity|]. cbn [firstn singleSpaced] in *.
  destruct (isWhiteSpace c).
  - apply andb_true_iff in H. destruct H as [H1 H2].
    rewrite H1. now apply IH.
  - now apply IH.
Qed.

Lemma singleSpaced_In (b : bool) (s : jsstring) (c : Z) :
  singleSpaced b s = true -> In c s -> isWhiteSpace c = true -> c = 32.
Proof.
  revert b. induction s as [|x s IH]; intros b H Hin Hc; [destruct Hin|].
  cbn [singleSpaced] in H. destruct Hin as [-> | Hin].
  - rewrite Hc in H. rewrite !andb_true_iff in H.
    destruct H as [[H _] _]. now apply Z.eqb_eq.
  - destruct (isWhiteSpace x).
    + apply andb_true_iff in H. destruct H as [_ H]. now apply (IH true).
    + now apply (IH false).
Qed.

Lemma singleSpaced_no_double (b : bool) (pre post : jsstring) :
  singleSpaced b (pre ++ 32 :: 32 :: post) = false.
Proof.
  revert b. induction pre as [|x pre IH]; intro b; cbn [app singleSpaced].
  - change (isWhiteSpace 32) with true. cbn.
    destruct b; reflexivity.
  - destruct (isWhiteSpace x); [|apply IH].
    rewrite IH. apply andb_false_r.
Qed.

Lemma limitNewlines_id (s : jsstring) :
  ~ In 10 s -> limitNewlines 0 s = s.
Proof.
  induction s as [|c s IH]; intro H; [reflexivity|].
  cbn [limitNewlines]. destruct (Z.eqb_spec c 10) as [-> | Hc].
  - exfalso. apply H. now left.
  - cbn. rewrite IH; [reflexivity|]. intro Hin. apply H. now right.
Qed.

Lemma trimStart_skipn (s : jsstring) :
  exists k, trimStart s = skipn k s.
Proof.
  destruct (trimStart_suffix s) as [white [Hs _]].
  exists (length white). rewrite Hs at 2.
  rewrite skipn_app, Nat.sub_diag, skipn_all. reflexivity.
Qed.

Lemma trimEnd_firstn (s : jsstring) :
  exists k, trimEnd s = firstn k s.
Proof.
  destruct (trimEnd_prefix s) as [white [Hs _]].
  exists (length (trimEnd s)). rewrite Hs at 3.
  rewrite firstn_app, Nat.sub_diag, firstn_all, firstn_O, app_nil_r.
  reflexivity.
Qed.

Lemma substring_prefix (s : jsstring) (n : Z) :
  0 <= n -> substring s 0 n = firstn (Z.to_nat n) s.
Proof.
  intro Hn. unfold substring. cbv zeta.
  assert (0 <= len s) by (unfold len; lia).
  replace (Z.min (Z.max 0 0) (len s)) with 0 by lia.
  replace (Z.min 0 (Z.min (Z.max n 0) (len s))) with 0 by lia.
  replace (Z.max 0 (Z.min (Z.max n 0) (len s)) - 0)
    with (Z.min n (len s)) by lia.
  cbn [Z.to_nat skipn].
  destruct (Z.le_gt_cases n (len s)) as [Hle | Hgt].
  - now replace (Z.min n (len s)) with n by lia.
  - replace (Z.min n (len s)) with (len s) by lia.
    unfold len in *. rewrite Nat2Z.id, firstn_all.
    symmetry. apply firstn_all2. lia.
Qed.

(** X19. The cleaned text holds at most 50000 code units; its only white
    space is the single space, never two in a row and never at the start;
    and the replacement of three or more line feeds finds nothing to
    replace, the white space being collapsed before. *)
Theorem cleanText_spec (text : jsstring) :
  len (cleanText text) <= 50000
  /\ (forall c, In c (cleanText text) -> isWhiteSpace c = true -> c = 32)
  /\ (forall pre post, cleanText text <> pre ++ 32 :: 32 :: post)
  /\ (forall c t, cleanText text = c :: t -> isWhiteSpace c = false)
  /\ limitNewlines 0 (collapseWhitespace false text)
     = collapseWhitespace false text.
Proof.
  pose proof (collapseWhitespace_singleSpaced false text) as Hc.
  assert (Hid : limitNewlines 0 (collapseWhitespace false text)
                = collapseWhitespace false text).
  { apply limitNewlines_id. intro Hin.
    pose proof (singleSpaced_In _ _ 10 Hc Hin eq_refl). discriminate. }
  unfold cleanText. rewrite Hid, substring_prefix by lia.
  set (collapsed := collapseWhitespace false text) in *.
  assert (Hs : singleSpaced false (firstn (Z.to_nat 50000) (trim collapsed))
               = true).
  { apply singleSpaced_firstn. unfold trim.
    destruct (trimEnd_firstn (trimStart collapsed)) as [k ->].
    apply singleSpaced_firstn.
    destruct (trimStart_skipn collapsed) as [j ->].
    now apply (singleSpaced_skipn false). }
  split; [unfold len; rewrite length_firstn; lia|].
  split; [intros c Hin Hw; now apply (singleSpaced_In _ _ _ Hs)|].
  split.
  - intros pre post Heq. rewrite Heq, singleSpaced_no_double in Hs.
    discriminate.
  - split; [|reflexivity]. intros c t Heq.
    destruct (trim_spec collapsed) as [Hhead _].
    destruct (trim collapsed) as [|x rest] eqn:E.
    + rewrite firstn_nil in Heq. discriminate.
    + destruct (Z.to_nat 50000) as [|k] eqn:Ek; [lia|].
      cbn [firstn] in Heq. injection Heq as <- _.
      exact (Hhead x rest eq_refl).
Qed.

Lemma cleanText_spec_witness :
  cleanText [32; 65; 9; 10; 10; 10; 66; 32; 32] = [65; 32; 66]
  /\ isWhiteSpace 65 = false.
Proof.
  split; [vm_compute; reflexivity|].
  destruct (cleanText_spec [32; 65; 9; 10; 10; 10; 66; 32; 32])
    as [_ [_ [_ [H _]]]].
  apply (H 65 [32; 66]). vm_compute. reflexivity.
Defined.

(* ================================================================== *)
(** * Combination warnings, end to end                                 *)
(* ================================================================== *)

Lemma warning_inj (combo combo' : DangerousCombination) :
  In combo DANGEROUS_COMBINATIONS -> In combo' DANGEROUS_COMBINATIONS ->
  warning combo = warning combo' -> combo = combo'.
Proof.
  unfold DANGEROUS_COMBINATIONS. simpl.
  intros [<- | [<- | [<- | []]]] [<- | [<- | [<- | []]]] H;
    try reflexivity; vm_compute in H; discriminate H.
Qed.

(** X20. The enhanced analysis shows the warning of a combination rule
    exactly when, for each category of the rule, a keyword of that category
    occurs in the text. *)
Theorem combinationWarnings_iff (toLowerCase : jsstring -> jsstring)
  (now : Clock) (text : jsstring) (combo : DangerousCombination) :
  In combo DANGEROUS_COMBINATIONS ->
  (In (warning combo)
      (Analysis.combinationWarnings
         (analyzeRisksEnhanced toLowerCase now text))
   <-> forall c, In c (categories combo) ->
         exists keywords keyword,
           In (c, keywords) RISK_KEYWORDS /\ In keyword keywords
           /\ occursIn (toLowerCase text) (toLowerCase keyword)).
Proof.
  intro Hcombo. unfold analyzeRisksEnhanced.
  cbn [Analysis.combinationWarnings].
  unfold detectDangerousCombinations.
  rewrite detectDangerousCombinations_fold. cbn [app].
  set (cats := map category (analyzeRisks toLowerCase now text)).
  assert (Hiff : In (warning combo)
                   (map warning
                      (filter (fun combo => hasAllCategories combo cats)
                              DANGEROUS_COMBINATIONS))
                 <-> incl (categories combo) cats).
  { rewrite in_map_iff. split.
    - intros [combo' [Hw Hin]]. apply filter_In in Hin.
      destruct Hin as [Hin Hall].
      rewrite (warning_inj combo combo' Hcombo Hin (eq_sym Hw)).
      now apply hasAllCategories_incl.
    - intro Hincl. exists combo. split; [reflexivity|].
      apply filter_In. split; [assumption|].
      now apply hasAllCategories_incl. }
  rewrite Hiff. unfold incl, cats. split.
  - intros H c Hc.
    exact (proj1 (analyzeRisks_category_iff toLowerCase now text c)
             (H c Hc)).
  - intros H c Hc.
    exact (proj2 (analyzeRisks_category_iff toLowerCase now text c)
             (H c Hc)).
Qed.

Lemma combinationWarnings_iff_witness :
  In (lit "They can charge you automatically but terminate you at will")
     (Analysis.combinationWarnings
        (analyzeRisksEnhanced asciiToLowerCase (frozenAt 1700000000000)
           (lit "Plans automatically renew; we may suspend your account."))).
Proof.
  refine (proj2 (combinationWarnings_iff asciiToLowerCase
                   (frozenAt 1700000000000)
                   (lit "Plans automatically renew; we may suspend your account.")
                   (mkCombo [auto_renewal; account_termination] 1
                      (lit "They can charge you automatically but terminate you at will"))
                   _) _).
  - right. right. left. reflexivity.
  - intros c Hc.
    refine (proj1 (analyzeRisks_category_iff asciiToLowerCase
                     (frozenAt 1700000000000)
                     (lit "Plans automatically renew; we may suspend your account.")
                     c) _).
    destruct Hc as [<- | [<- | []]]; vm_compute; tauto.
Defined.

(* ================================================================== *)
(** * Usage accounting                                                 *)
(* ================================================================== *)

Section UsageProperties.

Variables getMonth getFullYear : Z -> Z.
Variable loadTime : Z.

Local Notation inSameMonth := (sameMonth getMonth getFullYear).
Local Notation usageAt := (getUsage getMonth getFullYear loadTime).
Local Notation stored := (currentUsage loadTime).
Local Notation scan := (scanPage getMonth getFullYear loadTime).
Local Notation scanAll := (scanPages getMonth getFullYear loadTime).

Lemma sameMonth_iff (a b : Z) :
  inSameMonth a b = true
  <-> getMonth a = getMonth b /\ getFullYear a = getFullYear b.
Proof.
  unfold sameMonth. now rewrite andb_true_iff, !Z.eqb_eq.
Qed.

Lemma sameMonth_trans (a b c : Z) :
  inSameMonth a b = true -> inSameMonth b c = true -> inSameMonth a c = true.
Proof.
  rewrite !sameMonth_iff. intros [H1 H2] [H3 H4]. split; congruence.
Qed.

Lemma sameMonth_sym (a b : Z) :
  inSameMonth a b = true -> inSameMonth b a = true.
Proof. rewrite !sameMonth_iff. intros [H1 H2]. split; congruence. Qed.

Lemma sameMonth_refl (a : Z) : inSameMonth a a = true.
Proof. apply sameMonth_iff. now split. Qed.

Lemma getUsage_cases (store : option UsageData) (now : Z) :
  (inSameMonth (monthStart (stored store)) now = true
   /\ usageAt store now = (stored store, store))
  \/ (inSameMonth (monthStart (stored store)) now = false
      /\ usageAt store now
         = (mkUsage 0 now (tier (stored store))
                    (licenseKey (stored store)),
            Some (mkUsage 0 now (tier (stored store))
                          (licenseKey (stored store))))).
Proof.
  unfold getUsage, sameMonth, currentUsage.
  destruct (getMonth _ =? getMonth now), (getFullYear _ =? getFullYear now);
    cbn; tauto.
Qed.

Lemma getUsage_same (store : option UsageData) (now : Z) :
  inSameMonth (monthStart (stored store)) now = true ->
  usageAt store now = (stored store, store).
Proof.
  intro H. destruct (getUsage_cases store now) as [[_ Hg] | [Hs _]];
    [exact Hg | congruence].
Qed.

(** X21. [getUsage] returns a usage that starts in the month of the call
    and keeps tier and licence key: the stored one, untouched, when it
    started in that month, and otherwise a fresh one with no scan, which it
    stores. Asking again within the month changes nothing. *)
Theorem getUsage_spec (store : option UsageData) (now : Z) :
  let usage := fst (usageAt store now) in
  let store' := snd (usageAt store now) in
  inSameMonth (monthStart usage) now = true
  /\ tier usage = tier (stored store)
  /\ licenseKey usage = licenseKey (stored store)
  /\ stored store' = usage
  /\ (inSameMonth (monthStart (stored store)) now = true ->
      usage = stored store /\ store' = store)
  /\ (inSameMonth (monthStart (stored store)) now = false ->
      scansThisMonth usage = 0 /\ monthStart usage = now
      /\ store' = Some usage)
  /\ (forall later, inSameMonth now later = true ->
        usageAt store' later = (usage, store')).
Proof.
  cbv zeta.
  destruct (getUsage_cases store now) as [[Hs ->] | [Hs ->]];
    cbn [fst snd monthStart tier licenseKey scansThisMonth].
  - rewrite Hs. repeat split; try reflexivity; try discriminate.
    intros later Hl.
    destruct (getUsage_cases store later) as [[_ ->] | [Hs' _]];
      [reflexivity|].
    rewrite (sameMonth_trans _ _ _ Hs Hl) in Hs'. discriminate.
  - rewrite Hs, sameMonth_refl.
    repeat split; try reflexivity; try discriminate.
    intros later Hl.
    destruct (getUsage_cases
                (Some (mkUsage 0 now (tier (stored store))
                               (licenseKey (stored store)))) later)
      as [[_ ->] | [Hs' _]]; [reflexivity|].
    cbn in Hs'. rewrite Hl in Hs'. discriminate.
Qed.

(** One scan within the month of the stored usage. *)
Lemma scanPage_same_month (store : option UsageData) (req : ScanRequest) :
  inSameMonth (monthStart (stored store)) (atCheck req) = true ->
  inSameMonth (monthStart (stored store)) (atIncrement req) = true ->
  inSameMonth (monthStart (stored store)) (atDisplay req) = true ->
  scan store req
  = if UserTier_eqb (tier (stored store)) free
       && (FREE_SCANS_PER_MONTH - scansThisMonth (stored store) <=? 0)
    then if noticeThrows req then (Rejected, store)
         else (LIMIT_REACHED, store)
    else if startThrows req then (Rejected, store)
    else if analysisThrows req then (catchBlock req, store)
    else if negb (isAgreement req) then (NO_AGREEMENT, store)
    else if displayThrows req
    then (catchBlock req,
          Some (mkUsage (scansThisMonth (stored store) + 1)
                        (monthStart (stored store))
                        (tier (stored store))
                        (licenseKey (stored store))))
    else (Scanned (FREE_SCANS_PER_MONTH
                   - (scansThisMonth (stored store) + 1)),
          Some (mkUsage (scansThisMonth (stored store) + 1)
                        (monthStart (stored store))
                        (tier (stored store))
                        (licenseKey (stored store)))).
Proof.
  intros H1 H2 H3. unfold scanPage.
  destruct (getUsage_cases store (atCheck req)) as [[_ ->] | [Hs _]];
    [|congruence].
  destruct (UserTier_eqb _ free && _); [reflexivity|].
  destruct (startThrows req); [reflexivity|].
  destruct (analysisThrows req); [reflexivity|].
  destruct (negb (isAgreement req)); [reflexivity|].
  unfold incrementUsage.
  destruct (getUsage_cases store (atIncrement req)) as [[_ ->] | [Hs _]];
    [|congruence].
  match goal with
  | |- context [getUsage _ _ _ ?s ?t] =>
      destruct (getUsage_cases s t) as [[_ ->] | [Hs _]]
  end; [reflexivity|].
  cbn in Hs. congruence.
Qed.

(** What one scan of a free user does to the count within the month: it
    adds one exactly when the call got as far as [incrementUsage]. *)
Lemma scanPage_step (store : option UsageData) (req : ScanRequest)
  (month : Z) :
  tier (stored store) = free ->
  inSameMonth (monthStart (stored store)) month = true ->
  inSameMonth month (atCheck req) = true ->
  inSameMonth month (atIncrement req) = true ->
  inSameMonth month (atDisplay req) = true ->
  exists d : Z,
    (d = 0 \/ d = 1)
    /\ tier (stored (snd (scan store req))) = free
    /\ inSameMonth (monthStart (stored (snd (scan store req)))) month = true
    /\ scansThisMonth (stored (snd (scan store req)))
       = scansThisMonth (stored store) + d
    /\ (isScanned (fst (scan store req)) = true -> d = 1)
    /\ (d = 1 -> scansThisMonth (stored store) < FREE_SCANS_PER_MONTH)
    /\ (d = 1 ->
        isScanned (fst (scan store req)) = true
        \/ (isFailure (fst (scan store req)) = true
            /\ displayThrows req = true))
    /\ (FREE_SCANS_PER_MONTH <= scansThisMonth (stored store) ->
        fst (scan store req)
        = if noticeThrows req then Rejected else LIMIT_REACHED).
Proof.
  intros Htier Hmonth H1 H2 H3.
  rewrite scanPage_same_month by (eapply sameMonth_trans; eassumption).
  replace (UserTier_eqb (tier (stored store)) free) with true
    by (rewrite Htier; reflexivity).
  cbn [andb]. unfold FREE_SCANS_PER_MONTH, catchBlock.
  destruct (Z.leb_spec (5 - scansThisMonth (stored store)) 0)
    as [Hfull | Hleft].
  - exists 0. destruct (noticeThrows req); cbn [fst snd isScanned];
      repeat split; try assumption; try lia; try discriminate;
      try (now left).
  - destruct (startThrows req); [|destruct (analysisThrows req);
      [|destruct (isAgreement req); cbn [negb]]].
    + exists 0. cbn [fst snd isScanned].
      repeat split; try assumption; try lia; try discriminate;
        try (now left).
    + exists 0. destruct (handlerThrows req); cbn [fst snd isScanned];
        repeat split; try assumption; try lia; try discriminate;
        try (now left).
    + exists 1.
      destruct (displayThrows req), (handlerThrows req);
        cbn [fst snd isScanned isFailure currentUsage scansThisMonth
             monthStart tier];
        repeat split; try assumption; try lia; try discriminate;
        try (now right); try (intros _; now left);
        try (intros _; right; now split).
    + exists 0. cbn [fst snd isScanned].
      repeat split; try assumption; try lia; try discriminate;
        try (now left).
Qed.

(** X22. Within one calendar month a free user is granted what is left of
    five scans and no more. The stored count grows by one for each call
    that gets as far as [incrementUsage]: for each scan shown, and for
    each call that breaks off after the increment, which is counted though
    it shows nothing. Refusals, pages without agreement and calls that
    break off earlier add nothing. So the scans shown number at most what
    the count grew by, which is at most five less the count at the start;
    when no call breaks off after the increment the two are equal; and
    from a count of five on every call is refused and the count stays. *)
Theorem scanPages_quota (store : option UsageData)
  (reqs : list ScanRequest) (month : Z) :
  tier (stored store) = free ->
  inSameMonth (monthStart (stored store)) month = true ->
  Forall (fun req =>
            inSameMonth month (atCheck req) = true
            /\ inSameMonth month (atIncrement req) = true
            /\ inSameMonth month (atDisplay req) = true) reqs ->
  let outcomes := fst (scanAll store reqs) in
  let final := snd (scanAll store reqs) in
  let shown := Z.of_nat (length (filter isScanned outcomes)) in
  let broken := Z.of_nat (length (filter isFailure outcomes)) in
  let counted :=
    scansThisMonth (stored final) - scansThisMonth (stored store) in
  shown <= counted <= shown + broken
  /\ counted <= Z.max 0 (FREE_SCANS_PER_MONTH
                         - scansThisMonth (stored store))
  /\ (Forall (fun req => displayThrows req = false) reqs ->
      counted = shown)
  /\ (FREE_SCANS_PER_MONTH <= scansThisMonth (stored store) ->
      counted = 0
      /\ outcomes
         = map (fun req =>
                  if noticeThrows req then Rejected else LIMIT_REACHED)
               reqs).
Proof.
  intros Htier Hmonth Hreqs. cbv zeta. revert store Htier Hmonth.
  induction Hreqs as [|req reqs [H1 [H2 H3]] _ IH]; intros store Htier Hmonth.
  - cbn. unfold FREE_SCANS_PER_MONTH. repeat split; lia.
  - cbn [scanPages map].
    destruct (scanPage_step store req month Htier Hmonth H1 H2 H3)
      as [d [Hd [Htier' [Hmonth' [Hcount [Hshown [Hroom [Hwhy Hfull]]]]]]]].
    destruct (scan store req) as [outcome store'].
    cbn [fst snd] in *.
    specialize (IH store' Htier' Hmonth').
    destruct (scanAll store' reqs) as [outcomes final].
    cbn [fst snd filter] in *.
    destruct IH as [[IH1 IH2] [IH3 [IH4 IH5]]].
    unfold FREE_SCANS_PER_MONTH in *.
    assert (Hlen : forall (f : ScanOutcome -> bool),
               Z.of_nat (length (if f outcome
                                 then outcome :: filter f outcomes
                                 else filter f outcomes))
               = (if f outcome then 1 else 0)
                 + Z.of_nat (length (filter f outcomes))).
    { intro f. destruct (f outcome); cbn [length]; lia. }
    rewrite !Hlen. clear Hlen.
    split; [|split; [|split]].
    + destruct (isScanned outcome), (isFailure outcome);
        destruct Hd as [-> | ->];
        try (specialize (Hshown eq_refl));
        try (destruct (Hwhy eq_refl) as [Hw | [Hw _]]);
        try discriminate; lia.
    + destruct Hd as [-> | ->]; [lia|]. specialize (Hroom eq_refl). lia.
    + intro Hno. inversion Hno as [|? ? Hreq Hrest]; subst.
      specialize (IH4 Hrest).
      destruct (isScanned outcome); destruct Hd as [-> | ->];
        try (specialize (Hshown eq_refl));
        try (destruct (Hwhy eq_refl) as [Hw | [_ Hw]]);
        try discriminate; try congruence; lia.
    + intro Hfive. rewrite (Hfull Hfive).
      destruct Hd as [-> | ->]; [|specialize (Hroom eq_refl); lia].
      destruct IH5 as [IH5 ->]; [lia|]. split; [lia | reflexivity].
Qed.

(** X23. The first call of a new month on a page with an agreement is
    never refused for the limit, whatever the count and the tier were: if
    nothing throws before the increment it is counted as the one scan of
    the month, it comes to a scan shown with four left when nothing throws
    afterwards either, and to what the catch block returns when the
    display throws. A paid user is never refused for the limit. *)
Theorem scanPage_new_month (store : option UsageData) (req : ScanRequest) :
  (inSameMonth (monthStart (stored store)) (atCheck req) = false ->
   inSameMonth (atCheck req) (atIncrement req) = true ->
   inSameMonth (atCheck req) (atDisplay req) = true ->
   isAgreement req = true ->
   startThrows req = false ->
   analysisThrows req = false ->
   scansThisMonth (stored (snd (scan store req))) = 1
   /\ (displayThrows req = false -> fst (scan store req) = Scanned 4)
   /\ (displayThrows req = true ->
       fst (scan store req)
       = if handlerThrows req then Rejected else SCAN_FAILED))
  /\ (tier (stored store) = paid ->
      fst (scan store req) <> LIMIT_REACHED).
Proof.
  split.
  - intros Hnew H2 H3 Hag Hstart Hanalysis.
    destruct (getUsage_cases store (atCheck req)) as [[Hs _] | [_ Hg]];
      [congruence|].
    unfold scanPage. rewrite Hg. cbn [scansThisMonth tier].
    unfold FREE_SCANS_PER_MONTH. change (5 - 0 <=? 0) with false.
    rewrite andb_false_r, Hstart, Hanalysis, Hag. cbn [negb].
    unfold incrementUsage.
    rewrite (getUsage_same
               (Some (mkUsage 0 (atCheck req) (tier (stored store))
                              (licenseKey (stored store))))
               (atIncrement req) H2).
    cbn [currentUsage scansThisMonth monthStart tier licenseKey].
    rewrite (getUsage_same
               (Some (mkUsage (0 + 1) (atCheck req) (tier (stored store))
                              (licenseKey (stored store))))
               (atDisplay req) H3).
    unfold catchBlock.
    destruct (displayThrows req);
      cbn [fst snd currentUsage scansThisMonth];
      repeat split; try reflexivity; intro H; discriminate H.
  - intro Hpaid. unfold scanPage, catchBlock.
    destruct (getUsage_cases store (atCheck req)) as [[_ ->] | [_ ->]];
      cbn [tier]; rewrite Hpaid; cbn [UserTier_eqb andb];
      (destruct (startThrows req); [discriminate|]);
      (destruct (analysisThrows req);
       [destruct (handlerThrows req); discriminate|]);
      (destruct (negb (isAgreement req)); [discriminate|]);
      match goal with
      | |- context [getUsage ?a ?b ?c ?d ?e] =>
          destruct (getUsage a b c d e)
      end;
      destruct (displayThrows req), (handlerThrows req); discriminate.
Qed.

End UsageProperties.

Lemma getUsage_spec_witness :
  fst (getUsage (fun t => t / 100) (fun _ => 2026) 100
         (Some (mkUsage 3 110 free None)) 250)
  = mkUsage 0 250 free None.
Proof.
  destruct (getUsage_spec (fun t => t / 100) (fun _ => 2026) 100
              (Some (mkUsage 3 110 free None)) 250)
    as [_ [_ [_ [_ [_ [H _]]]]]].
  destruct (H eq_refl) as [H0 [H1 _]].
  reflexivity.
Defined.


Lemma scanPages_quota_witness :
  let outcomes :=
    fst (scanPages (fun t => t / 100) (fun _ => 2026) 100
           (Some (mkUsage 3 110 free None))
           [ mkRequest 120 121 122 false false false false false false;
             mkRequest 130 131 132 true false false false false false;
             mkRequest 140 141 142 true false false false true false;
             mkRequest 150 151 152 true false false false false false ]) in
  outcomes = [NO_AGREEMENT; Scanned 1; SCAN_FAILED; LIMIT_REACHED]
  /\ Z.of_nat (length (filter isScanned outcomes))
     <= Z.max 0 (FREE_SCANS_PER_MONTH - 3).
Proof.
  split; [vm_compute; reflexivity|].
  destruct (scanPages_quota (fun t => t / 100) (fun _ => 2026) 100
              (Some (mkUsage 3 110 free None))
              [ mkRequest 120 121 122 false false false false false false;
                mkRequest 130 131 132 true false false false false false;
                mkRequest 140 141 142 true false false false true false;
                mkRequest 150 151 152 true false false false false false ]
              160)
    as [[H1 _] [H2 _]].
  - reflexivity.
  - reflexivity.
  - repeat constructor.
  - exact (Z.le_trans _ _ _ H1 H2).
Defined.

Lemma scanPage_new_month_witness :
  fst (scanPage (fun t => t / 100) (fun _ => 2026) 100
         (Some (mkUsage 5 110 free None))
         (mkRequest 250 251 252 true false false false false false))
  = Scanned 4
  /\ fst (scanPage (fun t => t / 100) (fun _ => 2026) 100
            (Some (mkUsage 5 110 free None))
            (mkRequest 250 251 252 true false false false true false))
     = SCAN_FAILED.
Proof.
  split.
  - exact (proj1 (proj2 (proj1 (scanPage_new_month
                                  (fun t => t / 100) (fun _ => 2026) 100
                                  (Some (mkUsage 5 110 free None))
                                  (mkRequest 250 251 252 true
                                             false false false false false))
                               eq_refl eq_refl eq_refl eq_refl eq_refl
                               eq_refl))
                 eq_refl).
  - exact (proj2 (proj2 (proj1 (scanPage_new_month
                                  (fun t => t / 100) (fun _ => 2026) 100
                                  (Some (mkUsage 5 110 free None))
                                  (mkRequest 250 251 252 true
                                             false false false true false))
                               eq_refl eq_refl eq_refl eq_refl eq_refl
                               eq_refl))
                 eq_refl).
Defined.
